(** * Neurokernel base classes: modules, broker, connectivity, manager

    A shallow embedding of [neurokernel/base.py] (Python 2).  Objects are
    records, dictionaries are finite maps, the data socket of a process is
    a pair of traces, and Python exceptions are results of a small
    state-and-exception monad. *)

From Stdlib Require Import Ascii String.
From stdpp Require Import gmap strings list fin_maps pretty.

Set Warnings "-clear-no-such-hyp".

(** ** Python results: exceptions, blocking calls, mutable state *)

(** The exception classes the modelled code can raise. [UnpackException]
    stands for the errors of [msgpack.unpackb] on a body that is not a
    serialised pair. *)
Inductive exn : Set :=
| ValueError | KeyError | IndexError | AttributeError | AssertionError
| OverflowError | UnpackException.

#[global] Instance exn_eq_dec : EqDecision exn.
Proof. solve_decision. Defined.

(** A call returns, raises, or never returns (a blocking [recv] on a socket
    on which nothing more arrives). *)
Inductive outcome (A : Type) : Type :=
| Ok (a : A)
| Raise (e : exn)
| Blocks.
Arguments Ok {A} a.
Arguments Raise {A} e.
Arguments Blocks {A}.

(** Statements run over a mutable state [S]; the state reached when an
    exception is raised is kept, as the mutations done by then are. *)
Definition M (S A : Type) : Type := S → outcome A * S.

Definition ret {S A} (a : A) : M S A := λ s, (Ok a, s).
Definition raise {S A} (e : exn) : M S A := λ s, (Raise e, s).
Definition bind {S A B} (m : M S A) (k : A → M S B) : M S B :=
  λ s, match m s with
       | (Ok a, s') => k a s'
       | (Raise e, s') => (Raise e, s')
       | (Blocks, s') => (Blocks, s')
       end.
Definition gets {S A} (f : S → A) : M S A := λ s, (Ok (f s), s).
Definition modify {S} (f : S → S) : M S unit := λ s, (Ok tt, f s).
Definition lift {S A} (o : outcome A) : M S A := λ s, (o, s).
Definition blocks {S A} : M S A := λ s, (Blocks, s).

Declare Scope py_scope.
Delimit Scope py_scope with py.
Notation "x <- c ;; k" := (bind c (λ x, k))
  (at level 100, c at next level, right associativity) : py_scope.
Notation "c ;; k" := (bind c (λ _, k))
  (at level 100, right associativity) : py_scope.
Open Scope py_scope.

(** [l.remove(x)]: drops the first occurrence of [x]; [None] is the
    [ValueError] Python raises when [x] is not in the list. *)
Fixpoint list_remove {A} `{EqDecision A} (x : A) (l : list A) : option (list A) :=
  match l with
  | [] => None
  | y :: l' => if decide (x = y) then Some l' else cons y <$> list_remove x l'
  end.

Definition py_remove {S A} `{EqDecision A} (x : A) (l : list A) : M S (list A) :=
  match list_remove x l with
  | Some l' => ret l'
  | None => raise ValueError
  end.

(** Removing the elements of [xs] one after the other, as a loop of
    [l.remove(x)] does; [None] when one of the removals raises. *)
Fixpoint remove_all {A} `{EqDecision A} (xs l : list A) : option (list A) :=
  match xs with
  | [] => Some l
  | x :: xs' => match list_remove x l with
                | Some l' => remove_all xs' l'
                | None => None
                end
  end.

(** [s.split(sep)] and [sep.join(l)] for a one-character separator. *)
Fixpoint split (sep : ascii) (s : string) : list string :=
  match s with
  | EmptyString => [EmptyString]
  | String c s' =>
      if decide (c = sep) then EmptyString :: split sep s'
      else match split sep s' with
           | [] => [String c EmptyString]
           | h :: t => String c h :: t
           end
  end.

Fixpoint join (sep : ascii) (l : list string) : string :=
  match l with
  | [] => EmptyString
  | [s] => s
  | s :: l' => s +:+ String sep (join sep l')
  end.

(** Module, broker and connectivity identifiers are the strings [uid()]
    hands out. *)
Abbreviation ID := string (only parsing).

(** A payload is a Python value or [None], the barrier token. *)
Abbreviation payload := (option string) (only parsing).

(** [for x in l: body(x)] over a mutable state. *)
Fixpoint for_each {S A} (l : list A) (body : A → M S unit) : M S unit :=
  match l with
  | [] => ret tt
  | x :: l' => body x ;; for_each l' body
  end.

(** ** Sparse matrices

    The [scipy.sparse.lil_matrix] objects the connectivity class stores:
    a shape and the cells that were set.  The values are Python integers
    and the matrices have the 64-bit integer dtype numpy gives for
    [int]: the constructor makes the ['conn'] matrices with dtype [int],
    and [set] makes a matrix with dtype [type(val)] (a value that is not
    an integer, and the dtype it would give a new matrix, are outside the
    model). *)
Record matrix : Type := Matrix {
  mat_shape : nat * nat;
  mat_cells : gmap (nat * nat) Z
}.

(** [sp.sparse.lil_matrix(shape, dtype)]: the empty matrix of that shape. *)
Definition _make_matrix (shape : nat * nat) : matrix := Matrix shape ∅.

(** The integers a cell can hold. *)
Definition int64_ok (v : Z) : Prop := (- 2 ^ 63 ≤ v < 2 ^ 63)%Z.

#[global] Instance int64_ok_dec v : Decision (int64_ok v).
Proof. unfold int64_ok. apply _. Defined.

(** [m[i, j] = v].  The value is converted to the dtype first
    ([self.dtype.type(x)]: an integer outside the 64-bit range raises
    [OverflowError] and the matrix is left as it was); then an index
    outside the shape raises [IndexError]; and a zero is not stored. *)
Definition matrix_set (i j : nat) (v : Z) (m : matrix) : outcome matrix :=
  if decide (int64_ok v) then
    if decide (i < (mat_shape m).1 ∧ j < (mat_shape m).2) then
      Ok (Matrix (mat_shape m)
            (if decide (v = 0%Z) then delete (i, j) (mat_cells m)
             else <[(i, j) := v]> (mat_cells m)))
    else Raise IndexError
  else Raise OverflowError.

(** [m.T] *)
Definition matrix_T (m : matrix) : matrix :=
  Matrix (prod_swap (mat_shape m)) (kmap prod_swap (mat_cells m)).

(** ** BaseConnectivity *)
Module BaseConnectivity.

(** [_keys_by_dir], a dictionary with the two keys ['+'] and ['-']. *)
Record keys_by_dir : Type := KeysByDir {
  keys_plus : list string;
  keys_minus : list string
}.

Record t : Type := Make {
  id : ID;
  N_src : nat;
  N_dest : nat;
  N_mult : nat;
  _data : gmap string matrix;
  _keys_by_dir : keys_by_dir
}.

Definition shape (self : t) : nat * nat := (N_src self, N_dest self).

(** [string.join(map(str, [syn, dir, param]), '/')] *)
Definition _make_key (syn : nat) (dir param : string) : string :=
  join "/" [pretty syn; dir; param].

(** [self._keys_by_dir[dir].append(key)]; [dir] is ['+'] or ['-'] at
    every call. *)
Definition keys_append (dir key : string) (k : keys_by_dir) : keys_by_dir :=
  if decide (dir = "+") then KeysByDir (keys_plus k ++ [key]) (keys_minus k)
  else KeysByDir (keys_plus k) (keys_minus k ++ [key]).

Definition set_data (key : string) (m : matrix) (self : t) : t :=
  Make (id self) (N_src self) (N_dest self) (N_mult self)
       (<[key := m]> (_data self)) (_keys_by_dir self).

Definition set_keys_by_dir (k : keys_by_dir) (self : t) : t :=
  Make (id self) (N_src self) (N_dest self) (N_mult self) (_data self) k.

(** The constructor; [uid] is the identifier [uid()] returns. *)
Definition __init__ (uid : ID) (N_src N_dest N_mult : nat) : outcome t :=
  if decide (N_src = 0) then Raise AssertionError
  else if decide (N_dest = 0) then Raise AssertionError
  else if decide (N_mult = 0) then Raise AssertionError
  else
    let self := Make uid N_src N_dest N_mult ∅ (KeysByDir [] []) in
    let key := _make_key 0 "+" "conn" in
    let self := set_data key (_make_matrix (shape self)) self in
    let self := set_keys_by_dir (keys_append "+" key (_keys_by_dir self)) self in
    let key := _make_key 0 "-" "conn" in
    let self := set_data key (_make_matrix (shape self)) self in
    let self := set_keys_by_dir (keys_append "-" key (_keys_by_dir self)) self in
    Ok self.

Definition set_N_mult (n : nat) (self : t) : t :=
  Make (id self) (N_src self) (N_dest self) n (_data self) (_keys_by_dir self).

(** [set(self, source, dest, syn, dir, param, val)], run on [self], for
    an integer [val]. *)
Definition set (source dest syn : nat) (dir param : string) (val : Z) : M t unit :=
  (if decide (dir = "-" ∨ dir = "+") then ret tt else raise AssertionError) ;;
  let key := _make_key syn dir param in
  d <- gets _data ;;
  (if decide (d !! key = None) then
     sh <- gets shape ;;
     modify (set_data key (_make_matrix sh)) ;;
     modify (λ c, set_keys_by_dir (keys_append dir key (_keys_by_dir c)) c) ;;
     n <- gets N_mult ;;
     if decide (n < syn + 1) then modify (set_N_mult (n + 1)) else ret tt
   else ret tt) ;;
  d <- gets _data ;;
  m <- lift (match d !! key with Some m => Ok m | None => Raise KeyError end) ;;
  m <- lift (matrix_set source dest val m) ;;
  modify (set_data key m).

(** The body of the loop of [transpose], run on the new object [c]. *)
Definition transpose_key (self : t) (old_key : string) : M t unit :=
  let key_split := split "/" old_key in
  old_dir <- lift (match key_split !! 1 with
                   | Some d => Ok d
                   | None => Raise IndexError
                   end) ;;
  new_dir <- (if decide (old_dir = "+") then ret "-"
              else if decide (old_dir = "-") then ret "+"
              else raise ValueError) ;;
  let key_split := <[1 := new_dir]> key_split in
  let new_key := join "/" key_split in
  old_m <- lift (match _data self !! old_key with
                 | Some m => Ok m
                 | None => Raise KeyError
                 end) ;;
  modify (set_data new_key (matrix_T old_m)) ;;
  modify (λ c, set_keys_by_dir (keys_append new_dir new_key (_keys_by_dir c)) c).

(** [self._data.keys()] *)
Definition data_keys (self : t) : list string := (map_to_list (_data self)).*1.

Definition transpose (uid : ID) (self : t) : outcome t :=
  match __init__ uid (N_dest self) (N_dest self) 1 with
  | Ok c =>
      let c := set_keys_by_dir (KeysByDir [] []) c in
      match for_each (data_keys self) (transpose_key self) c with
      | (Ok _, c) => Ok c
      | (Raise e, _) => Raise e
      | (Blocks, _) => Blocks
      end
  | Raise e => Raise e
  | Blocks => Blocks
  end.

End BaseConnectivity.

(** ** Dynamically typed arguments

    The values a caller can pass where the code tests [isinstance]: a
    module (a reference into the store of module objects), a connectivity
    object, or something else. *)
Inductive pyobj : Type :=
| ObjModule (a : positive)
| ObjConn (c : BaseConnectivity.t)
| ObjNone
| ObjStr (s : string).

(** [isinstance(o, BaseConnectivity)] *)
Definition is_conn (o : pyobj) : bool :=
  match o with ObjConn _ => true | _ => false end.

(** ** BaseModule *)

(** The values the [net] setter accepts. *)
Inductive net_mode : Set := net_none | net_ctrl | net_in | net_out | net_full.

#[global] Instance net_mode_eq_dec : EqDecision net_mode.
Proof. solve_decision. Defined.

Module BaseModule.

(** [conn_dict], a dictionary with the two keys ['in'] and ['out'], each
    holding a dictionary from peer ID to connectivity object. *)
Record conn_dict_t : Type := ConnDict {
  conn_in : gmap ID BaseConnectivity.t;
  conn_out : gmap ID BaseConnectivity.t
}.

Record t : Type := Make {
  id : ID;
  net : net_mode;
  port_data : Z;
  port_ctrl : Z;
  _in_data : list (ID * payload);
  _out_data : list (ID * payload);
  conn_dict : conn_dict_t
}.

Definition set_net (v : net_mode) (self : t) : t :=
  Make (id self) v (port_data self) (port_ctrl self)
       (_in_data self) (_out_data self) (conn_dict self).

Definition set_in_data (v : list (ID * payload)) (self : t) : t :=
  Make (id self) (net self) (port_data self) (port_ctrl self)
       v (_out_data self) (conn_dict self).

Definition set_conn_dict (v : conn_dict_t) (self : t) : t :=
  Make (id self) (net self) (port_data self) (port_ctrl self)
       (_in_data self) (_out_data self) v.

(** [self.conn_dict['in'].keys()]: in Python 2 a new list, in the
    dictionary's order. *)
Definition in_ids (self : t) : list ID :=
  (map_to_list (conn_in (conn_dict self))).*1.

(** [self.conn_dict['out'].keys()] *)
Definition out_ids (self : t) : list ID :=
  (map_to_list (conn_out (conn_dict self))).*1.

(** [add_conn(self, conn, conn_type, id)].  The subscription
    [self.conn_dict[conn_type]] raises [KeyError] for any key other than
    ['in'] and ['out']. *)
Definition add_conn (conn : pyobj) (conn_type : string) (id : ID) : M t unit :=
  match conn with
  | ObjConn c =>
      cd <- gets conn_dict ;;
      if decide (conn_type = "in") then
        modify (set_conn_dict (ConnDict (<[id := c]> (conn_in cd)) (conn_out cd)))
      else if decide (conn_type = "out") then
        modify (set_conn_dict (ConnDict (conn_in cd) (<[id := c]> (conn_out cd))))
      else raise KeyError
  | _ => raise ValueError
  end.

(** *** The module process

    The child process: the module object and its data socket
    [sock_data], as the frames sent on it so far (oldest first) and the
    frames that are still to arrive on it (in arrival order). *)
Record proc : Type := Proc {
  self : t;
  sock_sent : list string;
  sock_inbox : list string
}.

Definition on_self (f : t → t) (p : proc) : proc :=
  Proc (f (self p)) (sock_sent p) (sock_inbox p).

(** [self.sock_data.send(b)] *)
Definition send (b : string) : M proc unit :=
  modify (λ p, Proc (self p) (sock_sent p ++ [b]) (sock_inbox p)).

(** [self.sock_data.recv()]: blocks while nothing has arrived. *)
Definition recv : M proc string :=
  λ p, match sock_inbox p with
       | [] => blocks p
       | b :: rest => (Ok b, Proc (self p) (sock_sent p) rest)
       end.

Section Sync.

(** [msgpack.packb] and [msgpack.unpackb] on (ID, data) pairs. *)
Variable packb : ID * payload → string.
Variable unpackb : string → option (ID * payload).

Definition unpack (b : string) : M proc (ID * payload) :=
  match unpackb b with
  | Some x => ret x
  | None => raise UnpackException
  end.

(** The first send loop: one frame per entry of the outbound buffer;
    returns what is left of [send_ids]. *)
Fixpoint send_loop (out_data : list (ID * payload)) (send_ids : list ID)
  : M proc (list ID) :=
  match out_data with
  | [] => ret send_ids
  | (out_id, data) :: rest =>
      send (packb (out_id, data)) ;;
      send_ids <- py_remove out_id send_ids ;;
      send_loop rest send_ids
  end.

(** The receive loop [while recv_ids: ...].  Every iteration removes one
    ID from [recv_ids], so the loop makes at most as many iterations as
    [recv_ids] has elements; [n] is that bound (with a smaller [n] the
    model gives no result). *)
Fixpoint recv_loop (n : nat) (recv_ids : list ID) : M proc unit :=
  match recv_ids, n with
  | [], _ => ret tt
  | _ :: _, 0 => blocks
  | _ :: _, S n =>
      b <- recv ;;
      x <- unpack b ;;
      let '(in_id, data) := x in
      recv_ids <- py_remove in_id recv_ids ;;
      (match data with
       | Some _ => modify (on_self (λ m, set_in_data (_in_data m ++ [(in_id, data)]) m))
       | None => ret tt
       end) ;;
      recv_loop n recv_ids
  end.

(** The block under [# Send outbound data:]. *)
Definition _sync_send : M proc unit :=
  send_ids <- gets (λ p, out_ids (self p)) ;;
  out_data <- gets (λ p, _out_data (self p)) ;;
  send_ids <- send_loop out_data send_ids ;;
  for_each send_ids (λ out_id, send (packb (out_id, None))).

(** The block under [# Receive inbound data:]. *)
Definition _sync_recv : M proc unit :=
  recv_ids <- gets (λ p, in_ids (self p)) ;;
  modify (on_self (set_in_data [])) ;;
  recv_loop (length recv_ids) recv_ids.

Definition _sync : M proc unit :=
  net <- gets (λ p, net (self p)) ;;
  if decide (net ∈ [net_none; net_ctrl]) then ret tt
  else
    (if decide (net ∈ [net_out; net_full]) then _sync_send else ret tt) ;;
    (if decide (net ∈ [net_in; net_full]) then _sync_recv else ret tt).

End Sync.

End BaseModule.

(** ** RoutingTable *)
Module RoutingTable.

(** Modelled from the spec: [routing_table.py] is not among the sources.
    The spec gives a routing table as a set of directed edges
    [(src, dst)] of multiplicity one, with [coords()] the current edge
    set as an ordered sequence that is stable while the table is
    unchanged, and [set((src,dst), value)] adding the edge when [value]
    is truthy and removing it otherwise.  Here: the edges in insertion
    order, without repetition. *)
Definition t : Type := list (ID * ID).

Definition empty : t := [].

(** [rt.coords]: a new list at every call. *)
Definition coords (rt : t) : list (ID * ID) := rt.

(** [rt[src, dst] = value] *)
Definition __setitem__ (e : ID * ID) (value : Z) (rt : t) : t :=
  if decide (value = 0%Z) then filter (λ e', e' ≠ e) rt
  else if decide (e ∈ rt) then rt
  else rt ++ [e].

Definition row_ids (i : ID) (rt : t) : list ID :=
  (filter (λ e, e.2 = i) rt).*1.

Definition col_ids (i : ID) (rt : t) : list ID :=
  (filter (λ e, e.1 = i) rt).*2.

End RoutingTable.

(** ** Broker *)
Module Broker.

Record t : Type := Make {
  id : ID;
  port_data : Z;
  port_ctrl : Z;
  routing_table : RoutingTable.t;
  data_to_route : list (ID * ID * payload);
  recv_coords_list : list (ID * ID)
}.

Definition set_data_to_route (v : list (ID * ID * payload)) (self : t) : t :=
  Make (id self) (port_data self) (port_ctrl self) (routing_table self)
       v (recv_coords_list self).

Definition set_recv_coords_list (v : list (ID * ID)) (self : t) : t :=
  Make (id self) (port_data self) (port_ctrl self) (routing_table self)
       (data_to_route self) v.

(** The constructor.  [uid] is the identifier the [ControlledProcess]
    constructor assigns; [routing_table] is [None] (the default) or a
    routing table.  Reading [routing_table.coords] on [None] raises
    [AttributeError]. *)
Definition __init__ (uid : ID) (port_data port_ctrl : Z)
    (routing_table : option RoutingTable.t) : outcome t :=
  if decide (port_data = port_ctrl) then Raise ValueError
  else match routing_table with
       | None => Raise AttributeError
       | Some rt => Ok (Make uid port_data port_ctrl rt [] (RoutingTable.coords rt))
       end.

(** The broker process: the broker object and the multipart messages
    sent on its ROUTER socket so far (oldest first). *)
Record proc : Type := Proc {
  self : t;
  sock_sent : list (list string)
}.

Definition on_self (f : t → t) (p : proc) : proc :=
  Proc (f (self p)) (sock_sent p).

(** [self.sock_data.send_multipart(parts)] *)
Definition send_multipart (parts : list string) : M proc unit :=
  modify (λ p, Proc (self p) (sock_sent p ++ [parts])).

Section Handler.

Variable packb : ID * payload → string.
Variable unpackb : string → option (ID * payload).

Definition unpack (b : string) : M proc (ID * payload) :=
  match unpackb b with
  | Some x => ret x
  | None => raise UnpackException
  end.

(** The multipart message that delivers one routed entry. *)
Definition routed (e : ID * ID * payload) : list string :=
  let '(in_id, out_id, data) := e in [out_id; packb (in_id, data)].

Definition _data_handler (msg : list string) : M proc unit :=
  match msg with
  | [in_id; body] =>
      x <- unpack body ;;
      let '(out_id, data) := x in
      rcl <- gets (λ p, recv_coords_list (self p)) ;;
      (if decide ((in_id, out_id) ∈ rcl) then
         modify (on_self (λ b, set_data_to_route
                                 (data_to_route b ++ [(in_id, out_id, data)]) b)) ;;
         rcl <- py_remove (in_id, out_id) rcl ;;
         modify (on_self (set_recv_coords_list rcl))
       else ret tt) ;;
      rcl <- gets (λ p, recv_coords_list (self p)) ;;
      if decide (rcl = []) then
        dtr <- gets (λ p, data_to_route (self p)) ;;
        for_each dtr (λ e, send_multipart (routed e)) ;;
        modify (on_self (set_data_to_route [])) ;;
        rt <- gets (λ p, routing_table (self p)) ;;
        modify (on_self (set_recv_coords_list (RoutingTable.coords rt)))
      else ret tt
  | _ => ret tt
  end.

(** The body of the process: [run] installs the list of awaited
    coordinates, then the event loop calls the data handler on the
    messages of the ROUTER socket, in arrival order. *)
Definition run (msgs : list (list string)) : M proc unit :=
  rt <- gets (λ p, routing_table (self p)) ;;
  modify (on_self (set_recv_coords_list (RoutingTable.coords rt))) ;;
  for_each msgs _data_handler.

End Handler.

End Broker.

(** ** BaseManager *)
Module BaseManager.

(** The manager object: the dictionaries of modules (ID to module
    object) and of connectivity objects, and the routing table. *)
Record t : Type := Make {
  id : ID;
  port_data : Z;
  port_ctrl : Z;
  mod_dict : gmap ID positive;
  conn_dict : gmap ID BaseConnectivity.t;
  routing_table : RoutingTable.t
}.

(** The driver process: the store of module objects (a module argument
    is a reference into it, so two arguments may be the same object),
    the manager, and the count of identifiers handed out. *)
Record world : Type := World {
  heap : gmap positive BaseModule.t;
  man : t;
  uid_count : nat
}.

Definition on_heap (f : gmap positive BaseModule.t → gmap positive BaseModule.t)
    (w : world) : world :=
  World (f (heap w)) (man w) (uid_count w).

Definition on_man (f : t → t) (w : world) : world :=
  World (heap w) (f (man w)) (uid_count w).

Definition set_mod_dict (v : gmap ID positive) (self : t) : t :=
  Make (id self) (port_data self) (port_ctrl self) v (conn_dict self)
       (routing_table self).

Definition set_conn_dict (v : gmap ID BaseConnectivity.t) (self : t) : t :=
  Make (id self) (port_data self) (port_ctrl self) (mod_dict self) v
       (routing_table self).

Definition set_routing_table (v : RoutingTable.t) (self : t) : t :=
  Make (id self) (port_data self) (port_ctrl self) (mod_dict self)
       (conn_dict self) v.

(** Modelled from the spec: [uid.py] is not among the sources.  The spec
    gives [uid()] as a generator of process-unique identifiers; here the
    n-th call returns the decimal numeral of n. *)
Definition uid : M world ID :=
  λ w, (Ok (pretty (uid_count w)), World (heap w) (man w) (S (uid_count w))).

(** [isinstance(o, BaseModule)] *)
Definition is_module (o : pyobj) (w : world) : bool :=
  match o with
  | ObjModule a => bool_decide (is_Some (heap w !! a))
  | _ => false
  end.

(** A method call [m.f(...)] on the module object at [a]. *)
Definition call_mod {A} (a : positive) (f : M BaseModule.t A) : M world A :=
  λ w, match heap w !! a with
       | Some obj => let '(r, obj') := f obj in (r, on_heap <[a := obj']> w)
       | None => (Raise AttributeError, w)
       end.

(** [BaseModule(net, port_data, port_ctrl)] *)
Definition new_module (net : net_mode) (port_data port_ctrl : Z) : M world positive :=
  i <- uid ;;
  if decide (port_data = port_ctrl) then raise ValueError
  else
    h <- gets heap ;;
    let a := fresh (dom h) in
    let obj := BaseModule.Make i net port_data port_ctrl [] []
                 (BaseModule.ConnDict ∅ ∅) in
    modify (on_heap <[a := obj]>) ;;
    ret a.

Definition add_mod (m : pyobj) : M world pyobj :=
  ism <- gets (is_module m) ;;
  m <- (if negb ism then
          pd <- gets (λ w, port_data (man w)) ;;
          pc <- gets (λ w, port_ctrl (man w)) ;;
          a <- new_module net_none pd pc ;;
          ret (ObjModule a)
        else ret m) ;;
  match m with
  | ObjModule a =>
      i <- call_mod a (gets BaseModule.id) ;;
      modify (on_man (λ s, set_mod_dict (<[i := a]> (mod_dict s)) s)) ;;
      ret m
  | _ => raise AttributeError
  end.

Definition add_conn (c : pyobj) : M world pyobj :=
  match c with
  | ObjConn c' =>
      modify (on_man (λ s, set_conn_dict (<[BaseConnectivity.id c' := c']> (conn_dict s)) s)) ;;
      ret c
  | _ => raise ValueError
  end.

(** [conn.T]: the transposed object is a new connectivity object, with
    an identifier of its own. *)
Definition conn_T (c : BaseConnectivity.t) : M world pyobj :=
  i <- uid ;;
  c' <- lift (BaseConnectivity.transpose i c) ;;
  ret (ObjConn c').

(** [self.routing_table[src, dst] = 1] *)
Definition route (src dst : ID) : M world unit :=
  modify (on_man (λ s, set_routing_table
                         (RoutingTable.__setitem__ (src, dst) 1 (routing_table s)) s)).

(** [if m.net == a: m.net = a' elif m.net == b: m.net = b'] *)
Definition promote (m : positive) (a a' b b' : net_mode) : M world unit :=
  n <- call_mod m (gets BaseModule.net) ;;
  if decide (n = a) then call_mod m (modify (BaseModule.set_net a'))
  else if decide (n = b) then call_mod m (modify (BaseModule.set_net b'))
  else ret tt.

(** The block of [connect] under [# Add the module and connection
    instances to the internal dictionaries ...]. *)
Definition connect_register (m_src m_dest conn : pyobj)
    (src_id dest_id conn_id : ID) : M world unit :=
  md <- gets (λ w, mod_dict (man w)) ;;
  (if decide (md !! src_id = None) then add_mod m_src ;; ret tt else ret tt) ;;
  md <- gets (λ w, mod_dict (man w)) ;;
  (if decide (md !! dest_id = None) then add_mod m_dest ;; ret tt else ret tt) ;;
  cd <- gets (λ w, conn_dict (man w)) ;;
  (if decide (cd !! conn_id = None) then add_conn conn ;; ret tt else ret tt).

(** The block of [connect] under [# Update the routing table and the
    network connectivity ...]; [src] and [dest] are the module objects
    [m_src] and [m_dest], [c] is the connectivity object [conn]. *)
Definition connect_update (src dest : positive) (conn : pyobj)
    (c : BaseConnectivity.t) (src_id dest_id : ID) (dir : string) : M world unit :=
  if decide (dir = "+") then
    route src_id dest_id ;;
    promote src net_none net_out net_in net_full ;;
    promote dest net_none net_in net_out net_full ;;
    call_mod src (BaseModule.add_conn conn "out" dest_id) ;;
    cT <- conn_T c ;;
    call_mod dest (BaseModule.add_conn cT "in" src_id)
  else if decide (dir = "-") then
    route dest_id src_id ;;
    promote src net_none net_in net_out net_full ;;
    promote dest net_none net_out net_in net_full ;;
    call_mod src (BaseModule.add_conn conn "in" dest_id) ;;
    cT <- conn_T c ;;
    call_mod dest (BaseModule.add_conn cT "out" src_id)
  else if decide (dir = "=") then
    route src_id dest_id ;;
    route dest_id src_id ;;
    call_mod src (modify (BaseModule.set_net net_full)) ;;
    call_mod dest (modify (BaseModule.set_net net_full)) ;;
    call_mod src (BaseModule.add_conn conn "out" dest_id) ;;
    cT <- conn_T c ;;
    call_mod dest (BaseModule.add_conn cT "in" src_id) ;;
    call_mod src (BaseModule.add_conn conn "in" dest_id) ;;
    cT <- conn_T c ;;
    call_mod dest (BaseModule.add_conn cT "out" src_id)
  else raise ValueError.

Definition connect (m_src m_dest conn : pyobj) (dir : string) : M world unit :=
  ok_src <- gets (is_module m_src) ;;
  ok_dest <- gets (is_module m_dest) ;;
  match m_src, m_dest, conn with
  | ObjModule src, ObjModule dest, ObjConn c =>
      if negb ok_src || negb ok_dest then raise ValueError
      else
        src_id <- call_mod src (gets BaseModule.id) ;;
        dest_id <- call_mod dest (gets BaseModule.id) ;;
        connect_register m_src m_dest conn src_id dest_id (BaseConnectivity.id c) ;;
        connect_update src dest conn c src_id dest_id dir
  | _, _, _ => raise ValueError
  end.

(** A call of [connect], and a sequence of calls made one after another
    by a driver that goes on after a failed call. *)
Record call : Type := Call {
  call_src : pyobj; call_dest : pyobj; call_conn : pyobj; call_dir : string
}.

Definition connects (cs : list call) (w : world) : world :=
  foldl (λ w c, (connect (call_src c) (call_dest c) (call_conn c) (call_dir c) w).2) w cs.

End BaseManager.

(** ** Notions used to state the properties *)

(** *** Module synchronisation *)

(** A frame that carries data, not the [None] token. *)
Definition non_none (fr : ID * payload) : Prop := fr.2 ≠ None.

(** The token frames [_sync] sends: one for each of [ids] that is not
    among the destinations [dsts] of the outbound buffer. *)
Definition none_frames (packb : ID * payload → string) (dsts ids : list ID)
    : list string :=
  (λ d, packb (d, None)) <$> filter (λ d, d ∉ dsts) ids.

(** The outbound buffer names every destination at most once, and only
    destinations the module is connected to. *)
Definition out_buffer_ok (m : BaseModule.t) : Prop :=
  NoDup (BaseModule._out_data m).*1 ∧
  (BaseModule._out_data m).*1 ⊆ BaseModule.out_ids m.

(** Running [m] relates the state before to the state after, however the
    call ends (return, exception, or a blocked [recv]). *)
Definition keeps {S A} (R : relation S) (m : M S A) : Prop := ∀ s, R s (m s).2.

(** What [_sync] leaves alone in the module object. *)
Definition same_module (p p' : BaseModule.proc) : Prop :=
  let m := BaseModule.self p in
  let m' := BaseModule.self p' in
  BaseModule.id m' = BaseModule.id m ∧
  BaseModule.net m' = BaseModule.net m ∧
  BaseModule.port_data m' = BaseModule.port_data m ∧
  BaseModule.port_ctrl m' = BaseModule.port_ctrl m ∧
  BaseModule._out_data m' = BaseModule._out_data m ∧
  BaseModule.conn_dict m' = BaseModule.conn_dict m.

Definition same_sent (p p' : BaseModule.proc) : Prop :=
  BaseModule.sock_sent p' = BaseModule.sock_sent p.

(** *** Connectivity *)

(** The characters of [s] are all different from [sep]. *)
Fixpoint sep_free (sep : ascii) (s : string) : Prop :=
  match s with
  | EmptyString => True
  | String c s' => c ≠ sep ∧ sep_free sep s'
  end.

(** The key with the direction flipped, any other string unchanged. *)
Definition flip_key (k : string) : string :=
  let ks := split "/" k in
  match ks !! 1 with
  | Some d => if decide (d = "+") then join "/" (<[1 := "-"]> ks)
              else if decide (d = "-") then join "/" (<[1 := "+"]> ks)
              else k
  | None => k
  end.

(** The key has a direction, ['+'] or ['-']. *)
Definition key_ok (k : string) : Prop :=
  split "/" k !! 1 = Some "+" ∨ split "/" k !! 1 = Some "-".

(** The invariant of connectivity objects that [transpose] relies on: a
    destination count that is not zero, keys with a direction, and the two
    ['conn'] matrices of the constructor. *)
Definition conn_ok (c : BaseConnectivity.t) : Prop :=
  BaseConnectivity.N_dest c ≠ 0 ∧
  map_Forall (λ k _, key_ok k) (BaseConnectivity._data c) ∧
  is_Some (BaseConnectivity._data c !! "0/+/conn") ∧
  is_Some (BaseConnectivity._data c !! "0/-/conn").

(** The dimensions and the synapse count are the same. *)
Definition same_dims (c c' : BaseConnectivity.t) : Prop :=
  BaseConnectivity.N_src c' = BaseConnectivity.N_src c ∧
  BaseConnectivity.N_dest c' = BaseConnectivity.N_dest c ∧
  BaseConnectivity.N_mult c' = BaseConnectivity.N_mult c.

(** *** Broker rounds *)

(** The broker object as a completed round leaves it. *)
Definition round_reset (b : Broker.t) : Broker.t :=
  Broker.set_recv_coords_list (RoutingTable.coords (Broker.routing_table b))
    (Broker.set_data_to_route [] b).

(** Between two handler calls: the broker waits for some coordinate, or
    (the table has no edge) nothing is pending and nothing is awaited. *)
Definition between_rounds (rt : RoutingTable.t) (p : Broker.proc) : Prop :=
  Broker.routing_table (Broker.self p) = rt ∧
  (Broker.recv_coords_list (Broker.self p) ≠ [] ∨
   (Broker.data_to_route (Broker.self p) = [] ∧
    Broker.recv_coords_list (Broker.self p) = RoutingTable.coords rt)).

(** *** Net modes *)

(** The promotions the spec lists. *)
Inductive promotion : net_mode → net_mode → Prop :=
| promotion_none_in : promotion net_none net_in
| promotion_none_out : promotion net_none net_out
| promotion_none_ctrl : promotion net_none net_ctrl
| promotion_in_full : promotion net_in net_full
| promotion_out_full : promotion net_out net_full.

(** The order the listed promotions generate (their reflexive and
    transitive closure, see [lattice_le_rtc]): ['ctrl'] is below nothing
    but itself. *)
Definition lattice_le (a b : net_mode) : bool :=
  match a, b with
  | net_none, _ => true
  | net_in, net_full | net_out, net_full => true
  | _, _ => bool_decide (a = b)
  end.

(** The order [connect] respects: ['none'] at the bottom, ['full'] at the
    top, also above ['ctrl']. *)
Definition net_le (a b : net_mode) : bool :=
  match a, b with
  | net_none, _ => true
  | _, net_full => true
  | _, _ => bool_decide (a = b)
  end.

(** The promotions the ['+'] and ['-'] branches of [connect] make. *)
Inductive connect_step : net_mode → net_mode → Prop :=
| step_none_in : connect_step net_none net_in
| step_none_out : connect_step net_none net_out
| step_in_full : connect_step net_in net_full
| step_out_full : connect_step net_out net_full.

(** The call names the module object at [a] as source or destination. *)
Definition names (k : BaseManager.call) (a : positive) : Prop :=
  BaseManager.call_src k = ObjModule a ∨ BaseManager.call_dest k = ObjModule a.

(** What one call with direction [dir] may do to the net mode of a
    module: nothing; or, when the call names the module, a path of
    promotions, or ['full'] when the direction is ['=']. *)
Definition call_moves (named : Prop) (dir : string) (n n' : net_mode) : Prop :=
  n' = n ∨ (named ∧ (rtc connect_step n n' ∨ (dir = "=" ∧ n' = net_full))).

(** No module object of [w] is lost in [w'], and the net mode of the
    object at [a] has moved as [P a] allows. *)
Definition net_moves (P : positive → relation net_mode)
    (w w' : BaseManager.world) : Prop :=
  ∀ a m, BaseManager.heap w !! a = Some m →
         ∃ m', BaseManager.heap w' !! a = Some m' ∧
               P a (BaseModule.net m) (BaseModule.net m').


(** *** The effects of [connect] on the objects *)

(** [add_conn] with a connectivity object, as a function on the module. *)
Definition wired (c : BaseConnectivity.t) (conn_type : string) (i : ID)
    (m : BaseModule.t) : BaseModule.t :=
  (BaseModule.add_conn (ObjConn c) conn_type i m).2.

(** The two-armed net test of [connect], as a function on the module. *)
Definition promoted (a a' b b' : net_mode) (m : BaseModule.t) : BaseModule.t :=
  if decide (BaseModule.net m = a) then BaseModule.set_net a' m
  else if decide (BaseModule.net m = b) then BaseModule.set_net b' m
  else m.

(** The manager after the registration block of [connect]. *)
Definition registered (src dest : positive) (c : BaseConnectivity.t)
    (src_id dest_id : ID) (s : BaseManager.t) : BaseManager.t :=
  let md := BaseManager.mod_dict s in
  let md := if decide (md !! src_id = None) then <[src_id := src]> md else md in
  let md := if decide (md !! dest_id = None) then <[dest_id := dest]> md else md in
  let cd := BaseManager.conn_dict s in
  let cd := if decide (cd !! BaseConnectivity.id c = None)
            then <[BaseConnectivity.id c := c]> cd else cd in
  BaseManager.Make (BaseManager.id s) (BaseManager.port_data s)
    (BaseManager.port_ctrl s) md cd (BaseManager.routing_table s).

Definition routed_edge (e : ID * ID) (s : BaseManager.t) : BaseManager.t :=
  BaseManager.set_routing_table
    (RoutingTable.__setitem__ e 1 (BaseManager.routing_table s)) s.

(** The store of modules after the first steps of each direction, up to
    the first transposition. *)
Definition heap_plus_1 (src dest : positive) (c : BaseConnectivity.t)
    (dest_id : ID) (h : gmap positive BaseModule.t) :=
  alter (wired c "out" dest_id) src
    (alter (promoted net_none net_in net_out net_full) dest
       (alter (promoted net_none net_out net_in net_full) src h)).

Definition heap_minus_1 (src dest : positive) (c : BaseConnectivity.t)
    (dest_id : ID) (h : gmap positive BaseModule.t) :=
  alter (wired c "in" dest_id) src
    (alter (promoted net_none net_out net_in net_full) dest
       (alter (promoted net_none net_in net_out net_full) src h)).

Definition heap_both_1 (src dest : positive) (c : BaseConnectivity.t)
    (dest_id : ID) (h : gmap positive BaseModule.t) :=
  alter (wired c "out" dest_id) src
    (alter (BaseModule.set_net net_full) dest
       (alter (BaseModule.set_net net_full) src h)).


Definition heap_both (src dest : positive) (c cT cT' : BaseConnectivity.t)
    (sid did : ID) (h : gmap positive BaseModule.t) :=
  alter (wired cT' "out" sid) dest
    (alter (wired c "in" did) src
       (alter (wired cT "in" sid) dest (heap_both_1 src dest c did h))).

(** ** Concrete objects for the examples *)

(** [BaseConnectivity(2, 3)] after [c[1, 2, 0, '+'] = 1]. *)
Definition example_conn : BaseConnectivity.t :=
  BaseConnectivity.Make "c" 2 3 1
    (<["0/-/conn" := Matrix (2, 3) ∅]>
       (<["0/+/conn" := Matrix (2, 3) {[ (1, 2) := 1%Z ]}]> ∅))
    (BaseConnectivity.KeysByDir ["0/+/conn"] ["0/-/conn"]).

(** [c.transpose().transpose()], the two new objects taking the
    identifiers [u1] and [u2]. *)
Definition transpose_twice (u1 u2 : ID) (c : BaseConnectivity.t)
    : outcome BaseConnectivity.t :=
  match BaseConnectivity.transpose u1 c with
  | Ok c1 => BaseConnectivity.transpose u2 c1
  | Raise e => Raise e
  | Blocks => Blocks
  end.

(** A module with the given outbound buffer, connected to the peers
    [ins] and [outs]. *)
Definition example_module (i : ID) (n : net_mode) (out_data : list (ID * payload))
    (ins outs : list ID) : BaseModule.t :=
  BaseModule.Make i n 5000 5001 [] out_data
    (BaseModule.ConnDict (list_to_map ((λ j, (j, example_conn)) <$> ins))
                         (list_to_map ((λ j, (j, example_conn)) <$> outs))).

(** A serialisation of the frames of the examples. *)
Definition example_packb (x : ID * payload) : string :=
  x.1 +:+ ":" +:+ default "~" x.2.

Definition example_unpackb (b : string) : option (ID * payload) :=
  if decide (b = "m1:a") then Some ("m1", Some "a")
  else if decide (b = "m3:~") then Some ("m3", None)
  else if decide (b = "m2:x") then Some ("m2", Some "x")
  else None.

(** A manager with two unconnected modules, at addresses 1 and 2. *)
Definition example_world (n1 n2 : net_mode) : BaseManager.world :=
  BaseManager.World
    (<[2%positive := example_module "m2" n2 [] [] []]>
       (<[1%positive := example_module "m1" n1 [] [] []]> ∅))
    (BaseManager.Make "man" 5000 5001 ∅ ∅ RoutingTable.empty) 0.

Definition net_at (a : positive) (w : BaseManager.world) : option net_mode :=
  BaseModule.net <$> BaseManager.heap w !! a.

(** A routing table with the edges m1 to m2 and m2 to m1, a decoder for
    the bodies of the frames of the broker example, and a broker as its
    constructor leaves it. *)
Definition example_table : RoutingTable.t := [("m1", "m2"); ("m2", "m1")].

Definition example_frames (b : string) : option (ID * payload) :=
  if decide (b = "to m2") then Some ("m2", Some "a")
  else if decide (b = "to m1") then Some ("m1", None)
  else if decide (b = "to m3") then Some ("m3", Some "z")
  else None.

Definition example_broker : Broker.t :=
  Broker.Make "b" 5000 5001 example_table [] (RoutingTable.coords example_table).

(** ** More of BaseConnectivity: reading cells *)

(** [m[i, j]] for integer indices: the stored value, 0 for a cell that
    holds none; an index outside the shape raises [IndexError]. *)
Definition matrix_get (i j : nat) (m : matrix) : outcome Z :=
  if decide (i < (mat_shape m).1 ∧ j < (mat_shape m).2) then
    Ok (default 0%Z (mat_cells m !! (i, j)))
  else Raise IndexError.

Module BaseConnectivityGet.

(** [get(self, source, dest, syn, dir, param)] with integer indices (the
  result is then a scalar). *)
Definition get (source dest syn : nat) (dir param : string)
  (self : BaseConnectivity.t) : outcome Z :=
if decide (dir = "-" ∨ dir = "+") then
  match BaseConnectivity._data self !! BaseConnectivity._make_key syn dir param with
  | Some m => matrix_get source dest m
  | None => Raise KeyError
  end
else Raise AssertionError.

End BaseConnectivityGet.

(** The other direction. *)
Definition flip_dir (dir : string) : string :=
  if decide (dir = "+") then "-" else if decide (dir = "-") then "+" else dir.

(** The object [set] writes the cell into: the object itself when it has
    the matrix of the key, and otherwise the object with a new matrix for
    the key, the key filed under its direction and, when [syn] is not
    below [N_mult], [N_mult] raised by one. *)
Definition with_matrix (syn : nat) (dir param : string)
    (c : BaseConnectivity.t) : BaseConnectivity.t :=
  let key := BaseConnectivity._make_key syn dir param in
  if decide (BaseConnectivity._data c !! key = None) then
    let c1 := BaseConnectivity.set_data key (_make_matrix (BaseConnectivity.shape c)) c in
    let c2 := BaseConnectivity.set_keys_by_dir
                (BaseConnectivity.keys_append dir key (BaseConnectivity._keys_by_dir c1)) c1 in
    if decide (BaseConnectivity.N_mult c2 < syn + 1)
    then BaseConnectivity.set_N_mult (BaseConnectivity.N_mult c2 + 1) c2 else c2
  else c.

(** A call of [set], and a sequence of calls made one after another by a
    caller that goes on after a failed call. *)
Record set_call : Type := SetCall {
  sc_source : nat; sc_dest : nat; sc_syn : nat;
  sc_dir : string; sc_param : string; sc_val : Z
}.

Definition sets (calls : list set_call) (c : BaseConnectivity.t) : BaseConnectivity.t :=
  foldl (λ c k, (BaseConnectivity.set (sc_source k) (sc_dest k) (sc_syn k)
                   (sc_dir k) (sc_param k) (sc_val k) c).2) c calls.

(** ** The example module class

    [MyModule], the derived class of the [__main__] block. *)
Module MyModule.

Definition set_out_data (v : list (ID * payload)) (self : BaseModule.t) : BaseModule.t :=
BaseModule.Make (BaseModule.id self) (BaseModule.net self) (BaseModule.port_data self)
  (BaseModule.port_ctrl self) (BaseModule._in_data self) v (BaseModule.conn_dict self).

(** The loop [for i in self.out_ids: self._out_data.append(...)];
  [draw k] is the string of the k-th [np.random.rand()] of the call. *)
Fixpoint put_loop (draw : nat → string) (k : nat) (ids : list ID) : M BaseModule.t unit :=
match ids with
| [] => ret tt
| i :: ids' =>
    modify (λ m, set_out_data (BaseModule._out_data m ++ [(i, Some (draw k))]) m) ;;
    put_loop draw (S k) ids'
end.

Definition _put_out_data (draw : nat → string) : M BaseModule.t unit :=
net <- gets BaseModule.net ;;
if decide (net ∈ [net_out; net_full]) then
  modify (set_out_data []) ;;
  ids <- gets BaseModule.out_ids ;;
  put_loop draw 0 ids
else ret tt.

(** A method call on the module object of the process. *)
Definition call_self {A} (f : M BaseModule.t A) : M BaseModule.proc A :=
λ p, let '(r, m) := f (BaseModule.self p) in
     (r, BaseModule.Proc m (BaseModule.sock_sent p) (BaseModule.sock_inbox p)).

(** One iteration of the loop of [run]: [_get_in_data] and [run_step]
  only write to the log. *)
Definition run_iteration (packb : ID * payload → string)
  (unpackb : string → option (ID * payload)) (draw : nat → string)
  : M BaseModule.proc unit :=
call_self (_put_out_data draw) ;;
BaseModule._sync packb unpackb.

End MyModule.

(** The outbound buffer [MyModule._put_out_data] builds. *)
Definition drawn (draw : nat → string) (ids : list ID) : list (ID * payload) :=
  imap (λ k i, (i, Some (draw k))) ids.

(** The module process when the receive phase has consumed the frames
    that decode to [decoded] and [rest] is left of the inbox. *)
Definition received (decoded : list (ID * payload)) (rest : list string)
    (p : BaseModule.proc) : BaseModule.proc :=
  BaseModule.Proc (BaseModule.set_in_data (filter non_none decoded) (BaseModule.self p))
    (BaseModule.sock_sent p) rest.

(** ** The wire between the modules and the broker *)

(** The coordinate of an entry of [data_to_route]. *)
Definition coord (e : ID * ID * payload) : ID * ID := (e.1.1, e.1.2).

(** The multipart message [_data_handler] is called on when the module
    [in_id] has sent [packb((out_id, data))]: the ROUTER socket puts the
    identity of the sending DEALER socket, which [_init_net] sets to the
    module ID, before the frame. *)
Definition wire (packb : ID * payload → string) (e : ID * ID * payload) : list string :=
  let '(in_id, out_id, data) := e in [in_id; packb (out_id, data)].

(** The body of the message of [e] decodes to what was encoded. *)
Definition decodes (packb : ID * payload → string)
    (unpackb : string → option (ID * payload)) (e : ID * ID * payload) : Prop :=
  unpackb (packb (e.1.2, e.2)) = Some (e.1.2, e.2).

(** The frames the module [i] finds on its socket when the broker has
    sent the messages [sent]: the ROUTER socket takes the first part of a
    message as the identity of the receiving socket and delivers the
    rest. *)
Definition delivered (i : ID) (sent : list (list string)) : list string :=
  omap (λ parts, match parts with
                 | [dst; body] => if decide (dst = i) then Some body else None
                 | _ => None
                 end) sent.

(** What a round brings to the module [i]: source and data of the
    entries addressed to it, in their order. *)
Definition inbound (i : ID) (r : list (ID * ID * payload)) : list (ID * payload) :=
  (λ e, (e.1.1, e.2)) <$> filter (λ e, e.1.2 = i) r.

(** The message [_data_handler] is called on when the module [i] has
    sent the frame [f]. *)
Definition from_module (i : ID) (f : string) : list string := [i; f].

(** The entries a module's send phase makes at the broker: one for each
    buffered pair, then one without data for each destination the buffer
    does not name. *)
Definition outbound (m : BaseModule.t) : list (ID * ID * payload) :=
  (λ x, (BaseModule.id m, x.1, x.2))
    <$> (BaseModule._out_data m
           ++ ((λ d, (d, None)) <$> filter (λ d, d ∉ (BaseModule._out_data m).*1)
                                      (BaseModule.out_ids m))).

(** ** The routing table and the wiring of the modules *)

(** The module objects have different identifiers. *)
Definition ids_distinct (w : BaseManager.world) : Prop :=
  ∀ a b ma mb, BaseManager.heap w !! a = Some ma → BaseManager.heap w !! b = Some mb →
               BaseModule.id ma = BaseModule.id mb → a = b.

(** The routing table has no edge twice, and the peers of every module
    are its neighbours in the table: the sources of the edges into it are
    its [in_ids], the destinations of the edges out of it its [out_ids]. *)
Definition table_wired (w : BaseManager.world) : Prop :=
  let rt := RoutingTable.coords (BaseManager.routing_table (BaseManager.man w)) in
  NoDup rt ∧
  ∀ a m, BaseManager.heap w !! a = Some m →
    (∀ s, s ∈ BaseModule.in_ids m ↔ (s, BaseModule.id m) ∈ rt) ∧
    (∀ d, d ∈ BaseModule.out_ids m ↔ (BaseModule.id m, d) ∈ rt).

(** Every module of [h] is in [h'], with its identifier, with the peers
    it had and with those [ins] and [outs] give for its address; [h'] has
    no other module. *)
Definition grown (ins outs : positive → list ID)
    (h h' : gmap positive BaseModule.t) : Prop :=
  ∀ x, match h !! x, h' !! x with
       | Some m, Some m' =>
           BaseModule.id m' = BaseModule.id m ∧
           (∀ s, s ∈ BaseModule.in_ids m' ↔ s ∈ BaseModule.in_ids m ∨ s ∈ ins x) ∧
           (∀ d, d ∈ BaseModule.out_ids m' ↔ d ∈ BaseModule.out_ids m ∨ d ∈ outs x)
       | None, None => True
       | _, _ => False
       end.

(** The peers one [add_conn] at address [a] adds. *)
Definition peer_at (a : positive) (i : ID) (f : positive → list ID) : positive → list ID :=
  λ x, if decide (x = a) then i :: f x else f x.

Definition no_peers : positive → list ID := λ _, [].

(** ** More concrete objects *)

(** [BaseConnectivity(2, 3)] as the constructor leaves it. *)
Definition example_fresh_conn : BaseConnectivity.t :=
  BaseConnectivity.Make "c" 2 3 1
    (<["0/-/conn" := Matrix (2, 3) ∅]> (<["0/+/conn" := Matrix (2, 3) ∅]> ∅))
    (BaseConnectivity.KeysByDir ["0/+/conn"] ["0/-/conn"]).

(** A round of the example table, and the same messages in the other
    order. *)
Definition example_round : list (ID * ID * payload) :=
  [("m2", "m1", Some "a"); ("m1", "m2", Some "x")].

Definition example_round' : list (ID * ID * payload) :=
  [("m1", "m2", Some "x"); ("m2", "m1", Some "a")].

(** * Properties *)

(** ** Sequencing *)

Lemma bind_ok {S A B} (m : M S A) (k : A → M S B) s a s' :
  m s = (Ok a, s') → bind m k s = k a s'.
Proof. intros H. unfold bind. by rewrite H. Qed.

Lemma bind_ext {S A B} (m : M S A) (k k' : A → M S B) s :
  (∀ a s', m s = (Ok a, s') → k a s' = k' a s') → bind m k s = bind m k' s.
Proof. intros H. unfold bind. destruct (m s) as [[a| |] s']; auto. Qed.

Lemma bind_gets {S A B} (f : S → A) (k : A → M S B) s :
  bind (gets f) k s = k (f s) s.
Proof. reflexivity. Qed.

Lemma bind_modify {S B} (f : S → S) (k : unit → M S B) s :
  bind (modify f) k s = k tt (f s).
Proof. reflexivity. Qed.

Section preserved.
Context {S : Type} (R : relation S) `{!Reflexive R, !Transitive R}.

Lemma keeps_ret {A} (a : A) : keeps R (ret a).
Proof. intros s. simpl. reflexivity. Qed.

Lemma keeps_raise {A} e : keeps R (raise (A := A) e).
Proof. intros s. simpl. reflexivity. Qed.

Lemma keeps_blocks {A} : keeps R (blocks (A := A)).
Proof. intros s. simpl. reflexivity. Qed.

Lemma keeps_gets {A} (f : S → A) : keeps R (gets f).
Proof. intros s. simpl. reflexivity. Qed.

Lemma keeps_lift {A} (o : outcome A) : keeps R (lift o).
Proof. intros s. simpl. reflexivity. Qed.

Lemma keeps_modify f : (∀ s, R s (f s)) → keeps R (modify f).
Proof. intros Hf s. apply Hf. Qed.

Lemma keeps_bind {A B} (m : M S A) (k : A → M S B) :
  keeps R m → (∀ a, keeps R (k a)) → keeps R (bind m k).
Proof.
  intros Hm Hk s. unfold bind. specialize (Hm s).
  destruct (m s) as [[a|e|] s']; simpl in *; [|done..].
  etransitivity; [done|]. apply Hk.
Qed.

Lemma keeps_py_remove {A} `{EqDecision A} (x : A) l : keeps R (py_remove x l).
Proof.
  unfold py_remove. destruct (list_remove x l); [apply keeps_ret|apply keeps_raise].
Qed.

Lemma keeps_for_each {A} (l : list A) body :
  (∀ x, keeps R (body x)) → keeps R (for_each l body).
Proof.
  intros Hb. induction l as [|x l IH]; simpl; [apply keeps_ret|].
  apply keeps_bind; [apply Hb | done].
Qed.
End preserved.

(** ** [list.remove] *)

Section list_remove.
Context {A : Type} `{EqDecision A}.
Implicit Types (x : A) (l : list A).

Lemma list_remove_None x l : list_remove x l = None ↔ x ∉ l.
Proof.
  induction l as [|y l IH]; simpl.
  - split; [intros _; apply not_elem_of_nil | done].
  - destruct (decide (x = y)) as [->|Hne].
    + split; [done | intros []; left].
    + rewrite fmap_None, IH, not_elem_of_cons. naive_solver.
Qed.

Lemma list_remove_Some_perm x l l' : list_remove x l = Some l' → l ≡ₚ x :: l'.
Proof.
  revert l'. induction l as [|y l IH]; simpl; intros l'; [done|].
  destruct (decide (x = y)) as [->|Hne].
  - by intros [= ->].
  - intros (l'' & Hl & ->)%fmap_Some. rewrite (IH _ Hl). apply Permutation_swap.
Qed.

Lemma filter_ne_id x l : x ∉ l → filter (λ y, y ≠ x) l = l.
Proof.
  induction l as [|y l IH]; [done|].
  intros [Hne Hx]%not_elem_of_cons.
  rewrite filter_cons_True by done. by rewrite IH.
Qed.

Lemma list_remove_filter x l l' :
  NoDup l → list_remove x l = Some l' → l' = filter (λ y, y ≠ x) l.
Proof.
  revert l'. induction l as [|y l IH]; simpl; intros l' Hnd; [done|].
  apply NoDup_cons in Hnd as [Hy Hnd].
  destruct (decide (x = y)) as [->|Hne].
  - intros [= ->]. rewrite filter_cons_False by naive_solver.
    by rewrite filter_ne_id.
  - intros (l'' & Hl & ->)%fmap_Some.
    rewrite filter_cons_True by done. f_equal. by apply IH.
Qed.

Lemma remove_all_Some xs l :
  NoDup l → NoDup xs → xs ⊆ l →
  remove_all xs l = Some (filter (λ y, y ∉ xs) l).
Proof.
  revert l. induction xs as [|x xs IH]; simpl; intros l Hl Hxs Hsub.
  - f_equal. symmetry. clear. induction l as [|y l IH]; [done|].
    rewrite filter_cons_True by apply not_elem_of_nil. by rewrite IH.
  - apply NoDup_cons in Hxs as [Hx Hxs].
    destruct (list_remove x l) as [l'|] eqn:E.
    + pose proof (list_remove_filter _ _ _ Hl E) as ->.
      rewrite IH.
      * f_equal. rewrite list_filter_filter. apply list_filter_iff.
        intros y. rewrite not_elem_of_cons. naive_solver.
      * by apply NoDup_filter.
      * done.
      * intros y Hy. apply list_elem_of_filter. split; [set_solver|].
        apply Hsub. by right.
    + apply list_remove_None in E. destruct E. apply Hsub. by left.
Qed.

Lemma remove_all_subseteq xs l r : remove_all xs l = Some r → xs ⊆ l.
Proof.
  revert l. induction xs as [|x xs IH]; intros l E y Hy;
    [by apply elem_of_nil in Hy|].
  simpl in E. destruct (list_remove x l) as [l'|] eqn:E'; [|done].
  apply list_remove_Some_perm in E'. rewrite E'.
  apply elem_of_cons in Hy as [->|Hy]; [by left|]. right. by eapply IH.
Qed.

Lemma remove_all_None xs l : ¬ NoDup xs → NoDup l → remove_all xs l = None.
Proof.
  revert l. induction xs as [|x xs IH]; simpl; intros l Hxs Hl.
  - destruct Hxs. constructor.
  - destruct (list_remove x l) as [l'|] eqn:E; [|done].
    pose proof (list_remove_filter _ _ _ Hl E) as ->.
    destruct (decide (x ∈ xs)) as [Hin|Hnin].
    + destruct (remove_all xs (filter (λ y, y ≠ x) l)) as [r|] eqn:E'; [|done].
      apply remove_all_subseteq in E'. apply E' in Hin.
      apply list_elem_of_filter in Hin as [Hne _]. done.
    + apply IH; [|by apply NoDup_filter].
      intros Hnd. apply Hxs. by constructor.
Qed.
End list_remove.

(** ** Module synchronisation *)

#[local] Instance same_module_refl : Reflexive same_module.
Proof. by intros p. Qed.

#[local] Instance same_module_trans : Transitive same_module.
Proof.
  intros p1 p2 p3 (?&?&?&?&?&?) (?&?&?&?&?&?).
  unfold same_module. split_and!; congruence.
Qed.

#[local] Instance same_sent_refl : Reflexive same_sent.
Proof. by intros p. Qed.

#[local] Instance same_sent_trans : Transitive same_sent.
Proof. unfold same_sent. intros p1 p2 p3 ??. congruence. Qed.

Section sync.
Import BaseModule.
Variable packb : ID * payload → string.
Variable unpackb : string → option (ID * payload).

Lemma out_ids_NoDup m : NoDup (out_ids m).
Proof. apply NoDup_fst_map_to_list. Qed.

Lemma in_ids_NoDup m : NoDup (in_ids m).
Proof. apply NoDup_fst_map_to_list. Qed.

(** *** The loops *)

Lemma send_loop_ok od ids rest p :
  remove_all od.*1 ids = Some rest →
  send_loop packb od ids p
  = (Ok rest, Proc (self p) (sock_sent p ++ (packb <$> od)) (sock_inbox p)).
Proof.
  revert ids p. induction od as [|[d x] od IH]; simpl; intros ids p Hr.
  - injection Hr as ->. rewrite app_nil_r. by destruct p.
  - unfold bind, send, modify, py_remove at 1.
    destruct (list_remove d ids) as [ids'|]; [|done]. simpl.
    rewrite (IH _ _ Hr). simpl. by rewrite <-app_assoc.
Qed.

Lemma send_loop_fail od ids p :
  remove_all od.*1 ids = None →
  ∃ sent, send_loop packb od ids p
          = (Raise ValueError, Proc (self p) sent (sock_inbox p)).
Proof.
  revert ids p. induction od as [|[d x] od IH]; simpl; intros ids p Hr; [done|].
  unfold bind, send, modify, py_remove at 1.
  destruct (list_remove d ids) as [ids'|]; simpl.
  - destruct (IH ids' (Proc (self p) (sock_sent p ++ [packb (d, x)]) (sock_inbox p)) Hr)
      as [sent ->]. eauto.
  - eauto.
Qed.

Lemma send_none_ok ids p :
  for_each ids (λ out_id, send (packb (out_id, None))) p
  = (Ok tt, Proc (self p)
              (sock_sent p ++ ((λ d, packb (d, None)) <$> ids)) (sock_inbox p)).
Proof.
  revert p. induction ids as [|d ids IH]; simpl; intros p.
  - rewrite app_nil_r. by destruct p.
  - unfold bind, send at 1, modify. rewrite IH. simpl. by rewrite <-app_assoc.
Qed.

Lemma recv_loop_ok n recv_ids frames decoded rest p :
  unpackb <$> frames = Some <$> decoded →
  decoded.*1 ≡ₚ recv_ids →
  length recv_ids ≤ n →
  sock_inbox p = frames ++ rest →
  recv_loop unpackb n recv_ids p
  = (Ok tt, Proc (set_in_data (_in_data (self p) ++ filter non_none decoded) (self p))
              (sock_sent p) rest).
Proof.
  revert n recv_ids frames rest p.
  induction decoded as [|[i x] decoded IH];
    intros n recv_ids frames rest p Hdec Hperm Hn Hin.
  - simpl in Hperm. apply Permutation_nil_l in Hperm as <-.
    destruct frames; [|done]. simpl in *. destruct n; unfold ret;
      rewrite filter_nil, app_nil_r; destruct p as [[] ??]; simpl in *; by subst.
  - destruct frames as [|b frames]; [done|]. simpl in Hdec.
    injection Hdec as Hb Hdec.
    destruct recv_ids as [|r recv_ids].
    { simpl in Hperm. by apply Permutation_nil_r in Hperm. }
    destruct n as [|n]; [simpl in Hn; lia|].
    assert (Hi : i ∈ r :: recv_ids) by (rewrite <-Hperm; left).
    destruct (list_remove i (r :: recv_ids)) as [ids'|] eqn:E;
      [|by apply list_remove_None in E].
    pose proof (list_remove_Some_perm _ _ _ E) as Hp.
    assert (Hperm' : decoded.*1 ≡ₚ ids').
    { apply (Permutation_cons_inv (a := i)). by rewrite <-Hp. }
    assert (Hlen : length ids' ≤ n).
    { apply Permutation_length in Hp. simpl in *. lia. }
    cbn [recv_loop]. unfold bind at 1, recv. rewrite Hin. cbn [app].
    unfold bind at 1, unpack. rewrite Hb. unfold ret at 1.
    unfold bind at 1, py_remove. rewrite E. unfold ret at 1.
    destruct x as [s|].
    + unfold bind at 1, modify.
      erewrite (IH n ids' frames rest); [|done|done|done|reflexivity].
      rewrite filter_cons_True by done. simpl. by rewrite <-app_assoc.
    + unfold bind at 1, ret at 1.
      erewrite (IH n ids' frames rest); [|done|done|done|reflexivity].
      rewrite filter_cons_False by (unfold non_none; naive_solver). done.
Qed.

(** *** The two phases *)

Lemma sync_send_ok p :
  NoDup (_out_data (self p)).*1 →
  (_out_data (self p)).*1 ⊆ out_ids (self p) →
  _sync_send packb p
  = (Ok tt, Proc (self p)
              (sock_sent p ++ (packb <$> _out_data (self p))
                 ++ none_frames packb (_out_data (self p)).*1 (out_ids (self p)))
              (sock_inbox p)).
Proof.
  intros Hnd Hsub. unfold _sync_send. rewrite !bind_gets. unfold bind.
  rewrite (send_loop_ok _ _ _ _ (remove_all_Some _ _ (out_ids_NoDup _) Hnd Hsub)).
  rewrite send_none_ok. simpl. by rewrite <-app_assoc.
Qed.

Lemma sync_send_fail p :
  ¬ out_buffer_ok (self p) →
  ∃ sent, _sync_send packb p
          = (Raise ValueError, Proc (self p) sent (sock_inbox p)).
Proof.
  intros Hbad. unfold _sync_send. rewrite !bind_gets. unfold bind.
  destruct (remove_all (_out_data (self p)).*1 (out_ids (self p))) as [r|] eqn:E.
  - destruct Hbad. split; [|by eapply remove_all_subseteq].
    destruct (decide (NoDup (_out_data (self p)).*1)) as [|Hnd]; [done|].
    by rewrite (remove_all_None _ _ Hnd (out_ids_NoDup _)) in E.
  - destruct (send_loop_fail _ _ p E) as [sent ->]. eauto.
Qed.

Lemma sync_recv_ok p frames rest decoded :
  sock_inbox p = frames ++ rest →
  unpackb <$> frames = Some <$> decoded →
  decoded.*1 ≡ₚ in_ids (self p) →
  _sync_recv unpackb p
  = (Ok tt, Proc (set_in_data (filter non_none decoded) (self p)) (sock_sent p) rest).
Proof.
  intros Hin Hdec Hperm. unfold _sync_recv. rewrite bind_gets, bind_modify.
  erewrite recv_loop_ok; [|done|done|done|done]. by destruct p as [[] ??].
Qed.

Lemma sync_unfold p :
  _sync packb unpackb p
  = match net (self p) with
    | net_none | net_ctrl => (Ok tt, p)
    | net_out => (_sync_send packb ;; ret tt) p
    | net_in => (ret tt ;; _sync_recv unpackb) p
    | net_full => (_sync_send packb ;; _sync_recv unpackb) p
    end.
Proof.
  unfold _sync. rewrite bind_gets.
  destruct (net (self p)); repeat case_decide; try done; set_solver.
Qed.

(** The bound of the receive loop is never what stops it. *)
Lemma recv_loop_enough n ids p :
  length ids ≤ n → recv_loop unpackb n ids p = recv_loop unpackb (length ids) ids p.
Proof.
  remember (length ids) as k eqn:Hk. revert n ids p Hk.
  induction k as [|k IH]; intros n ids p Hk Hn.
  - destruct ids; [by destruct n|done].
  - destruct ids as [|i ids]; [done|]. destruct n as [|n]; [lia|].
    cbn [recv_loop].
    apply bind_ext. intros b p1 _. apply bind_ext. intros [j x] p2 _.
    apply bind_ext. intros ids' p3 E. apply bind_ext. intros _ p4 _.
    unfold py_remove in E.
    destruct (list_remove j (i :: ids)) as [l|] eqn:E'; [|done].
    injection E as -> _.
    apply list_remove_Some_perm, Permutation_length in E'. simpl in E', Hk.
    by rewrite (IH n ids') by lia.
Qed.

(** *** What the loops leave alone *)

Section frame.
Context (R : relation proc) `{!Reflexive R, !Transitive R}.
Hypothesis R_send : ∀ p b, R p (Proc (self p) (sock_sent p ++ [b]) (sock_inbox p)).
Hypothesis R_recv :
  ∀ p b l, sock_inbox p = b :: l → R p (Proc (self p) (sock_sent p) l).
Hypothesis R_in_data : ∀ p v, R p (on_self (set_in_data v) p).

Lemma keeps_recv : keeps R recv.
Proof.
  intros p. unfold recv.
  destruct (sock_inbox p) eqn:E; simpl; [reflexivity|]. by eapply R_recv.
Qed.

Lemma keeps_unpack b : keeps R (unpack unpackb b).
Proof. unfold unpack. destruct (unpackb b); [apply keeps_ret|apply keeps_raise]; done. Qed.

Lemma keeps_recv_loop n ids : keeps R (recv_loop unpackb n ids).
Proof.
  revert ids. induction n as [|n IH]; intros [|i ids]; simpl;
    try apply keeps_ret; try apply keeps_blocks; try done.
  apply keeps_bind; [done|apply keeps_recv|]. intros b.
  apply keeps_bind; [done|apply keeps_unpack|]. intros [i' x].
  apply keeps_bind; [done|by apply keeps_py_remove|]. intros ids'.
  apply keeps_bind; [done| |by intros; apply IH].
  destruct x; [|by apply keeps_ret]. apply keeps_modify. intros p. apply R_in_data.
Qed.

Lemma keeps_sync_recv : keeps R (_sync_recv unpackb).
Proof.
  unfold _sync_recv.
  apply keeps_bind; [done|by apply keeps_gets|]. intros ids.
  apply keeps_bind; [done|by apply keeps_modify|]. intros _.
  apply keeps_recv_loop.
Qed.

Lemma keeps_send_loop od ids : keeps R (send_loop packb od ids).
Proof.
  revert ids. induction od as [|[d x] od IH]; intros ids; simpl;
    [by apply keeps_ret|].
  apply keeps_bind; [done|by apply keeps_modify|]. intros _.
  apply keeps_bind; [done|by apply keeps_py_remove|]. intros ids'. apply IH.
Qed.

Lemma keeps_sync_send : keeps R (_sync_send packb).
Proof.
  unfold _sync_send.
  apply keeps_bind; [done|by apply keeps_gets|]. intros ids.
  apply keeps_bind; [done|by apply keeps_gets|]. intros od.
  apply keeps_bind; [done|by apply keeps_send_loop|]. intros ids'.
  apply keeps_for_each; [done..|]. intros d. by apply keeps_modify.
Qed.

Lemma keeps_sync : keeps R (_sync packb unpackb).
Proof.
  unfold _sync.
  apply keeps_bind; [done|by apply keeps_gets|]. intros n.
  case_decide; [by apply keeps_ret|].
  apply keeps_bind; [done| |intros _].
  - case_decide; [by apply keeps_sync_send|by apply keeps_ret].
  - case_decide; [by apply keeps_sync_recv|by apply keeps_ret].
Qed.
End frame.

Lemma length_none_frames (dsts ids : list ID) :
  NoDup dsts → NoDup ids → dsts ⊆ ids →
  length dsts + length (none_frames packb dsts ids) = length ids.
Proof.
  intros Hd Hi Hsub. unfold none_frames. rewrite length_fmap.
  rewrite <-(Permutation_length (filter_app_complement (λ d, d ∈ dsts) ids)).
  rewrite length_app. f_equal. apply Permutation_length, NoDup_Permutation; [done| |].
  - by apply NoDup_filter.
  - intros d. rewrite list_elem_of_filter. split; [|tauto].
    intros ?. split; [done|]. by apply Hsub.
Qed.

Lemma filter_non_none_NoDup (decoded : list (ID * payload)) :
  NoDup decoded.*1 → NoDup (filter non_none decoded).*1.
Proof.
  induction decoded as [|[i x] l IH]; simpl; intros Hnd; [constructor|].
  apply NoDup_cons in Hnd as [Hi Hnd]. rewrite filter_cons.
  case_decide; [|by apply IH]. simpl. apply NoDup_cons. split; [|by apply IH].
  intros Hi'. apply Hi. apply list_elem_of_fmap in Hi' as ([i' x'] & -> & Hi').
  apply list_elem_of_filter in Hi' as [_ Hi']. apply list_elem_of_fmap. by exists (i', x').
Qed.

(** C1.  A module with net ['in'] or ['full'] whose inbox holds, first,
    one frame from each peer of [in_ids] (the frames decode to [decoded],
    whose sources are [in_ids] in some order): when [_sync] returns, the
    inbound buffer is exactly the frames that carry data, in arrival
    order, so it has no source twice, no source outside [in_ids] and no
    [None]; and the frames of the step are consumed.  [_sync] does return
    when the net is ['in'], or when the outbound buffer is in order. *)
Theorem sync_inbound p frames rest decoded :
  net (self p) = net_in ∨ net (self p) = net_full →
  sock_inbox p = frames ++ rest →
  unpackb <$> frames = Some <$> decoded →
  decoded.*1 ≡ₚ in_ids (self p) →
  (∀ p', _sync packb unpackb p = (Ok tt, p') →
     _in_data (self p') = filter non_none decoded ∧
     NoDup (_in_data (self p')).*1 ∧
     (∀ i x, (i, x) ∈ _in_data (self p') → i ∈ in_ids (self p') ∧ x ≠ None) ∧
     sock_inbox p' = rest) ∧
  (net (self p) = net_in ∨ out_buffer_ok (self p) →
     ∃ p', _sync packb unpackb p = (Ok tt, p')).
Proof.
  intros Hnet Hin Hdec Hperm.
  assert (Hpost : ∀ sent,
    let p' := Proc (set_in_data (filter non_none decoded) (self p)) sent rest in
    _in_data (self p') = filter non_none decoded ∧
    NoDup (_in_data (self p')).*1 ∧
    (∀ i x, (i, x) ∈ _in_data (self p') → i ∈ in_ids (self p') ∧ x ≠ None) ∧
    sock_inbox p' = rest).
  { intros sent. simpl. split_and!; [done| | |done].
    - apply filter_non_none_NoDup. rewrite Hperm. apply in_ids_NoDup.
    - intros i x [Hx Hix]%list_elem_of_filter. split; [|done].
      change (in_ids (set_in_data (filter non_none decoded) (self p)))
        with (in_ids (self p)).
      rewrite <-Hperm. apply list_elem_of_fmap. by exists (i, x). }
  rewrite sync_unfold. destruct Hnet as [Hnet|Hnet]; rewrite Hnet.
  - unfold bind at 1 2, ret at 1 2. rewrite (sync_recv_ok _ _ _ _ Hin Hdec Hperm).
    split; [|eauto]. intros p' [= <-]. apply Hpost.
  - destruct (decide (out_buffer_ok (self p))) as [[Hnd Hsub]|Hbad].
    + unfold bind. rewrite (sync_send_ok _ Hnd Hsub).
      erewrite sync_recv_ok; [|done..]. split; [|eauto].
      intros p' [= <-]. apply Hpost.
    + destruct (sync_send_fail p Hbad) as [sent Hs].
      unfold bind. rewrite Hs. split; [done|]. intros [|]; [congruence|done].
Qed.

(** C2.  A module with net ['out'] or ['full'] whose outbound buffer
    names no destination twice and only destinations of [out_ids]:
    [_sync] sends one frame per buffered entry, then one [None] frame for
    each destination of [out_ids] that the buffer does not name, which
    makes as many frames as [out_ids] has elements.  This holds however
    the receive phase that follows ends. *)
Theorem sync_outbound p :
  net (self p) = net_out ∨ net (self p) = net_full →
  NoDup (_out_data (self p)).*1 →
  (_out_data (self p)).*1 ⊆ out_ids (self p) →
  let frames := (packb <$> _out_data (self p))
                  ++ none_frames packb (_out_data (self p)).*1 (out_ids (self p)) in
  sock_sent (_sync packb unpackb p).2 = sock_sent p ++ frames ∧
  length frames = length (out_ids (self p)).
Proof.
  intros Hnet Hnd Hsub frames. split.
  - rewrite sync_unfold. destruct Hnet as [-> | ->]; unfold bind;
      rewrite (sync_send_ok _ Hnd Hsub); [done|].
    match goal with |- sock_sent (_sync_recv _ ?q).2 = _ =>
      by rewrite (keeps_sync_recv same_sent) with (s := q) end.
  - unfold frames. rewrite length_app, length_fmap.
    rewrite <-(length_fmap fst).
    apply length_none_frames; [done| apply out_ids_NoDup |done].
Qed.

(** C7.  A module with net ['out'] or ['full'] whose outbound buffer has
    two entries for one destination: [_sync] does not return, it raises
    the [ValueError] of the removal of an ID that is no longer in
    [send_ids]; the receive phase is not entered (the module object and
    the inbox are as before). *)
Theorem sync_duplicate_destination p i j d x y :
  net (self p) = net_out ∨ net (self p) = net_full →
  i ≠ j →
  _out_data (self p) !! i = Some (d, x) →
  _out_data (self p) !! j = Some (d, y) →
  ∃ p', _sync packb unpackb p = (Raise ValueError, p') ∧
        self p' = self p ∧ sock_inbox p' = sock_inbox p.
Proof.
  intros Hnet Hij Hi Hj.
  assert (Hbad : ¬ out_buffer_ok (self p)).
  { intros [Hnd _]. apply Hij. eapply NoDup_lookup; [done| |].
    - by rewrite list_lookup_fmap, Hi.
    - by rewrite list_lookup_fmap, Hj. }
  destruct (sync_send_fail p Hbad) as [sent Hs].
  rewrite sync_unfold. destruct Hnet as [-> | ->]; unfold bind; rewrite Hs; eauto.
Qed.

(** C9.  Whatever the module and however [_sync] ends, the connectivity
    maps (so [in_ids] and [out_ids]), the net mode, the ports, the
    outbound buffer and the ID are what they were: of the module object
    only the inbound buffer can change. *)
Theorem sync_frame p :
  let m := self p in
  let m' := self (_sync packb unpackb p).2 in
  conn_dict m' = conn_dict m ∧ in_ids m' = in_ids m ∧ out_ids m' = out_ids m ∧
  net m' = net m ∧ port_data m' = port_data m ∧ port_ctrl m' = port_ctrl m ∧
  _out_data m' = _out_data m ∧ id m' = id m.
Proof.
  destruct (keeps_sync same_module) with (s := p) as (?&?&?&?&?&Hcd); [done..|].
  simpl. unfold in_ids, out_ids. rewrite Hcd. done.
Qed.
End sync.

(** ** Broker *)

Section broker.
Import Broker.
Variable packb : ID * payload → string.
Variable unpackb : string → option (ID * payload).

Lemma send_routed l p :
  for_each l (λ e, send_multipart (routed packb e)) p
  = (Ok tt, Proc (self p) (sock_sent p ++ (routed packb <$> l))).
Proof.
  revert p. induction l as [|e l IH]; intros p; simpl.
  - rewrite app_nil_r. by destruct p.
  - unfold bind, send_multipart at 1, modify. rewrite IH. simpl. by rewrite <-app_assoc.
Qed.

(** The handler on a two-part message whose body decodes, by cases on
    the removal of the coordinate from the awaited list. *)
Lemma data_handler_eval p in_id body out_id data :
  unpackb body = Some (out_id, data) →
  _data_handler packb unpackb [in_id; body] p
  = let b := self p in
    let pending := data_to_route b ++ [(in_id, out_id, data)] in
    match list_remove (in_id, out_id) (recv_coords_list b) with
    | None =>
        if decide (recv_coords_list b = [])
        then (Ok tt, Proc (round_reset b)
                       (sock_sent p ++ (routed packb <$> data_to_route b)))
        else (Ok tt, p)
    | Some [] =>
        (Ok tt, Proc (round_reset (set_data_to_route pending b))
                  (sock_sent p ++ (routed packb <$> pending)))
    | Some rest =>
        (Ok tt, Proc (set_recv_coords_list rest (set_data_to_route pending b))
                  (sock_sent p))
    end.
Proof.
  intros Hb. unfold _data_handler, bind at 1, unpack. rewrite Hb. unfold ret at 1.
  rewrite bind_gets.
  destruct (list_remove (in_id, out_id) (recv_coords_list (self p))) as [rest|] eqn:E.
  - rewrite decide_True.
    2:{ destruct (decide ((in_id, out_id) ∈ recv_coords_list (self p))) as [|Hn]; [done|].
        apply list_remove_None in Hn. congruence. }
    unfold bind at 1 2, modify at 1. unfold bind at 1, py_remove. rewrite E.
    unfold ret at 1, modify at 1. rewrite bind_gets.
    cbn [self on_self recv_coords_list set_recv_coords_list].
    destruct rest as [|c rest].
    + rewrite decide_True by done. rewrite bind_gets. unfold bind.
      rewrite send_routed. done.
    + rewrite decide_False by done. done.
  - apply list_remove_None in E. rewrite decide_False by done.
    unfold bind at 1, ret at 1. rewrite bind_gets.
    case_decide; [|done]. rewrite bind_gets. unfold bind. rewrite send_routed. done.
Qed.

Lemma data_handler_between rt msg p p' :
  between_rounds rt p →
  _data_handler packb unpackb msg p = (Ok tt, p') →
  between_rounds rt p'.
Proof.
  intros [Hrt Hinv] Hh.
  destruct msg as [|in_id [|body [|]]]; try (injection Hh as <-; by split).
  destruct (unpackb body) as [[out_id data]|] eqn:Hb.
  2:{ unfold _data_handler, bind, unpack in Hh. by rewrite Hb in Hh. }
  rewrite (data_handler_eval _ _ _ _ _ Hb) in Hh. cbn zeta in Hh.
  destruct (list_remove _ _) as [[|c rest]|] eqn:E.
  - injection Hh as <-. split; [done|]. right. simpl. by rewrite Hrt.
  - injection Hh as <-. split; [done|]. by left.
  - case_decide; injection Hh as <-; [|by split].
    split; [done|]. right. simpl. by rewrite Hrt.
Qed.

Lemma run_between uid pd pc rt b0 msgs p :
  __init__ uid pd pc (Some rt) = Ok b0 →
  run packb unpackb msgs (Proc b0 []) = (Ok tt, p) →
  between_rounds rt p.
Proof.
  unfold __init__. case_decide; [done|]. intros [= <-].
  unfold run. rewrite bind_gets, bind_modify.
  cbn [self on_self routing_table].
  match goal with |- for_each _ _ ?q = _ → _ =>
    assert (Hq : between_rounds rt q) by (split; [done|by right]); revert Hq;
    generalize q end.
  induction msgs as [|msg msgs IH]; intros q Hq; simpl.
  - by intros [= <-].
  - unfold bind.
    destruct (_data_handler packb unpackb msg q) as [[[]|e|] q'] eqn:Hh; [|done..].
    intros Hrun. eapply IH; [|done]. by eapply data_handler_between.
Qed.

(** C3.  A broker built on the routing table [rt] has handled the
    messages [msgs]; the next message is a well-formed frame from
    [in_id] for [out_id].  If the pair is not awaited, the frame is
    ignored: nothing is sent and the broker is unchanged.  If it is
    awaited and other pairs remain, the entry is added to the pending
    list, the pair leaves the awaited list, and nothing is sent.  If it
    was the last awaited pair, the pending entries are sent in insertion
    order, and then the pending list is empty and the awaited list is
    [coords] of the routing table again. *)
Theorem broker_round uid pd pc rt b0 msgs p in_id body out_id data :
  __init__ uid pd pc (Some rt) = Ok b0 →
  run packb unpackb msgs (Proc b0 []) = (Ok tt, p) →
  unpackb body = Some (out_id, data) →
  let b := self p in
  let pending := data_to_route b ++ [(in_id, out_id, data)] in
  let r := _data_handler packb unpackb [in_id; body] p in
  ((in_id, out_id) ∉ recv_coords_list b → r = (Ok tt, p)) ∧
  (∀ rest, list_remove (in_id, out_id) (recv_coords_list b) = Some rest →
     rest ≠ [] →
     r = (Ok tt, Proc (set_recv_coords_list rest (set_data_to_route pending b))
                   (sock_sent p))) ∧
  (list_remove (in_id, out_id) (recv_coords_list b) = Some [] →
     ∃ b', r = (Ok tt, Proc b' (sock_sent p ++ (routed packb <$> pending))) ∧
           data_to_route b' = [] ∧
           recv_coords_list b' = RoutingTable.coords rt ∧
           routing_table b' = rt).
Proof.
  intros Hinit Hrun Hb b pending r.
  destruct (run_between _ _ _ _ _ _ _ Hinit Hrun) as [Hrt Hinv].
  unfold r. rewrite (data_handler_eval _ _ _ _ _ Hb). cbn zeta. fold b. split_and!.
  - intros Hn. apply list_remove_None in Hn. rewrite Hn.
    case_decide as Hnil; [|done]. destruct Hinv as [|[Hd Hc]]; [done|].
    subst b. destruct p as [[] ?]. simpl in *. subst. by rewrite app_nil_r.
  - intros rest -> Hrest. by destruct rest.
  - intros ->. eexists. split; [done|]. simpl. by rewrite <-Hrt.
Qed.

(** C10.  With [routing_table=None] the constructor never returns a
    broker: it raises [ValueError] when the two ports are equal and
    otherwise [AttributeError], at the read of [routing_table.coords].
    A broker that was constructed holds the routing table it was given
    and awaits its coordinates. *)
Theorem broker_needs_routing_table uid pd pc :
  (∃ e, __init__ uid pd pc None = Raise e) ∧
  (pd ≠ pc → __init__ uid pd pc None = Raise AttributeError) ∧
  (∀ o b, __init__ uid pd pc o = Ok b →
     ∃ rt, o = Some rt ∧ routing_table b = rt ∧
           recv_coords_list b = RoutingTable.coords rt ∧ data_to_route b = []).
Proof.
  unfold __init__. split_and!.
  - case_decide; eauto.
  - intros Hne. by rewrite decide_False.
  - intros [rt|] b; case_decide; try done. intros [= <-]. by exists rt.
Qed.
End broker.

(** ** BaseConnectivity *)

(** *** Keys *)

Section strings.
Variable sep : ascii.

Lemma split_nonempty s : split sep s ≠ [].
Proof. destruct s as [|c s]; simpl; [done|]. case_decide; [done|]. by destruct (split sep s). Qed.

Lemma join_String c h t : join sep (String c h :: t) = String c (join sep (h :: t)).
Proof. by destruct t. Qed.

Lemma join_split s : join sep (split sep s) = s.
Proof.
  induction s as [|c s IH]; simpl; [done|].
  pose proof (split_nonempty s) as Hne.
  destruct (split sep s) as [|h t] eqn:E; [done|].
  case_decide as Hc.
  - subst c. change (join sep ("" :: h :: t)) with (String sep (join sep (h :: t))).
    by rewrite IH.
  - rewrite join_String. by rewrite IH.
Qed.

Lemma split_sep_free s : Forall (sep_free sep) (split sep s).
Proof.
  induction s as [|c s IH]; simpl.
  - by repeat constructor.
  - case_decide; [by constructor|].
    destruct (split sep s) as [|h t]; [by repeat constructor|].
    apply Forall_cons in IH as [Hh Ht]. by repeat constructor.
Qed.

Lemma split_sep_free_id s : sep_free sep s → split sep s = [s].
Proof.
  induction s as [|c s IH]; simpl; [done|]. intros [Hc Hs].
  rewrite decide_False by done. by rewrite IH.
Qed.

Lemma split_app_sep s s' :
  sep_free sep s → split sep (s +:+ String sep s') = s :: split sep s'.
Proof.
  induction s as [|c s IH]; simpl.
  - intros _. by rewrite decide_True.
  - intros [Hc Hs]. rewrite decide_False by done. by rewrite IH.
Qed.

Lemma split_join l :
  l ≠ [] → Forall (sep_free sep) l → split sep (join sep l) = l.
Proof.
  induction l as [|s l IH]; [done|]. intros _ [Hs Hl]%Forall_cons.
  destruct l as [|s' l].
  - simpl. by apply split_sep_free_id.
  - change (join sep (s :: s' :: l)) with (s +:+ String sep (join sep (s' :: l))).
    rewrite split_app_sep by done. by rewrite IH.
Qed.
End strings.

Lemma flip_key_ok k : key_ok k → key_ok (flip_key k).
Proof.
  unfold key_ok, flip_key. intros Hk.
  pose proof (split_sep_free "/" k) as Hf.
  assert (Hlen : 1 < length (split "/" k)).
  { destruct Hk as [Hk|Hk]; by apply lookup_lt_Some in Hk. }
  destruct Hk as [Hk|Hk]; rewrite Hk; simpl.
  - right. rewrite split_join.
    + by apply list_lookup_insert_eq.
    + intros E. apply (f_equal length) in E. rewrite length_insert in E. simpl in E. lia.
    + apply Forall_insert; [done|]. by repeat split.
  - left. rewrite split_join.
    + by apply list_lookup_insert_eq.
    + intros E. apply (f_equal length) in E. rewrite length_insert in E. simpl in E. lia.
    + apply Forall_insert; [done|]. by repeat split.
Qed.

Lemma flip_key_involutive k : flip_key (flip_key k) = k.
Proof.
  unfold flip_key at 2.
  pose proof (split_sep_free "/" k) as Hf.
  destruct (split "/" k !! 1) as [d|] eqn:Hd.
  2:{ unfold flip_key. by rewrite Hd. }
  assert (Hlen : 1 < length (split "/" k)) by (by apply lookup_lt_Some in Hd).
  assert (Hs : ∀ d', sep_free "/" d' →
            split "/" (join "/" (<[1:=d']> (split "/" k))) = <[1:=d']> (split "/" k)).
  { intros d' Hd'. apply split_join; [|by apply Forall_insert].
    intros E. apply (f_equal length) in E. rewrite length_insert in E. simpl in E. lia. }
  repeat case_decide; subst.
  - unfold flip_key. rewrite Hs by (by repeat split).
    rewrite list_lookup_insert_eq by done. simpl.
    rewrite list_insert_insert_eq, list_insert_id by done. apply join_split.
  - unfold flip_key. rewrite Hs by (by repeat split).
    rewrite list_lookup_insert_eq by done. simpl.
    rewrite list_insert_insert_eq, list_insert_id by done. apply join_split.
  - unfold flip_key. rewrite Hd. by rewrite !decide_False.
Qed.

(** *** Transposition *)

Section connectivity.
Import BaseConnectivity.

#[local] Instance same_dims_refl : Reflexive same_dims.
Proof. by intros c. Qed.

#[local] Instance same_dims_trans : Transitive same_dims.
Proof. intros c1 c2 c3 (?&?&?) (?&?&?). unfold same_dims. split_and!; congruence. Qed.

Lemma keeps_transpose_key self old_key : keeps same_dims (transpose_key self old_key).
Proof.
  unfold transpose_key.
  apply keeps_bind; [apply _|apply keeps_lift; apply _|]. intros old_dir.
  apply keeps_bind; [apply _| |intros new_dir].
  { repeat case_decide; first [apply keeps_ret|apply keeps_raise]; apply _. }
  apply keeps_bind; [apply _|apply keeps_lift; apply _|]. intros old_m.
  apply keeps_bind; [apply _| |intros _]; by apply keeps_modify.
Qed.

(** The object [transpose] returns has [N_dest] of the original for both
    of its dimensions, and [N_mult] 1. *)
Lemma transpose_shape u c c' :
  transpose u c = Ok c' → shape c' = (N_dest c, N_dest c) ∧ N_mult c' = 1.
Proof.
  unfold transpose, __init__. repeat case_decide; try done.
  match goal with |- context [for_each ?l ?f ?c0] =>
    pose proof (keeps_for_each same_dims l f (keeps_transpose_key c) c0) as (Hs & Hd & Hm);
    destruct (for_each l f c0) as [[[]|e|] c1] end; [|done..].
  intros [= <-]. unfold shape. simpl in *. by rewrite Hs, Hd, Hm.
Qed.

Lemma transpose_twice_shape u1 u2 c c2 :
  transpose_twice u1 u2 c = Ok c2 → shape c2 = (N_dest c, N_dest c).
Proof.
  unfold transpose_twice. destruct (transpose u1 c) as [c1| |] eqn:E1; [|done..].
  intros E2. apply transpose_shape in E1 as [E1 _], E2 as [E2 _].
  rewrite E2. unfold shape in E1. by injection E1 as _ ->.
Qed.

Lemma matrix_T_involutive m : matrix_T (matrix_T m) = m.
Proof.
  destruct m as [[r c] cells]. unfold matrix_T. simpl. f_equal.
  apply map_eq. intros [i j].
  etransitivity; [apply (lookup_kmap prod_swap (kmap prod_swap cells) (j, i))|].
  apply (lookup_kmap prod_swap cells (i, j)).
Qed.

Lemma elem_of_data_keys c k : k ∈ data_keys c ↔ is_Some (_data c !! k).
Proof.
  unfold data_keys. rewrite list_elem_of_fmap. split.
  - intros ([k' m] & -> & H%elem_of_map_to_list). eauto.
  - intros [m H]. exists (k, m). split; [done|]. by apply elem_of_map_to_list.
Qed.

Lemma transpose_key_eval self k m c0 :
  key_ok k → _data self !! k = Some m →
  ∃ ks, transpose_key self k c0
        = (Ok tt, set_keys_by_dir ks (set_data (flip_key k) (matrix_T m) c0)).
Proof.
  intros Hk Hm. unfold transpose_key, flip_key.
  destruct Hk as [Hk|Hk]; rewrite Hk; unfold bind, lift; simpl; rewrite Hm; simpl; eauto.
Qed.

Lemma for_each_transpose self l c0 :
  (∀ k, k ∈ l → key_ok k ∧ is_Some (_data self !! k)) →
  ∃ c', for_each l (transpose_key self) c0 = (Ok tt, c') ∧
        same_dims c0 c' ∧
        ∀ j, _data c' !! j
             = if decide (flip_key j ∈ l) then matrix_T <$> _data self !! flip_key j
               else _data c0 !! j.
Proof.
  revert c0. induction l as [|k l IH]; intros c0 Hl.
  - exists c0. split_and!; [done..|]. intros j. rewrite decide_False; [done|].
    apply not_elem_of_nil.
  - destruct (Hl k) as [Hk [m Hm]]; [by left|].
    destruct (transpose_key_eval self k m c0 Hk Hm) as [ks Hs].
    destruct (IH (set_keys_by_dir ks (set_data (flip_key k) (matrix_T m) c0)))
      as (c' & Hc' & Hdims & Hd).
    { intros k' Hk'. apply Hl. by right. }
    exists c'. split_and!.
    + simpl. unfold bind. by rewrite Hs.
    + done.
    + intros j. rewrite Hd. simpl.
      destruct (decide (flip_key j ∈ l)) as [Hin|Hnin].
      * rewrite decide_True; [done|by right].
      * rewrite lookup_insert.
        destruct (decide (flip_key k = j)) as [<-|Hne].
        -- rewrite decide_True by (rewrite flip_key_involutive; by left).
           by rewrite flip_key_involutive, Hm.
        -- rewrite decide_False; [done|].
           intros [E|?]%elem_of_cons; [|done]. apply Hne.
           by rewrite <-E, flip_key_involutive.
Qed.

Lemma transpose_data u c :
  conn_ok c →
  ∃ c', transpose u c = Ok c' ∧ N_dest c' = N_dest c ∧
        ∀ j, _data c' !! j = matrix_T <$> _data c !! flip_key j.
Proof.
  intros (Hn & Hkeys & Hp & Hm). unfold transpose, __init__.
  rewrite !decide_False by done.
  match goal with |- context [for_each ?l ?f ?c0] =>
    destruct (for_each_transpose c l c0) as (c' & -> & (_ & Hd & _) & Hdata) end.
  { intros k [m Hk]%elem_of_data_keys. split; [|by eauto]. by apply (Hkeys k m). }
  exists c'. split_and!; [done|done|]. intros j. rewrite Hdata.
  case_decide as Hj; [done|].
  rewrite elem_of_data_keys in Hj.
  assert (Hnone : _data c !! flip_key j = None).
  { destruct (_data c !! flip_key j); [|done]. destruct Hj. eauto. }
  rewrite Hnone. simpl.
  change (_make_key 0 "-" "conn") with "0/-/conn".
  change (_make_key 0 "+" "conn") with "0/+/conn".
  rewrite !lookup_insert. repeat case_decide; subst; try done.
Qed.

Lemma transpose_conn_ok u c c' : conn_ok c → transpose u c = Ok c' → conn_ok c'.
Proof.
  intros Hok Ht. destruct (transpose_data u c Hok) as (c1 & Ht' & Hd & Hdata).
  rewrite Ht in Ht'. injection Ht' as <-.
  destruct Hok as (Hn & Hkeys & Hp & Hm). split_and!.
  - by rewrite Hd.
  - intros j m Hj. rewrite Hdata in Hj.
    apply fmap_Some in Hj as (m' & Hj & _).
    rewrite <-(flip_key_involutive j). apply flip_key_ok. by apply (Hkeys _ m').
  - rewrite Hdata. change (flip_key "0/+/conn") with "0/-/conn". by apply fmap_is_Some.
  - rewrite Hdata. change (flip_key "0/-/conn") with "0/+/conn". by apply fmap_is_Some.
Qed.

(** The constructor establishes the invariant. *)
Lemma init_conn_ok u s d n c : __init__ u s d n = Ok c → conn_ok c.
Proof.
  unfold __init__. repeat case_decide; try done. intros [= <-].
  change (_make_key 0 "-" "conn") with "0/-/conn".
  change (_make_key 0 "+" "conn") with "0/+/conn".
  split_and!; simpl.
  - done.
  - intros k m. rewrite !lookup_insert_Some, lookup_empty.
    intros [[<- _]|[_ [[<- _]|[_ ?]]]]; [by right|by left|done].
  - by rewrite lookup_insert_ne, lookup_insert_eq.
  - by rewrite lookup_insert_eq.
Qed.

(** Transposed twice, an object has the keys and the matrices of the
    original, and the destination count of the original for both
    dimensions. *)
Lemma transpose_twice_data u1 u2 c :
  conn_ok c →
  ∃ c2, transpose_twice u1 u2 c = Ok c2 ∧ _data c2 = _data c ∧
        shape c2 = (N_dest c, N_dest c).
Proof.
  intros Hok. unfold transpose_twice.
  destruct (transpose_data u1 c Hok) as (c1 & Ht1 & Hd1 & Hdata1). rewrite Ht1.
  destruct (transpose_data u2 c1 (transpose_conn_ok _ _ _ Hok Ht1))
    as (c2 & Ht2 & Hd2 & Hdata2).
  exists c2. split_and!; [done| |].
  - apply map_eq. intros j. rewrite Hdata2, Hdata1, flip_key_involutive.
    destruct (_data c !! j); simpl; [|done]. by rewrite matrix_T_involutive.
  - apply transpose_shape in Ht2 as [-> _]. by rewrite Hd1.
Qed.

(** The example object is what the constructor and [set] build. *)
Example example_conn_built :
  ∃ c, __init__ "c" 2 3 1 = Ok c ∧ set 1 2 0 "+" "conn" 1 c = (Ok tt, example_conn).
Proof. eexists. split; [reflexivity|]. vm_compute. reflexivity. Qed.

Example example_conn_ok : conn_ok example_conn.
Proof. apply (bool_decide_unpack _). vm_compute. exact I. Qed.

(** C4, at [BaseConnectivity(2, 3)] with one connection set: the object
    transposed twice has the keys and the matrices of the original, but
    its shape is (3, 3) where the shape of the original is (2, 3). *)
Theorem transpose_twice_example :
  ∃ c2, transpose_twice "t1" "t2" example_conn = Ok c2 ∧
        shape example_conn = (2, 3) ∧ shape c2 = (3, 3) ∧
        _data c2 = _data example_conn ∧
        _keys_by_dir c2 = _keys_by_dir example_conn.
Proof. eexists. split; [vm_compute; reflexivity|]. split_and!; reflexivity. Qed.
End connectivity.

(** ** [BaseModule.add_conn] *)

(** C8, as the code has it.  [add_conn] raises [ValueError] whenever
    [conn] is not a connectivity object.  With a connectivity object and a
    direction other than ['in'] and ['out'] it fails as well, with the
    [KeyError] of the subscription [self.conn_dict[conn_type]]; the module
    is unchanged in both cases.  With a connectivity object and one of the
    two directions it stores the object in the map of that direction,
    under the peer ID. *)
Theorem add_conn_checks (conn : pyobj) (conn_type : string) (i : ID) (m : BaseModule.t) :
  let cd := BaseModule.conn_dict m in
  (is_conn conn = false →
     BaseModule.add_conn conn conn_type i m = (Raise ValueError, m)) ∧
  (∀ c, conn = ObjConn c → conn_type ≠ "in" → conn_type ≠ "out" →
     BaseModule.add_conn conn conn_type i m = (Raise KeyError, m)) ∧
  (∀ c, conn = ObjConn c → conn_type = "in" →
     BaseModule.add_conn conn conn_type i m
     = (Ok tt, BaseModule.set_conn_dict
                 (BaseModule.ConnDict (<[i := c]> (BaseModule.conn_in cd))
                    (BaseModule.conn_out cd)) m)) ∧
  (∀ c, conn = ObjConn c → conn_type = "out" →
     BaseModule.add_conn conn conn_type i m
     = (Ok tt, BaseModule.set_conn_dict
                 (BaseModule.ConnDict (BaseModule.conn_in cd)
                    (<[i := c]> (BaseModule.conn_out cd))) m)).
Proof.
  intros cd. split_and!.
  - by destruct conn.
  - intros c -> Hin Hout. unfold BaseModule.add_conn. rewrite bind_gets.
    by rewrite !decide_False.
  - by intros c -> ->.
  - by intros c -> ->.
Qed.

(** ** BaseManager *)

Lemma lattice_le_rtc a b : lattice_le a b = true ↔ rtc promotion a b.
Proof.
  split.
  - destruct a, b; try discriminate; intros _;
      eauto 4 using rtc_refl, rtc_l, promotion.
  - induction 1 as [a|a b c Hab _ IH]; [by destruct a|].
    destruct Hab, c; done.
Qed.

Lemma net_le_refl a : net_le a a = true.
Proof. by destruct a. Qed.

Lemma net_le_trans a b c : net_le a b = true → net_le b c = true → net_le a c = true.
Proof. by destruct a, b, c. Qed.

Lemma connect_step_net_le a b : rtc connect_step a b → net_le a b = true.
Proof.
  induction 1 as [|x y z Hxy _ IH]; [apply net_le_refl|].
  eapply net_le_trans; [|exact IH]. by destruct Hxy.
Qed.

Lemma connect_step_full b : rtc connect_step net_full b → b = net_full.
Proof. intros H. apply rtc_inv in H as [|(y & Hy & _)]; [done|inversion Hy]. Qed.

Section manager.
Import BaseManager.
Implicit Types (w : world) (a src dest : positive) (c : BaseConnectivity.t)
  (h : gmap positive BaseModule.t).

(** *** The steps of [connect] *)

Lemma call_mod_gets {A} a (f : BaseModule.t → A) obj w :
  heap w !! a = Some obj → call_mod a (gets f) w = (Ok (f obj), w).
Proof.
  intros H. unfold call_mod. rewrite H. simpl. destruct w as [h ??]. unfold on_heap. simpl in *.
  by rewrite insert_id.
Qed.

Lemma call_mod_ok a (f : M BaseModule.t unit) g w :
  is_Some (heap w !! a) → (∀ obj, f obj = (Ok tt, g obj)) →
  call_mod a f w = (Ok tt, on_heap (alter g a) w).
Proof.
  intros [obj H] Hf. unfold call_mod. rewrite H, Hf. f_equal.
  destruct w as [h ??]. unfold on_heap. simpl in *. f_equal.
  apply map_eq. intros k. rewrite lookup_insert, lookup_alter.
  case_decide; [subst; by rewrite H|done].
Qed.

Lemma add_conn_wired c ct i obj :
  ct = "in" ∨ ct = "out" →
  BaseModule.add_conn (ObjConn c) ct i obj = (Ok tt, wired c ct i obj).
Proof. intros [-> | ->]; reflexivity. Qed.

Lemma promote_ok a n n' k k' w :
  is_Some (heap w !! a) →
  promote a n n' k k' w = (Ok tt, on_heap (alter (promoted n n' k k') a) w).
Proof.
  intros [obj H]. unfold promote. rewrite (bind_ok _ _ _ _ _ (call_mod_gets _ _ _ _ H)).
  assert (Hal : ∀ g, <[a := g obj]> (heap w) = alter g a (heap w)).
  { intros g. apply map_eq. intros j. rewrite lookup_insert, lookup_alter.
    case_decide; [subst; by rewrite H|done]. }
  assert (Hp : alter (promoted n n' k k') a (heap w) = <[a := promoted n n' k k' obj]> (heap w))
    by (by rewrite Hal).
  unfold on_heap at 1. rewrite Hp. unfold promoted.
  repeat case_decide; unfold call_mod, modify, ret; rewrite ?H; try done.
  destruct w; simpl in *. by rewrite insert_id.
Qed.

Lemma add_mod_module a obj w :
  heap w !! a = Some obj →
  add_mod (ObjModule a) w
  = (Ok (ObjModule a),
     on_man (λ s, set_mod_dict (<[BaseModule.id obj := a]> (mod_dict s)) s) w).
Proof.
  intros H. unfold add_mod, bind at 1, gets at 1. cbn [is_module].
  rewrite bool_decide_eq_true_2 by eauto. cbn [negb].
  unfold bind at 1, ret at 1.
  by rewrite (bind_ok _ _ _ _ _ (call_mod_gets _ _ _ _ H)).
Qed.

Lemma register_mod_eval {B} a obj (k : unit → M world B) w :
  heap w !! a = Some obj →
  bind (gets (λ w, mod_dict (man w)))
    (λ md, bind (if decide (md !! BaseModule.id obj = None)
                 then add_mod (ObjModule a) ;; ret tt else ret tt) k) w
  = k tt (on_man (λ s, set_mod_dict
                         (if decide (mod_dict s !! BaseModule.id obj = None)
                          then <[BaseModule.id obj := a]> (mod_dict s)
                          else mod_dict s) s) w).
Proof.
  intros H. unfold bind at 1, gets. cbn [fst snd].
  case_decide.
  - unfold bind at 1 2. rewrite (add_mod_module a obj) by done. unfold ret.
    f_equal. unfold on_man. simpl. by rewrite decide_True.
  - unfold bind at 1, ret. f_equal. unfold on_man. simpl. rewrite decide_False by done.
    by destruct w as [? [] ?].
Qed.

Lemma connect_register_eval src dest c ms md w :
  heap w !! src = Some ms → heap w !! dest = Some md →
  connect_register (ObjModule src) (ObjModule dest) (ObjConn c)
    (BaseModule.id ms) (BaseModule.id md) (BaseConnectivity.id c) w
  = (Ok tt, on_man (registered src dest c (BaseModule.id ms) (BaseModule.id md)) w).
Proof.
  intros Hs Hd. unfold connect_register.
  rewrite (register_mod_eval src ms) by done.
  rewrite (register_mod_eval dest md) by done.
  unfold bind at 1, gets. cbn [fst snd]. destruct w as [h [i pd pc mdict cdict rt] n].
  unfold registered, on_man. cbn.
  case_decide; reflexivity.
Qed.

Lemma connect_eval src dest c dir ms md w :
  heap w !! src = Some ms → heap w !! dest = Some md →
  connect (ObjModule src) (ObjModule dest) (ObjConn c) dir w
  = connect_update src dest (ObjConn c) c (BaseModule.id ms) (BaseModule.id md) dir
      (on_man (registered src dest c (BaseModule.id ms) (BaseModule.id md)) w).
Proof.
  intros Hs Hd. unfold connect. rewrite !bind_gets. cbn [is_module].
  rewrite !bool_decide_eq_true_2 by eauto. cbn [negb orb].
  rewrite (bind_ok _ _ _ _ _ (call_mod_gets _ _ _ _ Hs)).
  rewrite (bind_ok _ _ _ _ _ (call_mod_gets _ _ _ _ Hd)).
  by rewrite (bind_ok _ _ _ _ _ (connect_register_eval _ _ _ _ _ _ Hs Hd)).
Qed.

Lemma connect_invalid m_src m_dest conn dir w :
  (∀ src dest c ms md, m_src = ObjModule src → m_dest = ObjModule dest →
     conn = ObjConn c → heap w !! src = Some ms → heap w !! dest = Some md → False) →
  connect m_src m_dest conn dir w = (Raise ValueError, w).
Proof.
  intros H. unfold connect. rewrite !bind_gets.
  destruct m_src as [src|x1| |x2], m_dest as [dest|x3| |x4], conn as [x5|cc| |x6];
    try reflexivity.
  cbn [is_module].
  destruct (heap w !! src) as [ms|] eqn:Hs.
  - destruct (heap w !! dest) as [md|] eqn:Hd; [by destruct (H src dest cc ms md)|].
    rewrite (bool_decide_eq_false_2 (is_Some None)) by (by intros []).
    by rewrite orb_true_r.
  - rewrite (bool_decide_eq_false_2 (is_Some None)) by (by intros []). done.
Qed.
Lemma bind_promote {B} a n n' k0 k0' (k : unit → M world B) w :
  is_Some (heap w !! a) →
  bind (promote a n n' k0 k0') k w
  = k tt (on_heap (alter (promoted n n' k0 k0') a) w).
Proof. intros H. by rewrite (bind_ok _ _ _ _ _ (promote_ok _ _ _ _ _ _ H)). Qed.

Lemma call_wired a c ct i w :
  is_Some (heap w !! a) → ct = "in" ∨ ct = "out" →
  call_mod a (BaseModule.add_conn (ObjConn c) ct i) w
  = (Ok tt, on_heap (alter (wired c ct i) a) w).
Proof. intros H Hct. apply call_mod_ok; [done|]. intros obj. by apply add_conn_wired. Qed.

Lemma bind_wired {B} a c ct i (k : unit → M world B) w :
  is_Some (heap w !! a) → ct = "in" ∨ ct = "out" →
  bind (call_mod a (BaseModule.add_conn (ObjConn c) ct i)) k w
  = k tt (on_heap (alter (wired c ct i) a) w).
Proof. intros H Hct. by rewrite (bind_ok _ _ _ _ _ (call_wired _ _ _ _ _ H Hct)). Qed.

Lemma bind_set_full {B} a (k : unit → M world B) w :
  is_Some (heap w !! a) →
  bind (call_mod a (modify (BaseModule.set_net net_full))) k w
  = k tt (on_heap (alter (BaseModule.set_net net_full) a) w).
Proof.
  intros H. erewrite bind_ok; [done|]. by apply call_mod_ok.
Qed.

Lemma bind_conn_T {B} c (k : pyobj → M world B) w :
  bind (conn_T c) k w
  = let w' := World (heap w) (man w) (S (uid_count w)) in
    match BaseConnectivity.transpose (pretty (uid_count w)) c with
    | Ok cT => k (ObjConn cT) w'
    | Raise e => (Raise e, w')
    | Blocks => (Blocks, w')
    end.
Proof.
  unfold conn_T, bind, uid, lift. simpl.
  by destruct (BaseConnectivity.transpose _ c).
Qed.

Ltac present := cbn; rewrite ?lookup_alter_is_Some; assumption.

Lemma update_plus_eval src dest c sid did w :
  is_Some (heap w !! src) → is_Some (heap w !! dest) →
  connect_update src dest (ObjConn c) c sid did "+" w
  = let s' := routed_edge (sid, did) (man w) in
    let h1 := heap_plus_1 src dest c did (heap w) in
    match BaseConnectivity.transpose (pretty (uid_count w)) c with
    | Ok cT => (Ok tt, World (alter (wired cT "in" sid) dest h1) s' (S (uid_count w)))
    | Raise e => (Raise e, World h1 s' (S (uid_count w)))
    | Blocks => (Blocks, World h1 s' (S (uid_count w)))
    end.
Proof.
  intros Hs Hd. unfold connect_update. rewrite decide_True by done.
  unfold route. rewrite bind_modify.
  rewrite bind_promote by present. rewrite bind_promote by present.
  rewrite bind_wired by (present || auto). rewrite bind_conn_T. cbn zeta.
  destruct (BaseConnectivity.transpose _ c) as [cT|e|]; try reflexivity.
  rewrite call_wired by (present || auto). reflexivity.
Qed.

Lemma update_minus_eval src dest c sid did w :
  is_Some (heap w !! src) → is_Some (heap w !! dest) →
  connect_update src dest (ObjConn c) c sid did "-" w
  = let s' := routed_edge (did, sid) (man w) in
    let h1 := heap_minus_1 src dest c did (heap w) in
    match BaseConnectivity.transpose (pretty (uid_count w)) c with
    | Ok cT => (Ok tt, World (alter (wired cT "out" sid) dest h1) s' (S (uid_count w)))
    | Raise e => (Raise e, World h1 s' (S (uid_count w)))
    | Blocks => (Blocks, World h1 s' (S (uid_count w)))
    end.
Proof.
  intros Hs Hd. unfold connect_update.
  rewrite decide_False by done. rewrite decide_True by done.
  unfold route. rewrite bind_modify.
  rewrite bind_promote by present. rewrite bind_promote by present.
  rewrite bind_wired by (present || auto). rewrite bind_conn_T. cbn zeta.
  destruct (BaseConnectivity.transpose _ c) as [cT|e|]; try reflexivity.
  rewrite call_wired by (present || auto). reflexivity.
Qed.

Lemma update_both_eval src dest c sid did w :
  is_Some (heap w !! src) → is_Some (heap w !! dest) →
  connect_update src dest (ObjConn c) c sid did "=" w
  = let s' := routed_edge (did, sid) (routed_edge (sid, did) (man w)) in
    let h1 := heap_both_1 src dest c did (heap w) in
    let n := uid_count w in
    match BaseConnectivity.transpose (pretty n) c with
    | Ok cT =>
        let h2 := alter (wired c "in" did) src (alter (wired cT "in" sid) dest h1) in
        match BaseConnectivity.transpose (pretty (S n)) c with
        | Ok cT' => (Ok tt, World (alter (wired cT' "out" sid) dest h2) s' (S (S n)))
        | Raise e => (Raise e, World h2 s' (S (S n)))
        | Blocks => (Blocks, World h2 s' (S (S n)))
        end
    | Raise e => (Raise e, World h1 s' (S n))
    | Blocks => (Blocks, World h1 s' (S n))
    end.
Proof.
  intros Hs Hd. unfold connect_update.
  rewrite decide_False by done. rewrite decide_False by done. rewrite decide_True by done.
  unfold route. rewrite !bind_modify.
  rewrite bind_set_full by present. rewrite bind_set_full by present.
  rewrite bind_wired by (present || auto). rewrite bind_conn_T. cbn zeta.
  destruct (BaseConnectivity.transpose _ c) as [cT|e|]; try reflexivity.
  rewrite bind_wired by (present || auto).
  rewrite bind_wired by (present || auto). rewrite bind_conn_T. cbn zeta.
  cbn [uid_count].
  destruct (BaseConnectivity.transpose _ c) as [cT'|e|]; try reflexivity.
  rewrite call_wired by (present || auto). reflexivity.
Qed.

Lemma wired_id c ct i m : BaseModule.id (wired c ct i m) = BaseModule.id m.
Proof.
  unfold wired, BaseModule.add_conn, bind, gets. simpl. repeat case_decide; done.
Qed.





(** *** Net modes under [connect] *)

Lemma add_conn_net conn ct i obj :
  BaseModule.net (BaseModule.add_conn conn ct i obj).2 = BaseModule.net obj.
Proof.
  unfold BaseModule.add_conn. destruct conn; try done.
  unfold bind, gets. simpl. repeat case_decide; done.
Qed.

Section moves.
Variable P : positive → relation net_mode.
Hypothesis P_refl : ∀ a n, P a n n.
Hypothesis P_trans : ∀ a n1 n2 n3, P a n1 n2 → P a n2 n3 → P a n1 n3.

#[local] Instance net_moves_refl : Reflexive (net_moves P).
Proof. intros w a m H. exists m. split; [done|apply P_refl]. Qed.

#[local] Instance net_moves_trans : Transitive (net_moves P).
Proof.
  intros w1 w2 w3 H12 H23 a m H. destruct (H12 a m H) as (m2 & H2 & Hle).
  destruct (H23 a m2 H2) as (m3 & H3 & Hle'). exists m3. split; [done|].
  by eapply P_trans.
Qed.

Lemma same_heap_moves w w' : heap w' = heap w → net_moves P w w'.
Proof. intros Hh a m H. exists m. rewrite Hh. split; [done|apply P_refl]. Qed.

Lemma keeps_on_man f : keeps (net_moves P) (modify (on_man f)).
Proof. apply keeps_modify. intros w. by apply same_heap_moves. Qed.

Lemma keeps_uid : keeps (net_moves P) uid.
Proof. intros w. by apply same_heap_moves. Qed.

Lemma keeps_call_mod {A} a (f : M BaseModule.t A) :
  (∀ obj, P a (BaseModule.net obj) (BaseModule.net (f obj).2)) →
  keeps (net_moves P) (call_mod a f).
Proof.
  intros Hf w. unfold call_mod. destruct (heap w !! a) as [obj|] eqn:E; [|reflexivity].
  specialize (Hf obj). destruct (f obj) as [r obj']. simpl in *.
  intros k m Hk. cbn. destruct (decide (a = k)) as [->|Hne].
  - exists obj'. rewrite lookup_insert_eq. split; [done|]. congruence.
  - exists m. rewrite lookup_insert_ne by done. split; [done|apply P_refl].
Qed.

Lemma keeps_promote a n n' k k' :
  P a n n' → P a k k' → keeps (net_moves P) (promote a n n' k k').
Proof.
  intros Hn Hk w. destruct (heap w !! a) as [obj|] eqn:E.
  - rewrite promote_ok by eauto. intros j m Hj. cbn.
    rewrite lookup_alter. case_decide as Hd; [subst j|].
    + rewrite Hj. simpl. eexists; split; [done|]. unfold promoted.
      case_decide as H1; [simpl; rewrite H1; exact Hn|].
      case_decide as H2; [simpl; rewrite H2; exact Hk|]. apply P_refl.
    + exists m. split; [done|apply P_refl].
  - unfold promote, bind, call_mod. rewrite E. reflexivity.
Qed.

Lemma keeps_new_module n pd pc : keeps (net_moves P) (new_module n pd pc).
Proof.
  unfold new_module. apply keeps_bind; [apply _|apply keeps_uid|]. intros i.
  case_decide; [apply keeps_raise; apply _|].
  intros w. rewrite bind_gets. rewrite bind_modify.
  intros a m Ha. cbn. exists m. split; [|apply P_refl].
  rewrite lookup_insert_ne; [done|]. intros <-.
  apply (is_fresh (dom (heap w))). apply elem_of_dom. eauto.
Qed.

Lemma keeps_call_gets {A} a (f : BaseModule.t → A) :
  keeps (net_moves P) (call_mod a (gets f)).
Proof. apply keeps_call_mod. intros obj. apply P_refl. Qed.

Lemma keeps_call_add_conn a conn ct i :
  keeps (net_moves P) (call_mod a (BaseModule.add_conn conn ct i)).
Proof. apply keeps_call_mod. intros obj. rewrite add_conn_net. apply P_refl. Qed.

Lemma keeps_call_set_full a :
  (∀ n, P a n net_full) →
  keeps (net_moves P) (call_mod a (modify (BaseModule.set_net net_full))).
Proof. intros Hf. apply keeps_call_mod. intros obj. simpl. apply Hf. Qed.

Lemma keeps_add_mod m : keeps (net_moves P) (add_mod m).
Proof.
  unfold add_mod. apply keeps_bind; [apply _|apply keeps_gets; apply _|]. intros ism.
  apply keeps_bind; [apply _| |].
  - destruct (negb ism); [|apply keeps_ret; apply _].
    apply keeps_bind; [apply _|apply keeps_gets; apply _|]. intros pd.
    apply keeps_bind; [apply _|apply keeps_gets; apply _|]. intros pc.
    apply keeps_bind; [apply _|apply keeps_new_module|]. intros a.
    apply keeps_ret; apply _.
  - intros [a| | |]; try (apply keeps_raise; apply _).
    apply keeps_bind; [apply _|apply keeps_call_gets|]. intros i.
    apply keeps_bind; [apply _|apply keeps_on_man|]. intros _.
    apply keeps_ret; apply _.
Qed.

Lemma keeps_add_conn (o : pyobj) : keeps (net_moves P) (add_conn o).
Proof.
  unfold add_conn. destruct o; try (apply keeps_raise; apply _).
  apply keeps_bind; [apply _|apply keeps_on_man|]. intros _. apply keeps_ret; apply _.
Qed.

Lemma keeps_conn_T c : keeps (net_moves P) (conn_T c).
Proof.
  unfold conn_T. apply keeps_bind; [apply _|apply keeps_uid|]. intros i.
  apply keeps_bind; [apply _|apply keeps_lift; apply _|]. intros c'.
  apply keeps_ret; apply _.
Qed.

Lemma keeps_connect_register m_src m_dest conn src_id dest_id conn_id :
  keeps (net_moves P) (connect_register m_src m_dest conn src_id dest_id conn_id).
Proof.
  unfold connect_register.
  repeat first
    [ apply keeps_ret; apply _
    | apply keeps_gets; apply _
    | apply keeps_add_mod
    | apply keeps_add_conn
    | apply keeps_bind; [apply _| |intros ?]
    | case_decide ].
Qed.

(** The branches of [connect]: ['+'] and ['-'] promote, ['='] assigns
    ['full']; nothing else touches a net mode. *)
Lemma keeps_connect_update src dest conn c src_id dest_id dir :
  (dir = "+" ∨ dir = "-" → ∀ n n', connect_step n n' → P src n n' ∧ P dest n n') →
  (dir = "=" → ∀ n, P src n net_full ∧ P dest n net_full) →
  keeps (net_moves P) (connect_update src dest conn c src_id dest_id dir).
Proof.
  intros Hstep Hfull. unfold connect_update, route.
  destruct (decide (dir = "+")) as [Hp|Hp];
    [|destruct (decide (dir = "-")) as [Hm|Hm];
      [|destruct (decide (dir = "=")) as [Hb|Hb]]].
  4: apply keeps_raise; apply _.
  1, 2: specialize (Hstep (ltac:(auto)));
    repeat first
      [ apply keeps_on_man
      | apply keeps_promote; apply Hstep; constructor
      | apply keeps_call_add_conn
      | apply keeps_conn_T
      | apply keeps_bind; [apply _| |intros ?] ].
  specialize (Hfull Hb).
  repeat first
    [ apply keeps_on_man
    | apply keeps_call_set_full; intros ?; apply Hfull
    | apply keeps_call_add_conn
    | apply keeps_conn_T
    | apply keeps_bind; [apply _| |intros ?] ].
Qed.

Lemma keeps_connect m_src m_dest conn dir :
  (∀ a, m_src = ObjModule a ∨ m_dest = ObjModule a →
     (dir = "+" ∨ dir = "-" → ∀ n n', connect_step n n' → P a n n') ∧
     (dir = "=" → ∀ n, P a n net_full)) →
  keeps (net_moves P) (connect m_src m_dest conn dir).
Proof.
  intros Hnamed. unfold connect.
  apply keeps_bind; [apply _|apply keeps_gets; apply _|]. intros ok_src.
  apply keeps_bind; [apply _|apply keeps_gets; apply _|]. intros ok_dest.
  destruct m_src as [src| | |], m_dest as [dest| | |], conn;
    try (apply keeps_raise; apply _).
  destruct (negb ok_src || negb ok_dest); [apply keeps_raise; apply _|].
  apply keeps_bind; [apply _|apply keeps_call_gets|]. intros src_id.
  apply keeps_bind; [apply _|apply keeps_call_gets|]. intros dest_id.
  apply keeps_bind; [apply _|apply keeps_connect_register|]. intros _.
  destruct (Hnamed src (or_introl eq_refl)) as [Hs1 Hs2].
  destruct (Hnamed dest (or_intror eq_refl)) as [Hd1 Hd2].
  apply keeps_connect_update.
  - intros Hdir n n' Hnn. split; [by apply Hs1|by apply Hd1].
  - intros Hdir n. split; [by apply Hs2|by apply Hd2].
Qed.
End moves.

Lemma call_moves_trans named dir n1 n2 n3 :
  call_moves named dir n1 n2 → call_moves named dir n2 n3 → call_moves named dir n1 n3.
Proof.
  unfold call_moves. intros [E12|[Hn H12]] [E23|[Hn' H23]].
  - left. congruence.
  - right. by subst n2.
  - right. by subst n3.
  - right. split; [done|]. destruct H23 as [H23|H23]; [|by right].
    destruct H12 as [H12|[Hd E]].
    + left. by etransitivity.
    + right. split; [done|]. subst n2. by apply connect_step_full.
Qed.

(** One call, however it ends. *)
Lemma connect_moves m_src m_dest conn dir w :
  net_moves (λ a, call_moves (m_src = ObjModule a ∨ m_dest = ObjModule a) dir)
    w (connect m_src m_dest conn dir w).2.
Proof.
  apply keeps_connect.
  - intros a n. by left.
  - intros a n1 n2 n3. apply call_moves_trans.
  - intros a Ha. split.
    + intros _ n n' Hs. right. split; [done|]. left. by apply rtc_once.
    + intros Hd n. right. split; [done|]. by right.
Qed.

Lemma connects_moves cs w a (m : BaseModule.t) :
  heap w !! a = Some m →
  ∃ m', heap (connects cs w) !! a = Some m' ∧
        net_le (BaseModule.net m) (BaseModule.net m') = true ∧
        (rtc connect_step (BaseModule.net m) (BaseModule.net m') ∨
         (Exists (λ k, call_dir k = "=" ∧ names k a) cs ∧
          BaseModule.net m' = net_full)) ∧
        (Forall (λ k, ¬ names k a) cs → BaseModule.net m' = BaseModule.net m).
Proof.
  revert w m. induction cs as [|k cs IH]; intros w m Hm.
  - exists m. split_and!; [done|apply net_le_refl|by left|done].
  - simpl.
    destruct (connect_moves (call_src k) (call_dest k) (call_conn k) (call_dir k) w a m Hm)
      as (m1 & Hm1 & Hk).
    destruct (IH _ m1 Hm1) as (m' & Hm' & Hle & Hpath & Hsame).
    exists m'. split; [done|].
    assert (Hle1 : net_le (BaseModule.net m) (BaseModule.net m1) = true).
    { destruct Hk as [->|[_ [H|[_ ->]]]];
        [apply net_le_refl|by apply connect_step_net_le|by destruct (BaseModule.net m)]. }
    split_and!.
    + by eapply net_le_trans.
    + destruct Hpath as [Hpath|[Hex Hfull]]; [|right; split; [by apply Exists_cons_tl|done]].
      destruct Hk as [Heq|[Hn [H|[Hd Hfull]]]].
      * left. by rewrite <-Heq.
      * left. by etransitivity.
      * right. rewrite Hfull in Hpath. apply connect_step_full in Hpath.
        split; [|done]. by apply Exists_cons_hd.
    + intros [Hnk Hcs]%Forall_cons. rewrite (Hsame Hcs).
      destruct Hk as [Heq|[Hn _]]; [done|]. by destruct Hnk.
Qed.

(** C6, as the code has it.  Whatever calls of [connect] are made
    (any arguments, failed calls included), a module object stays in
    the store and its net mode is never demoted in the order with
    ['none'] at the bottom and ['full'] at the top.  The mode has moved
    along zero or more of the promotions none to in, none to out, in to
    full, out to full; or it is ['full'] and a call with direction
    ['='] named the module, which sets the mode to ['full'] from any
    mode, ['ctrl'] included.  No call moves a module to ['ctrl'], and
    a module that no call names keeps its mode.  With a single call in
    [cs] this is what each call does. *)
Theorem connect_never_demotes (cs : list call) w a (m : BaseModule.t) :
  heap w !! a = Some m →
  ∃ m', heap (connects cs w) !! a = Some m' ∧
        net_le (BaseModule.net m) (BaseModule.net m') = true ∧
        (rtc connect_step (BaseModule.net m) (BaseModule.net m') ∨
         (Exists (λ k, call_dir k = "=" ∧ names k a) cs ∧
          BaseModule.net m' = net_full)) ∧
        (Forall (λ k, ¬ names k a) cs → BaseModule.net m' = BaseModule.net m).
Proof. apply connects_moves. Qed.
End manager.

(** ** The properties on concrete inputs *)

(** A module in net mode ['in'] with peers m1 and m3: m3 has nothing to
    say, m1 sends "a"; a frame of the next step is already there. *)
Lemma sync_inbound_witness :
  let p := BaseModule.Proc (example_module "m2" net_in [] ["m1"; "m3"] [])
             [] ["m3:~"; "m1:a"; "m1:a"] in
  (∀ p', BaseModule._sync example_packb example_unpackb p = (Ok tt, p') →
     BaseModule._in_data (BaseModule.self p') = [("m1", Some "a")] ∧
     NoDup (BaseModule._in_data (BaseModule.self p')).*1 ∧
     (∀ i x, (i, x) ∈ BaseModule._in_data (BaseModule.self p') →
             i ∈ BaseModule.in_ids (BaseModule.self p') ∧ x ≠ None) ∧
     BaseModule.sock_inbox p' = ["m1:a"]) ∧
  (net_in = net_in ∨ out_buffer_ok (example_module "m2" net_in [] ["m1"; "m3"] []) →
     ∃ p', BaseModule._sync example_packb example_unpackb p = (Ok tt, p')).
Proof.
  intros p.
  apply (sync_inbound example_packb example_unpackb p
           ["m3:~"; "m1:a"] ["m1:a"] [("m3", None); ("m1", Some "a")]).
  - left. reflexivity.
  - reflexivity.
  - reflexivity.
  - apply (bool_decide_unpack _). vm_compute. exact I.
Defined.

(** A module in net mode ['out'] with destinations m1, m3 and m4, and
    data for m3 only: three frames. *)
Lemma sync_outbound_witness :
  let p := BaseModule.Proc
             (example_module "m2" net_out [("m3", Some "x")] [] ["m1"; "m3"; "m4"])
             [] [] in
  let frames := (example_packb <$> [("m3", Some "x")])
                  ++ none_frames example_packb ["m3"]
                       (BaseModule.out_ids (BaseModule.self p)) in
  BaseModule.sock_sent (BaseModule._sync example_packb example_unpackb p).2
  = [] ++ frames ∧
  length frames = length (BaseModule.out_ids (BaseModule.self p)).
Proof.
  intros p.
  apply (sync_outbound example_packb example_unpackb p).
  - left. reflexivity.
  - apply (bool_decide_unpack _). vm_compute. exact I.
  - apply (bool_decide_unpack _). vm_compute. exact I.
Defined.

(** The frames of the last example, as computed. *)
Example sync_outbound_frames :
  BaseModule.sock_sent
    (BaseModule._sync example_packb example_unpackb
       (BaseModule.Proc
          (example_module "m2" net_out [("m3", Some "x")] [] ["m1"; "m3"; "m4"])
          [] [])).2
  ≡ₚ ["m3:x"; "m1:~"; "m4:~"].
Proof. apply (bool_decide_unpack _). vm_compute. exact I. Qed.

(** Two entries for m3 in one step. *)
Lemma sync_duplicate_destination_witness :
  let p := BaseModule.Proc
             (example_module "m2" net_full [("m3", Some "x"); ("m3", Some "y")]
                ["m1"] ["m1"; "m3"])
             [] ["m1:a"] in
  ∃ p', BaseModule._sync example_packb example_unpackb p = (Raise ValueError, p') ∧
        BaseModule.self p' = BaseModule.self p ∧
        BaseModule.sock_inbox p' = BaseModule.sock_inbox p.
Proof.
  intros p.
  apply (sync_duplicate_destination example_packb example_unpackb p 0 1
           "m3" (Some "x") (Some "y")).
  - right. reflexivity.
  - discriminate.
  - reflexivity.
  - reflexivity.
Defined.

(** In the last example both frames for m3 are on the socket when the
    exception is raised: each entry is sent before its destination is
    removed from [send_ids]. *)
Example sync_duplicate_destination_sent :
  BaseModule.sock_sent
    (BaseModule._sync example_packb example_unpackb
       (BaseModule.Proc
          (example_module "m2" net_full [("m3", Some "x"); ("m3", Some "y")]
             ["m1"] ["m1"; "m3"])
          [] ["m1:a"])).2
  = ["m3:x"; "m3:y"].
Proof. vm_compute. reflexivity. Qed.

(** A broker on the table with the edges m1 to m2 and m2 to m1, after a
    frame from m2 that it does not await (m2 to m3): a frame from m1 for
    m2 is kept, and the frame from m2 for m1 that follows completes the
    round. *)
(** A broker on the example table, after a frame from m2 that it does not
    await (m2 to m3) and a frame from m1 for m2, which it keeps: the frame
    from m2 for m1 that follows completes the round. *)
Lemma broker_round_witness :
  let p := Broker.Proc
             (Broker.Make "b" 5000 5001 example_table [("m1", "m2", Some "a")]
                [("m2", "m1")]) [] in
  let pending := [("m1", "m2", Some "a"); ("m2", "m1", None)] in
  let r := Broker._data_handler example_packb example_frames ["m2"; "to m1"] p in
  (("m2", "m1") ∉ [("m2", "m1")] → r = (Ok tt, p)) ∧
  (∀ rest, list_remove ("m2", "m1") [("m2", "m1")] = Some rest → rest ≠ [] →
     r = (Ok tt, Broker.Proc (Broker.set_recv_coords_list rest
                                (Broker.set_data_to_route pending (Broker.self p)))
                   [])) ∧
  (list_remove ("m2", "m1") [("m2", "m1")] = Some [] →
     ∃ b', r = (Ok tt, Broker.Proc b' ([] ++ (Broker.routed example_packb <$> pending))) ∧
           Broker.data_to_route b' = [] ∧
           Broker.recv_coords_list b' = RoutingTable.coords example_table ∧
           Broker.routing_table b' = example_table).
Proof.
  intros p.
  apply (broker_round example_packb example_frames "b" 5000 5001 example_table
           example_broker [["m2"; "to m3"]; ["m1"; "to m2"]] p "m2" "to m1" "m1" None).
  - reflexivity.
  - reflexivity.
  - reflexivity.
Defined.

(** What the broker of the last example sends when the round completes. *)
Example broker_round_sent :
  Broker.sock_sent
    (Broker.run example_packb example_frames
       [["m2"; "to m3"]; ["m1"; "to m2"]; ["m2"; "to m1"]]
       (Broker.Proc example_broker [])).2
  = [["m2"; "m1:a"]; ["m1"; "m2:~"]].
Proof. vm_compute. reflexivity. Qed.

Lemma broker_needs_routing_table_witness :
  (∃ e, Broker.__init__ "b" 5000 5001 None = Raise e) ∧
  (5000%Z ≠ 5001%Z → Broker.__init__ "b" 5000 5001 None = Raise AttributeError) ∧
  (∀ o b, Broker.__init__ "b" 5000 5001 o = Ok b →
     ∃ rt, o = Some rt ∧ Broker.routing_table b = rt ∧
           Broker.recv_coords_list b = RoutingTable.coords rt ∧
           Broker.data_to_route b = []).
Proof. apply (broker_needs_routing_table "b" 5000 5001). Defined.

(** The defaults: [Broker()] raises [AttributeError]. *)
Example broker_default : Broker.__init__ "b" 5000 5001 None = Raise AttributeError.
Proof. reflexivity. Qed.

(** [add_conn] with a connectivity object and the direction ['out'], on
    a fresh module. *)
Lemma add_conn_checks_witness :
  let m := example_module "m1" net_none [] [] [] in
  let conn := ObjConn example_conn in
  let cd := BaseModule.conn_dict m in
  (ObjConn example_conn = conn ∧ "out" = "out") ∧
  BaseModule.add_conn conn "out" "m2" m
  = (Ok tt, BaseModule.set_conn_dict
              (BaseModule.ConnDict (BaseModule.conn_in cd)
                 (<["m2" := example_conn]> (BaseModule.conn_out cd))) m).
Proof.
  intros m conn cd. split; [split; reflexivity|].
  apply (add_conn_checks conn "out" "m2" m); reflexivity.
Defined.

(** C8 as stated fails: with a connectivity object and the direction
    ['both'], [add_conn] raises [KeyError], not the [ValueError] it raises
    for an object that is no connectivity. *)
Lemma add_conn_bad_direction :
  ¬ (∀ conn conn_type i m,
       is_conn conn = false ∨ (conn_type ≠ "in" ∧ conn_type ≠ "out") →
       (BaseModule.add_conn conn conn_type i m).1 = Raise ValueError).
Proof.
  intros H.
  specialize (H (ObjConn example_conn) "both" "m2" (example_module "m1" net_none [] [] [])).
  assert (Hk : (BaseModule.add_conn (ObjConn example_conn) "both" "m2"
                  (example_module "m1" net_none [] [] [])).1 = Raise KeyError)
    by reflexivity.
  rewrite Hk in H. discriminate H. right. split; discriminate.
Qed.

(** The three outcomes of [add_conn], computed. *)
Example add_conn_outcomes :
  let m := example_module "m1" net_none [] [] [] in
  (BaseModule.add_conn (ObjStr "c") "in" "m2" m).1 = Raise ValueError ∧
  (BaseModule.add_conn (ObjConn example_conn) "both" "m2" m).1 = Raise KeyError ∧
  (BaseModule.add_conn (ObjConn example_conn) "out" "m2" m).1 = Ok tt ∧
  BaseModule.out_ids (BaseModule.add_conn (ObjConn example_conn) "out" "m2" m).2 = ["m2"].
Proof. vm_compute. done. Qed.


(** From net modes ['in'] and ['none'] both ways return, with both
    modules in net mode ['full'] and both edges in the routing table. *)
Example connect_both_returns :
  let r := BaseManager.connect (ObjModule 1) (ObjModule 2) (ObjConn example_conn) "="
             (example_world net_in net_none) in
  r.1 = Ok tt ∧ net_at 1 r.2 = Some net_full ∧ net_at 2 r.2 = Some net_full ∧
  BaseManager.routing_table (BaseManager.man r.2) = [("m1", "m2"); ("m2", "m1")].
Proof. vm_compute. done. Qed.


(** A module in net mode ['out'] under two calls: the destination of a
    ['+'], then a call that fails. *)
Lemma connect_never_demotes_witness :
  let w := example_world net_out net_none in
  let cs := [BaseManager.Call (ObjModule 2) (ObjModule 1) (ObjConn example_conn) "+";
             BaseManager.Call (ObjModule 1) (ObjModule 2) (ObjStr "c") "-"] in
  ∃ m', BaseManager.heap (BaseManager.connects cs w) !! 1%positive = Some m' ∧
        net_le net_out (BaseModule.net m') = true ∧
        (rtc connect_step net_out (BaseModule.net m') ∨
         (Exists (λ k, BaseManager.call_dir k = "=" ∧ names k 1) cs ∧
          BaseModule.net m' = net_full)) ∧
        (Forall (λ k, ¬ names k 1) cs → BaseModule.net m' = net_out).
Proof.
  intros w cs.
  apply (connect_never_demotes cs w 1 (example_module "m1" net_out [] [] [])).
  reflexivity.
Defined.

(** In the last example the module ends in ['full']. *)
Example connect_never_demotes_net :
  net_at 1 (BaseManager.connects
              [BaseManager.Call (ObjModule 2) (ObjModule 1) (ObjConn example_conn) "+";
               BaseManager.Call (ObjModule 1) (ObjModule 2) (ObjStr "c") "-"]
              (example_world net_out net_none)) = Some net_full.
Proof. vm_compute. reflexivity. Qed.

(** C6 as stated fails: ['='] moves a module from ['ctrl'] to ['full'],
    which is no composition of the listed promotions. *)
Lemma connect_ctrl_to_full :
  ¬ (∀ (cs : list BaseManager.call) (w : BaseManager.world) (a : positive)
       (m : BaseModule.t),
       BaseManager.heap w !! a = Some m →
       ∃ m', BaseManager.heap (BaseManager.connects cs w) !! a = Some m' ∧
             lattice_le (BaseModule.net m) (BaseModule.net m') = true).
Proof.
  intros H.
  destruct (H [BaseManager.Call (ObjModule 1) (ObjModule 2) (ObjConn example_conn) "="]
              (example_world net_ctrl net_none) 1%positive
              (example_module "m1" net_ctrl [] [] []) eq_refl) as (m' & Hm' & Hle).
  vm_compute in Hm'. injection Hm' as <-. discriminate Hle.
Qed.

(** The same transition, computed, and its place outside the listed
    promotions. *)
Example connect_ctrl_to_full_net :
  net_at 1 (BaseManager.connects
              [BaseManager.Call (ObjModule 1) (ObjModule 2) (ObjConn example_conn) "="]
              (example_world net_ctrl net_none)) = Some net_full ∧
  ¬ rtc promotion net_ctrl net_full.
Proof.
  split; [vm_compute; reflexivity|]. rewrite <-lattice_le_rtc. discriminate.
Qed.

(** ** Keys built by [_make_key] *)

Lemma pretty_N_char_sep_free x : pretty_N_char x ≠ "/"%char.
Proof. unfold pretty_N_char. by repeat case_match. Qed.

Lemma pretty_N_go_sep_free x s : sep_free "/" s → sep_free "/" (pretty_N_go x s).
Proof.
  revert s. induction (N.lt_wf_0 x) as [x _ IH]; intros s Hs.
  assert (x = 0 ∨ 0 < x)%N as [->|?] by lia.
  - by rewrite pretty_N_go_0.
  - rewrite pretty_N_go_step by done. apply IH.
    { by apply N.div_lt. }
    split; [apply pretty_N_char_sep_free|done].
Qed.

Lemma pretty_nat_sep_free (n : nat) : sep_free "/" (pretty n).
Proof.
  unfold pretty, pretty_nat, pretty, pretty_N.
  case_decide; [by repeat split|]. by apply pretty_N_go_sep_free.
Qed.

Lemma make_key_split syn dir param :
  sep_free "/" dir →
  split "/" (BaseConnectivity._make_key syn dir param)
  = pretty syn :: dir :: split "/" param.
Proof.
  intros Hd. unfold BaseConnectivity._make_key.
  change (join "/" [pretty syn; dir; param])
    with (pretty syn +:+ String "/" (dir +:+ String "/" param)).
  rewrite split_app_sep by apply pretty_nat_sep_free.
  by rewrite split_app_sep.
Qed.

Lemma make_key_ok syn dir param :
  dir = "-" ∨ dir = "+" → key_ok (BaseConnectivity._make_key syn dir param).
Proof.
  unfold key_ok. intros [-> | ->]; rewrite make_key_split by (by repeat split);
    [by right|by left].
Qed.

Lemma join_cons2 sep a b l :
  join sep (a :: b :: l) = a +:+ String sep (join sep (b :: l)).
Proof. done. Qed.

Lemma make_key_flip syn dir param :
  dir = "-" ∨ dir = "+" →
  flip_key (BaseConnectivity._make_key syn dir param)
  = BaseConnectivity._make_key syn (flip_dir dir) param.
Proof.
  intros Hd. unfold flip_key.
  rewrite make_key_split by (destruct Hd as [-> | ->]; by repeat split).
  pose proof (split_nonempty "/" param) as Hne.
  pose proof (join_split "/" param) as Hj.
  destruct (split "/" param) as [|h t] eqn:E; [done|].
  unfold BaseConnectivity._make_key.
  destruct Hd as [-> | ->]; simpl lookup; cbv iota beta.
  - rewrite decide_False, decide_True by done. simpl insert.
    rewrite !join_cons2, Hj. done.
  - rewrite decide_True by done. simpl insert.
    rewrite !join_cons2, Hj. done.
Qed.

Lemma make_key_inj syn dir param syn' dir' param' :
  sep_free "/" dir → sep_free "/" dir' →
  BaseConnectivity._make_key syn dir param = BaseConnectivity._make_key syn' dir' param' →
  syn = syn' ∧ dir = dir' ∧ param = param'.
Proof.
  intros Hd Hd' E. apply (f_equal (split "/")) in E.
  rewrite !make_key_split in E by done. injection E as E1 E2 E3.
  split_and!; [by apply (inj pretty)|done|].
  by rewrite <-(join_split "/" param), E3, join_split.
Qed.

(** ** [set] and [get] *)

Section set_and_get.
Import BaseConnectivity BaseConnectivityGet.
Implicit Types (c : t) (m : matrix).

Lemma set_eval source dest syn dir param val c :
  dir = "-" ∨ dir = "+" →
  set source dest syn dir param val c
  = let c1 := with_matrix syn dir param c in
    let key := _make_key syn dir param in
    match _data c1 !! key with
    | Some m =>
        match matrix_set source dest val m with
        | Ok m' => (Ok tt, set_data key m' c1)
        | Raise e => (Raise e, c1)
        | Blocks => (Blocks, c1)
        end
    | None => (Raise KeyError, c1)
    end.
Proof.
  intros Hd. unfold set, with_matrix, bind, gets, modify, ret, lift, raise. cbn zeta.
  rewrite decide_True by done.
  destruct (decide (_data c !! _make_key syn dir param = None)) as [Hn|Hn].
  - simpl.
    match goal with |- context [decide (?a < ?b)] => destruct (decide (a < b)) end;
      simpl; rewrite lookup_insert_eq; by destruct (matrix_set _ _ _ _).
  - destruct (_data c !! _) as [m|]; [|done].
    by destruct (matrix_set source dest val m).
Qed.

Lemma with_matrix_data syn dir param c k :
  _data (with_matrix syn dir param c) !! k
  = if decide (k = _make_key syn dir param ∧ _data c !! k = None)
    then Some (_make_matrix (shape c)) else _data c !! k.
Proof.
  unfold with_matrix. cbn zeta.
  destruct (decide (_data c !! _make_key syn dir param = None)) as [Hn|Hn].
  - assert (∀ c', _data (if decide (N_mult c' < syn + 1)
                        then set_N_mult (N_mult c' + 1) c' else c') = _data c') as ->
      by (intros; by case_decide).
    simpl. rewrite lookup_insert.
    destruct (decide (_make_key syn dir param = k)) as [<-|Hk].
    + by rewrite decide_True.
    + rewrite decide_False; [done|]. by intros [-> _].
  - rewrite decide_False; [done|]. by intros [-> ?].
Qed.

Lemma matrix_set_get i j v m m' :
  matrix_set i j v m = Ok m' → int64_ok v ∧ matrix_get i j m' = Ok v.
Proof.
  unfold matrix_set, matrix_get. case_decide as Hv; [|done].
  case_decide as Hr; [|done]. intros [= <-]. simpl. split; [done|].
  rewrite decide_True by done. f_equal.
  case_decide; [subst; by rewrite lookup_delete_eq|by rewrite lookup_insert_eq].
Qed.

Lemma matrix_set_get_ne i j v m m' i' j' :
  matrix_set i j v m = Ok m' → (i', j') ≠ (i, j) → matrix_get i' j' m' = matrix_get i' j' m.
Proof.
  unfold matrix_set, matrix_get. case_decide as Hv; [|done].
  case_decide as Hr; [|done]. intros [= <-] Hne. simpl.
  case_decide; [|done]. f_equal.
  case_decide; [by rewrite lookup_delete_ne|by rewrite lookup_insert_ne].
Qed.

(** X1.  A [set] of an integer that returns is read back by [get] with
    the same arguments, whatever the object held before and whether or
    not the call created the matrix; and the integer is within the
    64-bit range of the matrices, since outside it the write raises
    [OverflowError] and [set] does not return. *)
Theorem set_get source dest syn dir param val c c' :
  set source dest syn dir param val c = (Ok tt, c') →
  int64_ok val ∧ get source dest syn dir param c' = Ok val.
Proof.
  destruct (decide (dir = "-" ∨ dir = "+")) as [Hd|Hd].
  2:{ unfold set. by rewrite decide_False. }
  rewrite set_eval by done. cbn zeta.
  destruct (_data _ !! _) as [m|] eqn:Hm; [|done].
  destruct (matrix_set source dest val m) as [m'| |] eqn:Hs; [|done..].
  intros [= <-]. unfold get. rewrite decide_True by done. simpl.
  rewrite lookup_insert_eq. by eapply matrix_set_get.
Qed.

(** X2.  [set] writes one cell of one matrix: every other read gives what it
    gave before, except that a read of the matrix [set] has created now
    finds it. *)
Theorem set_get_other source dest syn dir param val c c' s' d' syn' dir' param' :
  set source dest syn dir param val c = (Ok tt, c') →
  ((syn', dir', param') ≠ (syn, dir, param) →
     get s' d' syn' dir' param' c' = get s' d' syn' dir' param' c) ∧
  ((s', d') ≠ (source, dest) → is_Some (_data c !! _make_key syn dir param) →
     get s' d' syn dir param c' = get s' d' syn dir param c).
Proof.
  destruct (decide (dir = "-" ∨ dir = "+")) as [Hd|Hd].
  2:{ unfold set. by rewrite decide_False. }
  assert (Hsf : sep_free "/" dir) by (destruct Hd as [-> | ->]; by repeat split).
  rewrite set_eval by done. cbn zeta.
  destruct (_data _ !! _) as [m|] eqn:Hm; [|done].
  destruct (matrix_set source dest val m) as [m'| |] eqn:Hs; [|done..].
  intros [= <-]. split.
  - intros Hne. unfold get. case_decide as Hd'; [|done].
    assert (Hk : _make_key syn' dir' param' ≠ _make_key syn dir param).
    { intros E. apply make_key_inj in E as (-> & -> & ->); [done| |done].
      destruct Hd' as [-> | ->]; by repeat split. }
    simpl. rewrite lookup_insert_ne by done. rewrite with_matrix_data.
    rewrite decide_False; [done|]. by intros [? _].
  - intros Hne [m0 Hm0]. unfold get. rewrite decide_True by done. simpl.
    rewrite lookup_insert_eq. rewrite with_matrix_data in Hm.
    rewrite decide_False in Hm by (intros [_ ?]; congruence).
    rewrite Hm, decide_True by done. by eapply matrix_set_get_ne.
Qed.
End set_and_get.

Section set_more.
Import BaseConnectivity BaseConnectivityGet.
Implicit Types (c : t) (m : matrix).

Lemma set_data_after source dest syn dir param val c k :
  dir = "-" ∨ dir = "+" →
  is_Some (_data (set source dest syn dir param val c).2 !! k)
  ↔ k = _make_key syn dir param ∨ is_Some (_data c !! k).
Proof.
  intros Hd. rewrite set_eval by done. cbn zeta.
  pose proof (with_matrix_data syn dir param c) as Hw.
  assert (Hkey : is_Some (_data (with_matrix syn dir param c) !! _make_key syn dir param)).
  { rewrite Hw. case_decide as H; [by eauto|].
    destruct (_data c !! _make_key syn dir param); [by eauto|]. by destruct H. }
  assert (Hall : is_Some (_data (with_matrix syn dir param c) !! k)
                 ↔ k = _make_key syn dir param ∨ is_Some (_data c !! k)).
  { split.
    - rewrite Hw. case_decide as H; [left; by destruct H|by right].
    - intros [->|Hk]; [done|]. rewrite Hw. case_decide; [by eauto|done]. }
  destruct Hkey as [m Hm]. rewrite Hm.
  destruct (matrix_set source dest val m) as [m'| |]; simpl; [|done..].
  rewrite lookup_insert. case_decide as Hk; [|done].
  subst k. split; [by left|by eauto].
Qed.

Lemma set_dims source dest syn dir param val c :
  N_src (set source dest syn dir param val c).2 = N_src c ∧
  N_dest (set source dest syn dir param val c).2 = N_dest c ∧
  id (set source dest syn dir param val c).2 = id c.
Proof.
  destruct (decide (dir = "-" ∨ dir = "+")) as [Hd|Hd].
  2:{ unfold set. by rewrite decide_False. }
  rewrite set_eval by done. cbn zeta.
  assert (N_src (with_matrix syn dir param c) = N_src c ∧
          N_dest (with_matrix syn dir param c) = N_dest c ∧
          id (with_matrix syn dir param c) = id c) as (H1 & H2 & H3).
  { unfold with_matrix. cbn zeta. repeat case_decide; done. }
  destruct (_data _ !! _) as [m|]; [|done].
  by destruct (matrix_set source dest val m).
Qed.

(** [set] keeps the invariant [transpose] relies on, however it ends. *)
Lemma set_conn_ok source dest syn dir param val c :
  conn_ok c → conn_ok (set source dest syn dir param val c).2.
Proof.
  destruct (decide (dir = "-" ∨ dir = "+")) as [Hd|Hd].
  2:{ unfold set. by rewrite decide_False. }
  intros (Hn & Hkeys & Hp & Hm).
  pose proof (set_dims source dest syn dir param val c) as (_ & Hnd & _).
  split_and!.
  - by rewrite Hnd.
  - intros k m Hk.
    assert (Hs : is_Some (_data (set source dest syn dir param val c).2 !! k)) by (eexists; exact Hk).
    apply set_data_after in Hs; [|done]. destruct Hs as [->|[m0 Hm0]].
    + by apply make_key_ok.
    + by apply (Hkeys k m0).
  - apply set_data_after; [done|by right].
  - apply set_data_after; [done|by right].
Qed.

Lemma sets_conn_ok calls c : conn_ok c → conn_ok (sets calls c).
Proof.
  revert c. induction calls as [|k calls IH]; intros c Hc; [done|].
  apply IH. by apply set_conn_ok.
Qed.

(** X6.  An object made by the constructor and changed by [set] calls only,
    failed calls included, can be transposed: [transpose] returns. *)
Theorem built_transposes u N_src N_dest N_mult c calls u' :
  __init__ u N_src N_dest N_mult = Ok c →
  ∃ c', transpose u' (sets calls c) = Ok c'.
Proof.
  intros Hc%init_conn_ok.
  destruct (transpose_data u' (sets calls c) (sets_conn_ok calls c Hc)) as (c' & Ht & _).
  by exists c'.
Qed.

(** X7.  What [transpose] makes of the cells: the cell [(s, d)] of a matrix
    is the cell [(d, s)] of the matrix with the same synapse index and
    parameter and the other direction. *)
Theorem transpose_get u c c' s d syn dir param :
  conn_ok c → transpose u c = Ok c' →
  get d s syn (flip_dir dir) param c' = get s d syn dir param c.
Proof.
  intros Hok Ht. destruct (transpose_data u c Hok) as (c1 & Ht' & _ & Hdata).
  rewrite Ht in Ht'. injection Ht' as <-.
  unfold get. destruct (decide (dir = "-" ∨ dir = "+")) as [Hd|Hd].
  2:{ rewrite decide_False; [done|].
      unfold flip_dir. repeat case_decide; naive_solver. }
  rewrite decide_True by (unfold flip_dir; destruct Hd as [-> | ->]; simpl; auto).
  rewrite Hdata, make_key_flip by (unfold flip_dir; destruct Hd as [-> | ->]; simpl; auto).
  assert (flip_dir (flip_dir dir) = dir) as -> by (by destruct Hd as [-> | ->]).
  destruct (_data c !! _make_key syn dir param) as [m|]; simpl; [|done].
  unfold matrix_get, matrix_T. simpl.
  destruct (mat_shape m) as [a b]. simpl.
  destruct (decide (s < a ∧ d < b)) as [Hr|Hr].
  - rewrite decide_True by lia. f_equal. f_equal.
    apply (lookup_kmap prod_swap (mat_cells m) (s, d)).
  - rewrite decide_False by lia. done.
Qed.



End set_more.

(** ** More of [_sync]: the receive loop on other inboxes *)

Section sync_more.
Import BaseModule.
Variable packb : ID * payload → string.
Variable unpackb : string → option (ID * payload).

Lemma filter_not_in_cons (i : ID) (l ids : list ID) :
  filter (λ j, j ∉ l) (filter (λ j, j ≠ i) ids) = filter (λ j, j ∉ i :: l) ids.
Proof.
  induction ids as [|j ids IH]; [done|].
  destruct (decide (j = i)) as [->|Hne].
  - rewrite (filter_cons_False _ i) by naive_solver.
    rewrite (filter_cons_False _ i) by set_solver. done.
  - rewrite (filter_cons_True (λ j, j ≠ i)) by done.
    destruct (decide (j ∈ l)).
    + rewrite !filter_cons_False by set_solver. done.
    + rewrite !filter_cons_True by set_solver. by rewrite IH.
Qed.

(** The loop on an inbox that starts with frames of different awaited
    peers: it consumes them and goes on with the peers that are left. *)
Lemma recv_loop_prefix n recv_ids frames decoded rest p :
  unpackb <$> frames = Some <$> decoded →
  NoDup recv_ids → NoDup decoded.*1 → decoded.*1 ⊆ recv_ids →
  length recv_ids ≤ n →
  sock_inbox p = frames ++ rest →
  recv_loop unpackb n recv_ids p
  = recv_loop unpackb (n - length decoded) (filter (λ i, i ∉ decoded.*1) recv_ids)
      (Proc (set_in_data (_in_data (self p) ++ filter non_none decoded) (self p))
         (sock_sent p) rest).
Proof.
  revert n recv_ids frames rest p.
  induction decoded as [|[i x] decoded IH];
    intros n recv_ids frames rest p Hdec Hnd Hndd Hsub Hn Hin.
  - destruct frames; [|done]. simpl in *.
    rewrite Nat.sub_0_r, filter_nil, app_nil_r.
    match goal with |- _ = recv_loop _ _ ?l _ => assert (l = recv_ids) as -> end.
    { clear. induction recv_ids as [|? ? IHr]; [done|].
      rewrite filter_cons_True by set_solver. by f_equal. }
    destruct p as [[] ??]; simpl in *; by subst.
  - destruct frames as [|b frames]; [done|]. simpl in Hdec.
    injection Hdec as Hb Hdec.
    assert (Hi : i ∈ recv_ids) by (apply Hsub; simpl; left).
    destruct recv_ids as [|r recv_ids]; [by apply elem_of_nil in Hi|].
    destruct n as [|n]; [simpl in Hn; lia|].
    destruct (list_remove i (r :: recv_ids)) as [ids'|] eqn:E;
      [|by apply list_remove_None in E].
    pose proof (list_remove_filter _ _ _ Hnd E) as Hids'.
    pose proof (list_remove_Some_perm _ _ _ E) as Hp.
    simpl in Hndd. apply NoDup_cons in Hndd as [Hni Hndd].
    assert (Hsub' : decoded.*1 ⊆ ids').
    { intros j Hj. rewrite Hids'. apply list_elem_of_filter. split.
      - intros ->. done.
      - apply Hsub. simpl. by right. }
    assert (Hlen : length ids' ≤ n).
    { apply Permutation_length in Hp. simpl in *. lia. }
    assert (Hnd' : NoDup ids') by (rewrite Hids'; by apply NoDup_filter).
    cbn [recv_loop]. unfold bind at 1, recv. rewrite Hin. cbn [app].
    unfold bind at 1, unpack. rewrite Hb. unfold ret at 1.
    unfold bind at 1, py_remove. rewrite E. unfold ret at 1.
    change (length ((i, x) :: decoded)) with (S (length decoded)).
    change (S n - S (length decoded)) with (n - length decoded).
    change (((i, x) :: decoded).*1) with (i :: decoded.*1).
    rewrite <-filter_not_in_cons, <-Hids'.
    destruct x as [s|].
    + unfold bind at 1, modify.
      erewrite (IH n ids' frames rest); [|done|done|done|done|done|reflexivity].
      rewrite filter_cons_True by done. simpl. by rewrite <-app_assoc.
    + unfold bind at 1, ret at 1.
      erewrite (IH n ids' frames rest); [|done|done|done|done|done|reflexivity].
      rewrite filter_cons_False by (unfold non_none; naive_solver). done.
Qed.

Lemma sync_recv_prefix p frames decoded rest :
  unpackb <$> frames = Some <$> decoded →
  NoDup decoded.*1 → decoded.*1 ⊆ in_ids (self p) →
  sock_inbox p = frames ++ rest →
  _sync_recv unpackb p
  = recv_loop unpackb (length (in_ids (self p)) - length decoded)
      (filter (λ i, i ∉ decoded.*1) (in_ids (self p)))
      (Proc (set_in_data (filter non_none decoded) (self p)) (sock_sent p) rest).
Proof.
  intros Hdec Hnd Hsub Hin. unfold _sync_recv. rewrite bind_gets, bind_modify.
  erewrite recv_loop_prefix; [|done|apply in_ids_NoDup|done|done|done|exact Hin].
  done.
Qed.

Lemma left_over (ids l : list ID) :
  ¬ ids ⊆ l → ∃ j rest, (filter (λ i, i ∉ l) ids = j :: rest) ∧ (j ∉ l) ∧ (j ∈ ids).
Proof.
  intros Hn. destruct (filter (λ i, i ∉ l) ids) as [|j rest] eqn:E.
  - destruct Hn. intros i Hi. destruct (decide (i ∈ l)) as [|Hil]; [done|].
    assert (i ∈ filter (λ i, i ∉ l) ids) as Hf by (by apply list_elem_of_filter).
    rewrite E in Hf. by apply elem_of_nil in Hf.
  - exists j, rest. split; [done|].
    assert (j ∈ filter (λ i, i ∉ l) ids) as Hf by (rewrite E; left).
    by apply list_elem_of_filter in Hf.
Qed.

Lemma left_over_fuel (ids l : list ID) :
  NoDup l → l ⊆ ids → ¬ ids ⊆ l → NoDup ids → length l < length ids.
Proof.
  intros Hl Hsub Hn Hids.
  destruct (decide (length ids ≤ length l)) as [Hle|]; [|lia].
  destruct Hn. apply (NoDup_submseteq _ _ Hl) in Hsub.
  pose proof (submseteq_length_Permutation _ _ Hsub Hle) as Hp.
  intros i Hi. by rewrite Hp.
Qed.

Lemma sync_recv_waits p decoded :
  unpackb <$> sock_inbox p = Some <$> decoded →
  NoDup decoded.*1 → decoded.*1 ⊆ in_ids (self p) →
  ¬ in_ids (self p) ⊆ decoded.*1 →
  _sync_recv unpackb p = (Blocks, received decoded [] p).
Proof.
  intros Hdec Hnd Hsub Hmiss.
  rewrite (sync_recv_prefix p (sock_inbox p) decoded []); [|done|done|done|by rewrite app_nil_r].
  destruct (left_over _ _ Hmiss) as (j & rest & -> & _).
  pose proof (left_over_fuel _ _ Hnd Hsub Hmiss (in_ids_NoDup _)) as Hlt.
  rewrite length_fmap in Hlt.
  destruct (length (in_ids (self p)) - length decoded) as [|k] eqn:Ek; [lia|].
  reflexivity.
Qed.

Lemma sync_recv_unexpected p frames decoded b i x rest :
  sock_inbox p = frames ++ b :: rest →
  unpackb <$> frames = Some <$> decoded →
  NoDup decoded.*1 → decoded.*1 ⊆ in_ids (self p) →
  ¬ in_ids (self p) ⊆ decoded.*1 →
  unpackb b = Some (i, x) →
  i ∉ in_ids (self p) ∨ i ∈ decoded.*1 →
  _sync_recv unpackb p = (Raise ValueError, received decoded rest p).
Proof.
  intros Hin Hdec Hnd Hsub Hmiss Hb Hi.
  rewrite (sync_recv_prefix p frames decoded (b :: rest)) by done.
  destruct (left_over _ _ Hmiss) as (j & ids & E & _).
  pose proof (left_over_fuel _ _ Hnd Hsub Hmiss (in_ids_NoDup _)) as Hlt.
  rewrite length_fmap in Hlt.
  destruct (length (in_ids (self p)) - length decoded) as [|k] eqn:Ek; [lia|].
  rewrite E. cbn [recv_loop]. unfold bind at 1, recv. cbn.
  unfold bind at 1, unpack. rewrite Hb. unfold ret at 1.
  unfold bind at 1, py_remove.
  assert (list_remove i (j :: ids) = None) as ->; [|done].
  apply list_remove_None. rewrite <-E. intros [? ?]%list_elem_of_filter. naive_solver.
Qed.

Lemma sync_then_recv p :
  net (self p) = net_in ∨ (net (self p) = net_full ∧ out_buffer_ok (self p)) →
  ∃ sent, _sync packb unpackb p
          = _sync_recv unpackb (Proc (self p) sent (sock_inbox p)).
Proof.
  rewrite sync_unfold. intros [Hn|[Hn [Hnd Hsub]]]; rewrite Hn.
  - exists (sock_sent p). by destruct p.
  - eexists. unfold bind. by rewrite (sync_send_ok packb p Hnd Hsub).
Qed.

(** X8.  The barrier: while the frame of some peer is missing, [_sync] does
    not return.  It has consumed the frames that did arrive and stored
    their data. *)
Theorem sync_waits_for_every_peer p decoded :
  net (self p) = net_in ∨ (net (self p) = net_full ∧ out_buffer_ok (self p)) →
  unpackb <$> sock_inbox p = Some <$> decoded →
  NoDup decoded.*1 → decoded.*1 ⊆ in_ids (self p) →
  ¬ in_ids (self p) ⊆ decoded.*1 →
  ∃ p', _sync packb unpackb p = (Blocks, p') ∧
        sock_inbox p' = [] ∧
        _in_data (self p') = filter non_none decoded.
Proof.
  intros Hn Hdec Hnd Hsub Hmiss. destruct (sync_then_recv p Hn) as [sent ->].
  rewrite (sync_recv_waits _ decoded) by done. by eexists.
Qed.

(** X9.  A frame from a module that is not awaited, either because it is no
    peer or because its frame of this step has arrived already, makes
    [_sync] fail with the [ValueError] of [recv_ids.remove]; the data of
    that frame is not stored. *)
Theorem sync_unexpected_source p frames decoded b i x rest :
  net (self p) = net_in ∨ (net (self p) = net_full ∧ out_buffer_ok (self p)) →
  sock_inbox p = frames ++ b :: rest →
  unpackb <$> frames = Some <$> decoded →
  NoDup decoded.*1 → decoded.*1 ⊆ in_ids (self p) →
  ¬ in_ids (self p) ⊆ decoded.*1 →
  unpackb b = Some (i, x) →
  i ∉ in_ids (self p) ∨ i ∈ decoded.*1 →
  ∃ p', _sync packb unpackb p = (Raise ValueError, p') ∧
        sock_inbox p' = rest ∧
        _in_data (self p') = filter non_none decoded.
Proof.
  intros Hn Hin Hdec Hnd Hsub Hmiss Hb Hi. destruct (sync_then_recv p Hn) as [sent ->].
  rewrite (sync_recv_unexpected _ frames decoded b i x rest) by done. by eexists.
Qed.

(** X10.  For a module in net mode ['out'], [_sync] returns exactly when the
    outbound buffer names every destination at most once and only
    destinations of [out_ids]. *)
Theorem sync_out_returns_iff p :
  net (self p) = net_out →
  (∃ p', _sync packb unpackb p = (Ok tt, p')) ↔ out_buffer_ok (self p).
Proof.
  intros Hn. rewrite sync_unfold, Hn. unfold bind. split.
  - intros [p' H].
    destruct (decide (NoDup (_out_data (self p)).*1 ∧
                      (_out_data (self p)).*1 ⊆ out_ids (self p))) as [|Hno]; [done|].
    destruct (sync_send_fail packb p Hno) as [sent Hf]. by rewrite Hf in H.
  - intros [Hnd Hsub]. rewrite (sync_send_ok packb p Hnd Hsub). by eexists.
Qed.
End sync_more.

(** ** The example module class *)

Section my_module.
Import BaseModule MyModule.
Variable packb : ID * payload → string.
Variable unpackb : string → option (ID * payload).

Lemma put_loop_eval draw k ids m :
  put_loop draw k ids m
  = (Ok tt, set_out_data (_out_data m ++ imap (λ j i, (i, Some (draw (k + j)))) ids) m).
Proof.
  revert k m. induction ids as [|i ids IH]; intros k m.
  - simpl. unfold ret. rewrite app_nil_r. by destruct m.
  - cbn [put_loop]. rewrite bind_modify, IH. unfold set_out_data. simpl.
    rewrite <-app_assoc. simpl. rewrite Nat.add_0_r.
    assert (imap (λ j i0, (i0, Some (draw (S (k + j))))) ids
            = imap ((λ j i0, (i0, Some (draw (k + j)))) ∘ S) ids) as ->; [|done].
    apply imap_ext. intros j x _. simpl. do 3 f_equal. lia.
Qed.

Lemma put_out_data_eval draw m :
  net m = net_out ∨ net m = net_full →
  _put_out_data draw m = (Ok tt, set_out_data (drawn draw (out_ids m)) m).
Proof.
  intros Hn. unfold _put_out_data. rewrite bind_gets.
  rewrite decide_True by (destruct Hn as [-> | ->]; set_solver).
  rewrite bind_modify, bind_gets, put_loop_eval. done.
Qed.

Lemma imap_fst {A B} (f : nat → A → A * B) (l : list A) :
  (∀ k i, (f k i).1 = i) → (imap f l).*1 = l.
Proof.
  revert f. induction l as [|i l IH]; intros f Hf; [done|].
  simpl. rewrite Hf. f_equal. apply IH. intros k j. apply Hf.
Qed.

Lemma filter_not_in_self (l l' : list ID) :
  l ⊆ l' → filter (λ d, d ∉ l') l = [].
Proof.
  induction l as [|d l IH]; intros Hsub; [done|].
  rewrite filter_cons_False by set_solver. apply IH. set_solver.
Qed.

Lemma drawn_fst draw ids : (drawn draw ids).*1 = ids.
Proof. by apply imap_fst. Qed.

(** The buffer [MyModule._put_out_data] builds passes the checks of the
    send phase. *)
Lemma put_out_data_ok draw m :
  net m = net_out ∨ net m = net_full →
  out_buffer_ok (_put_out_data draw m).2.
Proof.
  intros Hn. rewrite put_out_data_eval by done. unfold out_buffer_ok. simpl.
  rewrite drawn_fst. split; [apply out_ids_NoDup|done].
Qed.

(** X11.  One iteration of a [MyModule] in net mode ['out'] or ['full'] sends
    one frame to every destination, each with data: no [None] token is
    sent, and the send phase does not fail. *)
Theorem my_module_sends_data draw p :
  net (self p) = net_out ∨ net (self p) = net_full →
  sock_sent (run_iteration packb unpackb draw p).2
  = sock_sent p ++ (packb <$> drawn draw (out_ids (self p))) ∧
  (net (self p) = net_out →
   run_iteration packb unpackb draw p
   = (Ok tt, Proc (set_out_data (drawn draw (out_ids (self p))) (self p))
               (sock_sent p ++ (packb <$> drawn draw (out_ids (self p))))
               (sock_inbox p))).
Proof.
  intros Hn. unfold run_iteration, call_self, bind.
  rewrite put_out_data_eval by done.
  set (m' := set_out_data _ _). set (p1 := Proc m' _ _).
  assert (Hnd : NoDup (_out_data (self p1)).*1).
  { simpl. rewrite drawn_fst. apply out_ids_NoDup. }
  assert (Hsub : (_out_data (self p1)).*1 ⊆ out_ids (self p1)).
  { simpl. by rewrite drawn_fst. }
  assert (Hnone : none_frames packb (_out_data (self p1)).*1 (out_ids (self p1)) = []).
  { unfold none_frames. simpl. rewrite drawn_fst, filter_not_in_self; done. }
  rewrite sync_unfold.
  pose proof (sync_send_ok packb p1 Hnd Hsub) as Hs. rewrite Hnone, app_nil_r in Hs.
  split.
  - destruct Hn as [Hn|Hn]; simpl; rewrite Hn; unfold bind; rewrite Hs; [done|].
    match goal with |- sock_sent (_sync_recv _ ?q).2 = _ =>
      by rewrite (keeps_sync_recv unpackb same_sent) with (s := q) end.
  - intros Hn'. simpl. rewrite Hn'. unfold bind. by rewrite Hs.
Qed.
End my_module.

(** ** Broker rounds as a whole *)

Section rounds.
Import Broker.
Variable packb : ID * payload → string.
Variable unpackb : string → option (ID * payload).

Lemma for_each_app {S A} (l1 l2 : list A) (f : A → M S unit) s s1 :
  for_each l1 f s = (Ok tt, s1) → for_each (l1 ++ l2) f s = for_each l2 f s1.
Proof.
  revert s. induction l1 as [|x l1 IH]; intros s; simpl.
  - by intros [= <-].
  - unfold bind. destruct (f x s) as [[[]| |] s']; [|done..]. apply IH.
Qed.

Lemma handle_partial es rest p :
  Forall (decodes packb unpackb) es →
  (coord <$> es) ++ rest ≡ₚ recv_coords_list (self p) → rest ≠ [] →
  ∃ rest', rest' ≡ₚ rest ∧
    for_each (wire packb <$> es) (_data_handler packb unpackb) p
    = (Ok tt, Proc (set_recv_coords_list rest'
                      (set_data_to_route (data_to_route (self p) ++ es) (self p)))
                (sock_sent p)).
Proof.
  revert p. induction es as [|[[i o] d] es IH]; intros p Hdec Hperm Hrest.
  - exists (recv_coords_list (self p)). split; [done|].
    simpl. rewrite app_nil_r. by destruct p as [[] ?].
  - apply Forall_cons in Hdec as [He Hdec]. simpl in Hperm.
    unfold decodes in He. simpl in He.
    assert (Hin : (i, o) ∈ recv_coords_list (self p)) by (rewrite <-Hperm; left).
    destruct (list_remove (i, o) (recv_coords_list (self p))) as [l|] eqn:E;
      [|by apply list_remove_None in E].
    pose proof (list_remove_Some_perm _ _ _ E) as Hp.
    assert (Hl : (coord <$> es) ++ rest ≡ₚ l).
    { apply (Permutation_cons_inv (a := (i, o))). by rewrite <-Hp. }
    assert (Hne : l ≠ []).
    { intros ->. apply Permutation_nil_r in Hl. apply app_eq_nil in Hl as [_ ?]. done. }
    cbn [fmap list_fmap for_each wire]. unfold bind at 1.
    rewrite (data_handler_eval packb unpackb p i _ o d He). cbn zeta. rewrite E.
    destruct l as [|c l]; [done|].
    set (p1 := Proc _ _).
    destruct (IH p1 Hdec) as (rest' & Hr & ->); [done|done|].
    exists rest'. split; [done|]. unfold p1. simpl. by rewrite <-app_assoc.
Qed.

Lemma handle_round es p :
  es ≠ [] → Forall (decodes packb unpackb) es →
  coord <$> es ≡ₚ recv_coords_list (self p) →
  for_each (wire packb <$> es) (_data_handler packb unpackb) p
  = (Ok tt, Proc (round_reset (self p))
              (sock_sent p ++ (routed packb <$> (data_to_route (self p) ++ es)))).
Proof.
  intros Hne Hdec Hperm.
  destruct (exists_last Hne) as (es' & [[i o] d] & ->).
  apply Forall_app in Hdec as [Hdec He]. rewrite Forall_singleton in He.
  unfold decodes in He. simpl in He.
  rewrite fmap_app in Hperm. simpl in Hperm.
  destruct (handle_partial es' [(i, o)] p Hdec Hperm) as (rest' & Hr & H); [done|].
  apply Permutation_singleton_r in Hr as ->.
  rewrite fmap_app. rewrite (for_each_app _ _ _ _ _ H).
  cbn [fmap list_fmap for_each wire]. unfold bind.
  rewrite (data_handler_eval packb unpackb _ i _ o d He). cbn zeta. simpl.
  rewrite decide_True by done. unfold ret. by rewrite app_assoc.
Qed.

Lemma handle_rounds rounds p :
  data_to_route (self p) = [] →
  recv_coords_list (self p) = RoutingTable.coords (routing_table (self p)) →
  Forall (λ r, coord <$> r ≡ₚ RoutingTable.coords (routing_table (self p))) rounds →
  Forall (decodes packb unpackb) (concat rounds) →
  for_each (wire packb <$> concat rounds) (_data_handler packb unpackb) p
  = (Ok tt, Proc (self p) (sock_sent p ++ (routed packb <$> concat rounds))).
Proof.
  revert p. induction rounds as [|r rounds IH]; intros p Hd Hc Hr Hdec.
  - simpl. unfold ret. rewrite app_nil_r. by destruct p.
  - apply Forall_cons in Hr as [Hr Hrs]. simpl in Hdec.
    apply Forall_app in Hdec as [Hdr Hdec]. simpl.
    destruct (decide (r = [])) as [->|Hne].
    { simpl. by apply IH. }
    rewrite fmap_app.
    erewrite for_each_app; [|apply handle_round; [done|done|by rewrite Hc]].
    assert (Hreset : round_reset (self p) = self p).
    { unfold round_reset. rewrite <-Hc, <-Hd. by destruct (self p). }
    rewrite Hreset, Hd. simpl.
    rewrite (IH (Proc (self p) _)); [|done..].
    simpl. by rewrite fmap_app, app_assoc.
Qed.

Lemma run_constructed uid pd pc rt b0 msgs :
  __init__ uid pd pc (Some rt) = Ok b0 →
  run packb unpackb msgs (Proc b0 [])
  = for_each msgs (_data_handler packb unpackb) (Proc b0 []) ∧
  routing_table b0 = rt ∧ data_to_route b0 = [] ∧
  recv_coords_list b0 = RoutingTable.coords rt.
Proof.
  unfold __init__. case_decide; [done|]. intros [= <-]. done.
Qed.

(** X13.  A broker that receives round after round, each a message for every
    edge of the routing table in any order, forwards every entry once
    and in the order of arrival, and is left as it was constructed. *)
Theorem broker_rounds uid pd pc rt b0 rounds :
  __init__ uid pd pc (Some rt) = Ok b0 →
  Forall (λ r, coord <$> r ≡ₚ RoutingTable.coords rt) rounds →
  Forall (decodes packb unpackb) (concat rounds) →
  run packb unpackb (wire packb <$> concat rounds) (Proc b0 [])
  = (Ok tt, Proc b0 (routed packb <$> concat rounds)).
Proof.
  intros Hb Hr Hdec.
  destruct (run_constructed _ _ _ _ _ (wire packb <$> concat rounds) Hb)
    as (-> & Hrt & Hd & Hc).
  rewrite (handle_rounds rounds (Proc b0 [])); simpl; [done|done| |by rewrite Hrt|done].
  by rewrite Hrt.
Qed.

(** X14.  While a round is incomplete the broker forwards nothing of it: after
    complete rounds and then messages for some but not all edges, only
    the entries of the complete rounds have been sent, and the others
    are pending. *)
Theorem broker_holds_incomplete_round uid pd pc rt b0 rounds es rest :
  __init__ uid pd pc (Some rt) = Ok b0 →
  Forall (λ r, coord <$> r ≡ₚ RoutingTable.coords rt) rounds →
  (coord <$> es) ++ rest ≡ₚ RoutingTable.coords rt → rest ≠ [] →
  Forall (decodes packb unpackb) (concat rounds ++ es) →
  ∃ p, run packb unpackb (wire packb <$> (concat rounds ++ es)) (Proc b0 []) = (Ok tt, p) ∧
       sock_sent p = routed packb <$> concat rounds ∧
       data_to_route (self p) = es ∧
       recv_coords_list (self p) ≡ₚ rest.
Proof.
  intros Hb Hr Hperm Hrest Hdec.
  destruct (run_constructed _ _ _ _ _ (wire packb <$> (concat rounds ++ es)) Hb)
    as (-> & Hrt & Hd & Hc).
  apply Forall_app in Hdec as [Hdr Hde].
  rewrite fmap_app.
  erewrite for_each_app;
    [|apply (handle_rounds rounds (Proc b0 [])); simpl; [done|by rewrite Hrt| |done];
      by rewrite Hrt].
  simpl.
  destruct (handle_partial es rest (Proc b0 (routed packb <$> concat rounds)) Hde)
    as (rest' & Hr' & ->); [simpl; by rewrite Hc|done|].
  eexists. split; [done|]. simpl. by rewrite Hd.
Qed.
End rounds.

(** ** From the broker to the modules *)

Section delivery.
Import BaseModule.
Variable packb : ID * payload → string.
Variable unpackb : string → option (ID * payload).

Lemma delivered_routed i r :
  delivered i (Broker.routed packb <$> r) = packb <$> inbound i r.
Proof.
  unfold delivered, inbound. induction r as [|[[s d] x] r IH]; [done|].
  rewrite fmap_cons. cbn [omap list_omap Broker.routed]. rewrite IH.
  destruct (decide (d = i)) as [->|Hne].
  - rewrite filter_cons_True by done. done.
  - rewrite filter_cons_False by done. done.
Qed.

Lemma elem_of_inbound_fst i r s :
  s ∈ (inbound i r).*1 ↔ (s, i) ∈ coord <$> r.
Proof.
  unfold inbound. rewrite <-list_fmap_compose. rewrite !list_elem_of_fmap. split.
  - intros ([[s' d] x] & -> & Hf). apply list_elem_of_filter in Hf as [He Hr].
    simpl in He. subst d. by exists (s', i, x).
  - intros ([[s' d] x] & [= -> ->] & He). exists (s', d, x). split; [done|].
    by apply list_elem_of_filter.
Qed.

Lemma inbound_NoDup i r : NoDup (coord <$> r) → NoDup (inbound i r).*1.
Proof.
  unfold inbound. induction r as [|[[s d] x] r IH]; [constructor|].
  cbn [fmap list_fmap]. intros [Hn Hnd]%NoDup_cons.
  destruct (decide (d = i)) as [->|Hne].
  - rewrite filter_cons_True by done. cbn [fmap list_fmap]. apply NoDup_cons. split; [|by apply IH].
    intros Hin. apply Hn. by apply elem_of_inbound_fst.
  - rewrite filter_cons_False by done. by apply IH.
Qed.

(** X15.  What the broker sends at the end of a round lets every receiving
    module through the barrier: a module whose peers are the sources of
    the table's edges into it finds one frame of each, [_sync] returns,
    and [_in_data] holds the data sent to the module, in the order the
    broker received it. *)
Theorem broker_round_feeds_sync p rt r :
  net (self p) = net_in ∨ (net (self p) = net_full ∧ out_buffer_ok (self p)) →
  NoDup (RoutingTable.coords rt) →
  coord <$> r ≡ₚ RoutingTable.coords rt →
  (∀ s, s ∈ in_ids (self p) ↔ (s, id (self p)) ∈ RoutingTable.coords rt) →
  Forall (λ x, unpackb (packb x) = Some x) (inbound (id (self p)) r) →
  sock_inbox p = delivered (id (self p)) (Broker.routed packb <$> r) →
  ∃ p', _sync packb unpackb p = (Ok tt, p') ∧
        sock_inbox p' = [] ∧
        _in_data (self p') = filter non_none (inbound (id (self p)) r).
Proof.
  intros Hn Hnd Hperm Hids Hdec Hin.
  destruct (sync_then_recv packb unpackb p Hn) as [sent ->].
  rewrite delivered_routed in Hin.
  rewrite (sync_recv_ok unpackb _ (packb <$> inbound (id (self p)) r) []
             (inbound (id (self p)) r)).
  - by eexists.
  - simpl. by rewrite app_nil_r.
  - rewrite <-list_fmap_compose. apply list_eq. intros k.
    rewrite !list_lookup_fmap.
    destruct (inbound (id (self p)) r !! k) as [x|] eqn:E; [|done]. simpl. f_equal.
    by apply (proj1 (Forall_lookup _ _) Hdec k x).
  - simpl. apply NoDup_Permutation.
    + apply inbound_NoDup. by rewrite Hperm.
    + apply in_ids_NoDup.
    + intros s. by rewrite elem_of_inbound_fst, Hperm, Hids.
Qed.
End delivery.

(** ** More of [connect] *)

Section connect_more.
Import BaseManager.
Implicit Types (w : world) (a src dest : positive) (c : BaseConnectivity.t)
  (h : gmap positive BaseModule.t).

(** *** How a call that returns has run *)

Lemma connect_ok_shape m_src m_dest conn dir w w' :
  connect m_src m_dest conn dir w = (Ok tt, w') →
  ∃ src dest c ms md,
    m_src = ObjModule src ∧ m_dest = ObjModule dest ∧ conn = ObjConn c ∧
    heap w !! src = Some ms ∧ heap w !! dest = Some md ∧
    let sid := BaseModule.id ms in
    let did := BaseModule.id md in
    let s0 := registered src dest c sid did (man w) in
    let n := uid_count w in
    (dir = "+" ∧ ∃ cT, BaseConnectivity.transpose (pretty n) c = Ok cT ∧
       w' = World (alter (wired cT "in" sid) dest (heap_plus_1 src dest c did (heap w)))
              (routed_edge (sid, did) s0) (S n)) ∨
    (dir = "-" ∧ ∃ cT, BaseConnectivity.transpose (pretty n) c = Ok cT ∧
       w' = World (alter (wired cT "out" sid) dest (heap_minus_1 src dest c did (heap w)))
              (routed_edge (did, sid) s0) (S n)) ∨
    (dir = "=" ∧ ∃ cT cT', BaseConnectivity.transpose (pretty n) c = Ok cT ∧
       BaseConnectivity.transpose (pretty (S n)) c = Ok cT' ∧
       w' = World (heap_both src dest c cT cT' sid did (heap w))
              (routed_edge (did, sid) (routed_edge (sid, did) s0)) (S (S n))).
Proof.
  intros H.
  assert (Hinv : (∀ src dest c ms md, m_src = ObjModule src → m_dest = ObjModule dest →
                    conn = ObjConn c → heap w !! src = Some ms →
                    heap w !! dest = Some md → False) → False).
  { intros Hinv. by rewrite connect_invalid in H. }
  destruct m_src as [src|x1| |x2]; try (destruct Hinv; discriminate).
  destruct m_dest as [dest|x1| |x2]; try (destruct Hinv; discriminate).
  destruct conn as [x1|c| |x2]; try (destruct Hinv; discriminate).
  destruct (heap w !! src) as [ms|] eqn:Hs; [|destruct Hinv; congruence].
  destruct (heap w !! dest) as [md|] eqn:Hd; [|destruct Hinv; congruence].
  clear Hinv. exists src, dest, c, ms, md. split_and!; try done. cbn zeta.
  rewrite (connect_eval _ _ _ _ _ _ _ Hs Hd) in H.
  set (sid := BaseModule.id ms) in *. set (did := BaseModule.id md) in *.
  set (w1 := on_man (registered src dest c sid did) w) in *.
  assert (Hs1 : is_Some (heap w1 !! src)) by (cbn; eauto).
  assert (Hd1 : is_Some (heap w1 !! dest)) by (cbn; eauto).
  destruct (decide (dir = "+")) as [->|Hp].
  { left. split; [done|]. rewrite update_plus_eval in H by done. cbn zeta in H.
    change (uid_count w1) with (uid_count w) in H.
    destruct (BaseConnectivity.transpose (pretty (uid_count w)) c) as [cT|e|]; [|done..].
    exists cT. split; [done|]. by injection H as <-. }
  destruct (decide (dir = "-")) as [->|Hm].
  { right; left. split; [done|]. rewrite update_minus_eval in H by done. cbn zeta in H.
    change (uid_count w1) with (uid_count w) in H.
    destruct (BaseConnectivity.transpose (pretty (uid_count w)) c) as [cT|e|]; [|done..].
    exists cT. split; [done|]. by injection H as <-. }
  destruct (decide (dir = "=")) as [->|Hb].
  { right; right. split; [done|]. rewrite update_both_eval in H by done. cbn zeta in H.
    change (uid_count w1) with (uid_count w) in H.
    destruct (BaseConnectivity.transpose (pretty (uid_count w)) c) as [cT|e|]; [|done..].
    destruct (BaseConnectivity.transpose (pretty (S (uid_count w))) c) as [cT'|e|]; [|done..].
    exists cT, cT'. split_and!; [done|done|]. by injection H as <-. }
  unfold connect_update in H. by rewrite !decide_False in H by done.
Qed.

Lemma add_absent_some {V} (m : gmap ID V) i v :
  is_Some ((if decide (m !! i = None) then <[i := v]> m else m) !! i).
Proof.
  case_decide as H; [rewrite lookup_insert_is_Some; by auto|].
  by apply not_eq_None_Some in H.
Qed.

Lemma add_absent_mono {V} (m : gmap ID V) i v j :
  is_Some (m !! j) → is_Some ((if decide (m !! i = None) then <[i := v]> m else m) !! j).
Proof.
  intros Hj. case_decide as H; [|done]. rewrite lookup_insert_is_Some.
  destruct (decide (i = j)); by auto.
Qed.

Lemma connect_valid_returns src dest c dir w :
  is_Some (heap w !! src) → is_Some (heap w !! dest) → conn_ok c →
  dir = "+" ∨ dir = "-" ∨ dir = "=" →
  ∃ w', connect (ObjModule src) (ObjModule dest) (ObjConn c) dir w = (Ok tt, w').
Proof.
  intros [ms Hs] [md Hd] Hc Hdir.
  rewrite (connect_eval _ _ _ _ _ _ _ Hs Hd).
  set (w1 := on_man _ w).
  assert (Hs1 : is_Some (heap w1 !! src)) by (cbn; eauto).
  assert (Hd1 : is_Some (heap w1 !! dest)) by (cbn; eauto).
  destruct (transpose_data (pretty (uid_count w1)) c Hc) as (cT & HT & _).
  destruct (transpose_data (pretty (S (uid_count w1))) c Hc) as (cT' & HT' & _).
  destruct Hdir as [->|[->| ->]].
  - rewrite update_plus_eval by done. cbn zeta. rewrite HT. by eexists.
  - rewrite update_minus_eval by done. cbn zeta. rewrite HT. by eexists.
  - rewrite update_both_eval by done. cbn zeta. rewrite HT, HT'. by eexists.
Qed.

(** X16.  [connect] returns when it is given two module objects, a
    connectivity object made by the constructor and changed by [set]
    calls only, and one of the three directions. *)
Theorem connect_returns src dest u N_src N_dest N_mult c0 calls dir w :
  is_Some (heap w !! src) → is_Some (heap w !! dest) →
  BaseConnectivity.__init__ u N_src N_dest N_mult = Ok c0 →
  dir = "+" ∨ dir = "-" ∨ dir = "=" →
  ∃ w', connect (ObjModule src) (ObjModule dest) (ObjConn (sets calls c0)) dir w
        = (Ok tt, w').
Proof.
  intros Hs Hd Hc Hdir. apply connect_valid_returns; [done|done| |done].
  apply sets_conn_ok. by eapply init_conn_ok.
Qed.

(** X17.  A direction other than ['+'], ['-'] and ['='] is found out after the
    registration: the call raises [ValueError], and the two modules and
    the connectivity object are in the manager's dictionaries.  The
    module objects and the routing table are as before. *)
Theorem connect_bad_direction src dest c dir w ms md :
  heap w !! src = Some ms → heap w !! dest = Some md →
  dir ≠ "+" → dir ≠ "-" → dir ≠ "=" →
  ∃ w', connect (ObjModule src) (ObjModule dest) (ObjConn c) dir w = (Raise ValueError, w') ∧
        heap w' = heap w ∧
        routing_table (man w') = routing_table (man w) ∧
        is_Some (mod_dict (man w') !! BaseModule.id ms) ∧
        is_Some (mod_dict (man w') !! BaseModule.id md) ∧
        is_Some (conn_dict (man w') !! BaseConnectivity.id c).
Proof.
  intros Hs Hd Hp Hm Hb. rewrite (connect_eval _ _ _ _ _ _ _ Hs Hd).
  unfold connect_update. rewrite !decide_False by done.
  eexists. split; [reflexivity|]. cbn. split_and!; [done|done|..].
  - apply add_absent_mono, add_absent_some.
  - apply add_absent_some.
  - apply add_absent_some.
Qed.
End connect_more.

(** *** The routing table and the wiring *)

Section wiring.
Import BaseManager.
Implicit Types (w : world) (a src dest : positive) (c : BaseConnectivity.t)
  (h : gmap positive BaseModule.t) (m : BaseModule.t).

Lemma elem_of_in_ids m s :
  s ∈ BaseModule.in_ids m ↔ is_Some (BaseModule.conn_in (BaseModule.conn_dict m) !! s).
Proof.
  unfold BaseModule.in_ids. rewrite list_elem_of_fmap. split.
  - intros ([k v] & -> & H%elem_of_map_to_list). by eexists.
  - intros [v H]. exists (s, v). split; [done|]. by apply elem_of_map_to_list.
Qed.

Lemma elem_of_out_ids m s :
  s ∈ BaseModule.out_ids m ↔ is_Some (BaseModule.conn_out (BaseModule.conn_dict m) !! s).
Proof.
  unfold BaseModule.out_ids. rewrite list_elem_of_fmap. split.
  - intros ([k v] & -> & H%elem_of_map_to_list). by eexists.
  - intros [v H]. exists (s, v). split; [done|]. by apply elem_of_map_to_list.
Qed.

Lemma wired_in_eq c i m :
  wired c "in" i m
  = BaseModule.set_conn_dict
      (BaseModule.ConnDict (<[i := c]> (BaseModule.conn_in (BaseModule.conn_dict m)))
         (BaseModule.conn_out (BaseModule.conn_dict m))) m.
Proof. reflexivity. Qed.

Lemma wired_out_eq c i m :
  wired c "out" i m
  = BaseModule.set_conn_dict
      (BaseModule.ConnDict (BaseModule.conn_in (BaseModule.conn_dict m))
         (<[i := c]> (BaseModule.conn_out (BaseModule.conn_dict m)))) m.
Proof. reflexivity. Qed.

Lemma wired_in_peers c i m :
  (∀ s, s ∈ BaseModule.in_ids (wired c "in" i m) ↔ s ∈ BaseModule.in_ids m ∨ s ∈ [i]) ∧
  (∀ d, d ∈ BaseModule.out_ids (wired c "in" i m) ↔ d ∈ BaseModule.out_ids m ∨ d ∈ []).
Proof.
  rewrite wired_in_eq. split; intros s.
  - rewrite !elem_of_in_ids. cbn. rewrite lookup_insert_is_Some'. set_solver.
  - rewrite !elem_of_out_ids. cbn. set_solver.
Qed.

Lemma wired_out_peers c i m :
  (∀ s, s ∈ BaseModule.in_ids (wired c "out" i m) ↔ s ∈ BaseModule.in_ids m ∨ s ∈ []) ∧
  (∀ d, d ∈ BaseModule.out_ids (wired c "out" i m) ↔ d ∈ BaseModule.out_ids m ∨ d ∈ [i]).
Proof.
  rewrite wired_out_eq. split; intros s.
  - rewrite !elem_of_in_ids. cbn. set_solver.
  - rewrite !elem_of_out_ids. cbn. rewrite lookup_insert_is_Some'. set_solver.
Qed.

Lemma grown_refl h : grown no_peers no_peers h h.
Proof.
  intros x. destruct (h !! x); [|done]. unfold no_peers. set_solver.
Qed.

Lemma grown_alter_in c i a ins outs h h' :
  grown ins outs h h' →
  grown (peer_at a i ins) outs h (alter (wired c "in" i) a h').
Proof.
  intros H x. specialize (H x). unfold peer_at.
  destruct (decide (x = a)) as [->|Hne].
  - rewrite lookup_alter_eq. destruct (h !! a), (h' !! a) as [m'|]; cbn [fmap option_fmap option_map]; try done.
    destruct H as (Hi & Hin & Hout). destruct (wired_in_peers c i m') as [Hwi Hwo].
    split_and!.
    + by rewrite wired_id.
    + intros s. rewrite Hwi, Hin. set_solver.
    + intros d. rewrite Hwo, Hout. set_solver.
  - by rewrite lookup_alter_ne.
Qed.

Lemma grown_alter_out c i a ins outs h h' :
  grown ins outs h h' →
  grown ins (peer_at a i outs) h (alter (wired c "out" i) a h').
Proof.
  intros H x. specialize (H x). unfold peer_at.
  destruct (decide (x = a)) as [->|Hne].
  - rewrite lookup_alter_eq. destruct (h !! a), (h' !! a) as [m'|]; cbn [fmap option_fmap option_map]; try done.
    destruct H as (Hi & Hin & Hout). destruct (wired_out_peers c i m') as [Hwi Hwo].
    split_and!.
    + by rewrite wired_id.
    + intros s. rewrite Hwi, Hin. set_solver.
    + intros d. rewrite Hwo, Hout. set_solver.
  - by rewrite lookup_alter_ne.
Qed.

Lemma grown_alter_net (f : BaseModule.t → BaseModule.t) a ins outs h h' :
  (∀ m, BaseModule.id (f m) = BaseModule.id m ∧
        BaseModule.conn_dict (f m) = BaseModule.conn_dict m) →
  grown ins outs h h' → grown ins outs h (alter f a h').
Proof.
  intros Hf H x. specialize (H x).
  destruct (decide (x = a)) as [->|Hne].
  - rewrite lookup_alter_eq. destruct (h !! a), (h' !! a) as [m'|]; cbn [fmap option_fmap option_map]; try done.
    destruct (Hf m') as [Hid Hcd]. unfold BaseModule.in_ids, BaseModule.out_ids.
    rewrite Hid, Hcd. done.
  - by rewrite lookup_alter_ne.
Qed.

Lemma promoted_same n n' k k' m :
  BaseModule.id (promoted n n' k k' m) = BaseModule.id m ∧
  BaseModule.conn_dict (promoted n n' k k' m) = BaseModule.conn_dict m.
Proof. unfold promoted. by repeat case_decide. Qed.

Lemma grown_plus src dest c cT sid did h :
  grown (peer_at dest sid no_peers) (peer_at src did no_peers) h
    (alter (wired cT "in" sid) dest (heap_plus_1 src dest c did h)).
Proof.
  apply grown_alter_in, grown_alter_out.
  do 2 (apply grown_alter_net; [apply promoted_same|]). apply grown_refl.
Qed.

Lemma grown_minus src dest c cT sid did h :
  grown (peer_at src did no_peers) (peer_at dest sid no_peers) h
    (alter (wired cT "out" sid) dest (heap_minus_1 src dest c did h)).
Proof.
  apply grown_alter_out, grown_alter_in.
  do 2 (apply grown_alter_net; [apply promoted_same|]). apply grown_refl.
Qed.

Lemma grown_both src dest c cT cT' sid did h :
  grown (peer_at src did (peer_at dest sid no_peers))
        (peer_at dest sid (peer_at src did no_peers)) h
    (heap_both src dest c cT cT' sid did h).
Proof.
  apply grown_alter_out, grown_alter_in, grown_alter_in, grown_alter_out.
  do 2 (apply grown_alter_net; [done|]). apply grown_refl.
Qed.

Lemma coords_routed e s e' :
  e' ∈ RoutingTable.coords (routing_table (routed_edge e s))
  ↔ e' ∈ RoutingTable.coords (routing_table s) ∨ e' = e.
Proof.
  unfold routed_edge, RoutingTable.__setitem__, RoutingTable.coords. simpl.
  case_decide; [set_solver|]. rewrite elem_of_app. set_solver.
Qed.

Lemma coords_routed_NoDup e s :
  NoDup (RoutingTable.coords (routing_table s)) →
  NoDup (RoutingTable.coords (routing_table (routed_edge e s))).
Proof.
  unfold routed_edge, RoutingTable.__setitem__, RoutingTable.coords. simpl.
  intros Hnd. case_decide; [done|]. apply NoDup_app. split_and!; [done| |apply NoDup_singleton].
  set_solver.
Qed.

(** The invariant over a store that has grown by the peers of a set of
    new edges. *)
Lemma grown_table_wired w w' ins outs (edges : list (ID * ID)) :
  ids_distinct w → table_wired w →
  grown ins outs (heap w) (heap w') →
  NoDup (RoutingTable.coords (routing_table (man w'))) →
  (∀ e, e ∈ RoutingTable.coords (routing_table (man w'))
        ↔ e ∈ RoutingTable.coords (routing_table (man w)) ∨ e ∈ edges) →
  (∀ x m s, heap w !! x = Some m → s ∈ ins x ↔ (s, BaseModule.id m) ∈ edges) →
  (∀ x m d, heap w !! x = Some m → d ∈ outs x ↔ (BaseModule.id m, d) ∈ edges) →
  table_wired w' ∧ ids_distinct w'.
Proof.
  intros Hdist [_ Hw] Hg Hnd Hrt Hins Houts. split; [split; [done|]|].
  - intros x m' Hx. pose proof (Hg x) as Hgx. rewrite Hx in Hgx.
    destruct (heap w !! x) as [m|] eqn:Hm; [|done].
    destruct Hgx as (Hid & Hin & Hout). destruct (Hw x m Hm) as [Hwi Hwo].
    split.
    + intros s. rewrite Hin, Hrt, Hid, Hwi, (Hins x m s Hm). done.
    + intros d. rewrite Hout, Hrt, Hid, Hwo, (Houts x m d Hm). done.
  - intros x y mx' my' Hx Hy Hid.
    pose proof (Hg x) as Hgx. rewrite Hx in Hgx.
    pose proof (Hg y) as Hgy. rewrite Hy in Hgy.
    destruct (heap w !! x) as [mx|] eqn:Hmx; [|done].
    destruct (heap w !! y) as [my|] eqn:Hmy; [|done].
    destruct Hgx as (Hix & _). destruct Hgy as (Hiy & _).
    apply (Hdist x y mx my Hmx Hmy). congruence.
Qed.

(** One call that returns keeps the routing table and the wiring in
    step. *)
Lemma connect_table_wired_step m_src m_dest conn dir w w' :
  ids_distinct w → table_wired w →
  connect m_src m_dest conn dir w = (Ok tt, w') →
  table_wired w' ∧ ids_distinct w'.
Proof.
  intros Hdist Hw H. pose proof Hw as [Hnd _].
  apply connect_ok_shape in H
    as (src & dest & c & ms & md & -> & -> & -> & Hs & Hd & H). cbn zeta in H.
  assert (Hsrc : ∀ x m, heap w !! x = Some m →
                   BaseModule.id m = BaseModule.id ms ↔ x = src).
  { intros x m Hx. split; [intros E; by apply (Hdist x src m ms)|]. intros ->. congruence. }
  assert (Hdest : ∀ x m, heap w !! x = Some m →
                    BaseModule.id m = BaseModule.id md ↔ x = dest).
  { intros x m Hx. split; [intros E; by apply (Hdist x dest m md)|]. intros ->. congruence. }
  destruct H as [(-> & cT & _ & ->)|[(-> & cT & _ & ->)|(-> & cT & cT' & _ & _ & ->)]].
  - eapply (grown_table_wired w _ _ _ [(BaseModule.id ms, BaseModule.id md)]);
      [done|done|apply grown_plus|..]; cbn [heap man].
    + by apply coords_routed_NoDup.
    + intros e. rewrite coords_routed. set_solver.
    + intros x m s Hx. unfold peer_at, no_peers. specialize (Hdest x m Hx).
      case_decide; set_solver.
    + intros x m d Hx. unfold peer_at, no_peers. specialize (Hsrc x m Hx).
      case_decide; set_solver.
  - eapply (grown_table_wired w _ _ _ [(BaseModule.id md, BaseModule.id ms)]);
      [done|done|apply grown_minus|..]; cbn [heap man].
    + by apply coords_routed_NoDup.
    + intros e. rewrite coords_routed. set_solver.
    + intros x m s Hx. unfold peer_at, no_peers. specialize (Hsrc x m Hx).
      case_decide; set_solver.
    + intros x m d Hx. unfold peer_at, no_peers. specialize (Hdest x m Hx).
      case_decide; set_solver.
  - eapply (grown_table_wired w _ _ _ [(BaseModule.id ms, BaseModule.id md);
                                       (BaseModule.id md, BaseModule.id ms)]);
      [done|done|apply grown_both|..]; cbn [heap man].
    + by do 2 apply coords_routed_NoDup.
    + intros e. rewrite !coords_routed. set_solver.
    + intros x m s Hx. unfold peer_at, no_peers.
      specialize (Hsrc x m Hx). specialize (Hdest x m Hx).
      repeat case_decide; set_solver.
    + intros x m d Hx. unfold peer_at, no_peers.
      specialize (Hsrc x m Hx). specialize (Hdest x m Hx).
      repeat case_decide; set_solver.
Qed.
End wiring.

(** *** Modules that [connect] wires without a net mode to match *)

Section connect_nets.
Import BaseManager.
Variable packb : ID * payload → string.
Variable unpackb : string → option (ID * payload).
Implicit Types (w : world) (a src dest : positive) (c : BaseConnectivity.t)
  (h : gmap positive BaseModule.t) (m : BaseModule.t).

Lemma alter_keeps (Q : BaseModule.t → Prop) (f : BaseModule.t → BaseModule.t) a h x :
  (∀ m, Q m → Q (f m)) →
  (∃ m, h !! x = Some m ∧ Q m) → ∃ m', alter f a h !! x = Some m' ∧ Q m'.
Proof.
  intros Hf (m & Hm & HQ). destruct (decide (x = a)) as [->|Hne].
  - rewrite lookup_alter_eq, Hm. eauto.
  - rewrite lookup_alter_ne by done. eauto.
Qed.

Lemma wired_net c ct i m : BaseModule.net (wired c ct i m) = BaseModule.net m.
Proof. apply add_conn_net. Qed.

Lemma promoted_ctrl n n' k k' m :
  n ≠ net_ctrl → k ≠ net_ctrl →
  BaseModule.net m = net_ctrl → BaseModule.net (promoted n n' k k' m) = net_ctrl.
Proof. intros Hn Hk Hm. unfold promoted. rewrite Hm. by rewrite !decide_False. Qed.

(** X19.  A module in net mode ['ctrl'] that is made the source of a
    connection gets the destination among its [out_ids] and the edge in
    the routing table, and stays in ['ctrl']: its [_sync] sends nothing,
    so the frame of that edge never reaches the broker. *)
Theorem ctrl_source_stays_silent src dest c w w' ms md :
  heap w !! src = Some ms → heap w !! dest = Some md →
  BaseModule.net ms = net_ctrl →
  connect (ObjModule src) (ObjModule dest) (ObjConn c) "+" w = (Ok tt, w') →
  ∃ ms', heap w' !! src = Some ms' ∧
         BaseModule.net ms' = net_ctrl ∧
         BaseModule.id md ∈ BaseModule.out_ids ms' ∧
         (BaseModule.id ms, BaseModule.id md)
           ∈ RoutingTable.coords (routing_table (man w')) ∧
         ∀ sent inbox,
           BaseModule._sync packb unpackb (BaseModule.Proc ms' sent inbox)
           = (Ok tt, BaseModule.Proc ms' sent inbox).
Proof.
  intros Hs Hd Hnet H.
  apply connect_ok_shape in H
    as (src' & dest' & c' & ms' & md' & [= <-] & [= <-] & [= <-] & Hs' & Hd' & H).
  rewrite Hs in Hs'. rewrite Hd in Hd'. injection Hs' as <-. injection Hd' as <-.
  cbn zeta in H.
  destruct H as [(_ & cT & _ & ->)|[(? & _)|(? & _)]]; [|done..].
  cbn [heap man].
  assert (Hk : ∃ m', alter (wired cT "in" (BaseModule.id ms)) dest
                       (heap_plus_1 src dest c (BaseModule.id md) (heap w)) !! src
                     = Some m' ∧ BaseModule.net m' = net_ctrl).
  { unfold heap_plus_1.
    apply alter_keeps; [intros m; by rewrite wired_net|].
    apply alter_keeps; [intros m; by rewrite wired_net|].
    apply alter_keeps; [intros m; by apply promoted_ctrl|].
    apply alter_keeps; [intros m; by apply promoted_ctrl|]. eauto. }
  destruct Hk as (m' & Hm' & Hn'). exists m'. split_and!; [done|done|..].
  - pose proof (grown_plus src dest c cT (BaseModule.id ms) (BaseModule.id md) (heap w) src)
      as Hg.
    rewrite Hs, Hm' in Hg. destruct Hg as (_ & _ & Hout). apply Hout. right.
    unfold peer_at. rewrite decide_True by done. left.
  - apply coords_routed. by right.
  - intros sent inbox. rewrite sync_unfold. cbn. by rewrite Hn'.
Qed.

(** X20.  A module connected to itself is source and destination of the same
    call: one ['+'] takes it from any mode but ['ctrl'] to ['full'],
    with itself among its [in_ids] and its [out_ids]. *)
Theorem connect_to_itself a c w w' m :
  heap w !! a = Some m → BaseModule.net m ≠ net_ctrl →
  connect (ObjModule a) (ObjModule a) (ObjConn c) "+" w = (Ok tt, w') →
  ∃ m', heap w' !! a = Some m' ∧
        BaseModule.net m' = net_full ∧
        BaseModule.id m ∈ BaseModule.in_ids m' ∧
        BaseModule.id m ∈ BaseModule.out_ids m'.
Proof.
  intros Hm Hnet H.
  apply connect_ok_shape in H
    as (src' & dest' & c' & ms' & md' & [= <-] & [= <-] & [= <-] & Hs' & Hd' & H).
  rewrite Hm in Hs'. rewrite Hm in Hd'. injection Hs' as <-. injection Hd' as <-.
  cbn zeta in H.
  destruct H as [(_ & cT & _ & ->)|[(? & _)|(? & _)]]; [|done..].
  cbn [heap man].
  pose proof (grown_plus a a c cT (BaseModule.id m) (BaseModule.id m) (heap w) a) as Hg.
  rewrite Hm in Hg. unfold heap_plus_1 in *.
  rewrite !lookup_alter_eq, Hm in *. cbn [fmap option_fmap option_map] in *.
  eexists. split; [done|]. destruct Hg as (_ & Hin & Hout). split_and!.
  - rewrite !wired_net. clear -Hnet. unfold promoted.
    destruct m as [? [] ? ? ? ? ?]; by cbn in *.
  - apply Hin. right. unfold peer_at. rewrite decide_True by done. left.
  - apply Hout. right. unfold peer_at. rewrite decide_True by done. left.
Qed.
End connect_nets.

(** ** From the modules to the broker *)

Section uplink.
Import BaseModule.
Variable packb : ID * payload → string.
Variable unpackb : string → option (ID * payload).

Lemma split_by_filter (dsts ids : list ID) :
  NoDup dsts → NoDup ids → dsts ⊆ ids →
  dsts ++ filter (λ d, d ∉ dsts) ids ≡ₚ ids.
Proof.
  intros Hd Hi Hsub. apply NoDup_Permutation; [|done|].
  - apply NoDup_app. split_and!; [done| |by apply NoDup_filter].
    intros x Hx [Hn _]%list_elem_of_filter. done.
  - intros x. rewrite elem_of_app, list_elem_of_filter.
    destruct (decide (x ∈ dsts)); naive_solver.
Qed.

(** X12.  What a module's send phase puts on the wire is, at the broker, one
    message for every edge from the module to one of its [out_ids], and
    nothing else. *)
Theorem sync_sends_one_message_per_edge p :
  net (self p) = net_out ∨ net (self p) = net_full →
  out_buffer_ok (self p) →
  ∃ frames,
    sock_sent (_sync packb unpackb p).2 = sock_sent p ++ frames ∧
    from_module (id (self p)) <$> frames = wire packb <$> outbound (self p) ∧
    coord <$> outbound (self p) ≡ₚ (λ d, (id (self p), d)) <$> out_ids (self p).
Proof.
  intros Hn [Hnd Hsub].
  exists ((packb <$> _out_data (self p))
            ++ none_frames packb (_out_data (self p)).*1 (out_ids (self p))).
  split_and!.
  - rewrite sync_unfold. destruct Hn as [-> | ->]; unfold bind;
      rewrite (sync_send_ok _ _ Hnd Hsub); [done|].
    match goal with |- sock_sent (_sync_recv _ ?q).2 = _ =>
      by rewrite (keeps_sync_recv unpackb same_sent) with (s := q) end.
  - unfold outbound, none_frames. rewrite <-!list_fmap_compose.
    rewrite !fmap_app, <-!list_fmap_compose.
    f_equal; apply list_fmap_ext; by intros ? [].
  - etransitivity;
      [|apply fmap_Permutation, (split_by_filter _ _ Hnd (out_ids_NoDup _) Hsub)].
    unfold outbound. rewrite <-list_fmap_compose.
    rewrite !fmap_app, <-!list_fmap_compose. done.
Qed.
End uplink.

(** ** Sequences of [connect] calls *)

Section connects_wired.
Import BaseManager.

Lemma connect_outcome m_src m_dest conn dir w :
  (∀ c, conn = ObjConn c → conn_ok c) →
  (∃ w', connect m_src m_dest conn dir w = (Ok tt, w')) ∨
  (heap (connect m_src m_dest conn dir w).2 = heap w ∧
   routing_table (man (connect m_src m_dest conn dir w).2) = routing_table (man w)).
Proof.
  intros Hc.
  assert (Hinv : (∀ src dest c ms md, m_src = ObjModule src → m_dest = ObjModule dest →
                    conn = ObjConn c → heap w !! src = Some ms →
                    heap w !! dest = Some md → False) →
                 heap (connect m_src m_dest conn dir w).2 = heap w ∧
                 routing_table (man (connect m_src m_dest conn dir w).2)
                 = routing_table (man w)).
  { intros Hinv. by rewrite connect_invalid. }
  destruct m_src as [src|x1| |x2]; try (right; apply Hinv; discriminate).
  destruct m_dest as [dest|x1| |x2]; try (right; apply Hinv; discriminate).
  destruct conn as [x1|c| |x2]; try (right; apply Hinv; discriminate).
  destruct (heap w !! src) as [ms|] eqn:Hs; [|right; apply Hinv; congruence].
  destruct (heap w !! dest) as [md|] eqn:Hd; [|right; apply Hinv; congruence].
  clear Hinv.
  destruct (decide (dir = "+")) as [->|Hp];
    [left; apply connect_valid_returns; eauto|].
  destruct (decide (dir = "-")) as [->|Hm];
    [left; apply connect_valid_returns; eauto|].
  destruct (decide (dir = "=")) as [->|Hb];
    [left; apply connect_valid_returns; eauto|].
  right. rewrite (connect_eval _ _ _ _ _ _ _ Hs Hd).
  unfold connect_update. by rewrite !decide_False by done.
Qed.

(** X18.  The routing table and the wiring stay in step over any sequence of
    calls with connectivity objects that [transpose] accepts, failed
    calls included: a call that fails has left both as they were. *)
Theorem connects_keep_table_wired cs w :
  Forall (λ k, ∀ c, call_conn k = ObjConn c → conn_ok c) cs →
  ids_distinct w → table_wired w →
  table_wired (connects cs w) ∧ ids_distinct (connects cs w).
Proof.
  revert w. induction cs as [|k cs IH]; intros w Hcs Hd Hw; [done|].
  apply Forall_cons in Hcs as [Hk Hcs]. simpl. apply IH; [done|..].
  - destruct (connect_outcome (call_src k) (call_dest k) (call_conn k) (call_dir k) w Hk)
      as [[w' H]|[Hh Hr]].
    + rewrite H. by apply (connect_table_wired_step _ _ _ _ _ _ Hd Hw H).
    + intros a b ma mb. rewrite Hh. apply Hd.
  - destruct (connect_outcome (call_src k) (call_dest k) (call_conn k) (call_dir k) w Hk)
      as [[w' H]|[Hh Hr]].
    + rewrite H. by apply (connect_table_wired_step _ _ _ _ _ _ Hd Hw H).
    + unfold table_wired. rewrite Hh, Hr. done.
Qed.
End connects_wired.

(** ** Concrete instances of the further properties *)

(** Writing 1 at (1, 2) of a new object and reading it back. *)
Lemma set_get_witness :
  int64_ok 1 ∧ BaseConnectivityGet.get 1 2 0 "+" "conn" example_conn = Ok 1%Z.
Proof.
  apply (set_get 1 2 0 "+" "conn" 1 example_fresh_conn example_conn).
  vm_compute. reflexivity.
Defined.

(** The same write with 2^63: [OverflowError], and the cell reads 0 as
    before. *)
Example set_overflow :
  let r := BaseConnectivity.set 1 2 0 "+" "conn" (2 ^ 63) example_fresh_conn in
  r.1 = Raise OverflowError ∧
  BaseConnectivityGet.get 1 2 0 "+" "conn" r.2 = Ok 0%Z.
Proof. vm_compute. done. Qed.

(** The same write leaves the ['-'] matrix and the cell (0, 0) alone. *)
Lemma set_get_other_witness :
  ((0, "-", "conn") ≠ (0, "+", "conn") →
     BaseConnectivityGet.get 0 0 0 "-" "conn" example_conn
     = BaseConnectivityGet.get 0 0 0 "-" "conn" example_fresh_conn) ∧
  ((0, 0) ≠ (1, 2) →
     is_Some (BaseConnectivity._data example_fresh_conn
                !! BaseConnectivity._make_key 0 "+" "conn") →
     BaseConnectivityGet.get 0 0 0 "+" "conn" example_conn
     = BaseConnectivityGet.get 0 0 0 "+" "conn" example_fresh_conn).
Proof.
  apply (set_get_other 1 2 0 "+" "conn" 1 example_fresh_conn example_conn 0 0 0 "-" "conn").
  vm_compute. reflexivity.
Defined.


(** The exception of the last example is [IndexError]. *)
Example set_out_of_range_raises :
  (BaseConnectivity.set 5 0 1 "+" "w" 7 example_fresh_conn).1 = Raise IndexError.
Proof. vm_compute. reflexivity. Qed.


(** A successful and a failed [set], then [transpose]. *)
Lemma built_transposes_witness :
  ∃ c', BaseConnectivity.transpose "t"
          (sets [SetCall 1 2 0 "+" "conn" 1; SetCall 5 5 1 "-" "w" 2] example_fresh_conn)
        = Ok c'.
Proof.
  apply (built_transposes "c" 2 3 1 example_fresh_conn
           [SetCall 1 2 0 "+" "conn" 1; SetCall 5 5 1 "-" "w" 2] "t").
  reflexivity.
Defined.

(** The cell (1, 2) of the ['+'] matrix is the cell (2, 1) of the ['-']
    matrix of the transposed object. *)
Lemma transpose_get_witness :
  ∃ cT, BaseConnectivity.transpose "t" example_conn = Ok cT ∧
        BaseConnectivityGet.get 2 1 0 "-" "conn" cT
        = BaseConnectivityGet.get 1 2 0 "+" "conn" example_conn.
Proof.
  eexists. split; [vm_compute; reflexivity|].
  apply (transpose_get "t" example_conn _ 1 2 0 "+" "conn").
  - apply (bool_decide_unpack _). vm_compute. exact I.
  - vm_compute. reflexivity.
Defined.

(** A module that awaits m1 and m3 and has the frame of m1 only. *)
Lemma sync_waits_for_every_peer_witness :
  let p := BaseModule.Proc (example_module "m2" net_in [] ["m1"; "m3"] []) [] ["m1:a"] in
  ∃ p', BaseModule._sync example_packb example_unpackb p = (Blocks, p') ∧
        BaseModule.sock_inbox p' = [] ∧
        BaseModule._in_data (BaseModule.self p') = filter non_none [("m1", Some "a")].
Proof.
  intros p.
  apply (sync_waits_for_every_peer example_packb example_unpackb p [("m1", Some "a")]).
  - left. reflexivity.
  - reflexivity.
  - apply (bool_decide_unpack _). vm_compute. exact I.
  - apply (bool_decide_unpack _). vm_compute. exact I.
  - apply (bool_decide_unpack _). vm_compute. exact I.
Defined.

(** The same module receives the frame of m1 and then one of m2, which is
    no peer. *)
Lemma sync_unexpected_source_witness :
  let p := BaseModule.Proc (example_module "m2" net_in [] ["m1"; "m3"] [])
             [] ["m1:a"; "m2:x"; "m3:~"] in
  ∃ p', BaseModule._sync example_packb example_unpackb p = (Raise ValueError, p') ∧
        BaseModule.sock_inbox p' = ["m3:~"] ∧
        BaseModule._in_data (BaseModule.self p') = filter non_none [("m1", Some "a")].
Proof.
  intros p.
  apply (sync_unexpected_source example_packb example_unpackb p
           ["m1:a"] [("m1", Some "a")] "m2:x" "m2" (Some "x") ["m3:~"]).
  - left. reflexivity.
  - reflexivity.
  - reflexivity.
  - apply (bool_decide_unpack _). vm_compute. exact I.
  - apply (bool_decide_unpack _). vm_compute. exact I.
  - apply (bool_decide_unpack _). vm_compute. exact I.
  - reflexivity.
  - left. apply (bool_decide_unpack _). vm_compute. exact I.
Defined.

(** A module in net mode ['out'] with three destinations and data for
    one of them. *)
Lemma sync_out_returns_iff_witness :
  let p := BaseModule.Proc
             (example_module "m2" net_out [("m3", Some "x")] [] ["m1"; "m3"; "m4"]) [] [] in
  (∃ p', BaseModule._sync example_packb example_unpackb p = (Ok tt, p'))
  ↔ out_buffer_ok (BaseModule.self p).
Proof.
  intros p. apply (sync_out_returns_iff example_packb example_unpackb p). reflexivity.
Defined.

(** An iteration of a [MyModule] with two destinations. *)
Lemma my_module_sends_data_witness :
  let p := BaseModule.Proc (example_module "m2" net_out [] [] ["m1"; "m3"]) [] [] in
  let data := drawn pretty (BaseModule.out_ids (BaseModule.self p)) in
  BaseModule.sock_sent
    (MyModule.run_iteration example_packb example_unpackb pretty p).2
  = [] ++ (example_packb <$> data) ∧
  (net_out = net_out →
   MyModule.run_iteration example_packb example_unpackb pretty p
   = (Ok tt, BaseModule.Proc (MyModule.set_out_data data (BaseModule.self p))
               ([] ++ (example_packb <$> data)) [])).
Proof.
  intros p data.
  apply (my_module_sends_data example_packb example_unpackb pretty p).
  left. reflexivity.
Defined.

(** The same module: three messages at the broker, one for each
    destination. *)
Lemma sync_sends_one_message_per_edge_witness :
  let p := BaseModule.Proc
             (example_module "m2" net_out [("m3", Some "x")] [] ["m1"; "m3"; "m4"]) [] [] in
  ∃ frames,
    BaseModule.sock_sent (BaseModule._sync example_packb example_unpackb p).2
    = [] ++ frames ∧
    from_module "m2" <$> frames = wire example_packb <$> outbound (BaseModule.self p) ∧
    coord <$> outbound (BaseModule.self p)
    ≡ₚ (λ d, ("m2", d)) <$> BaseModule.out_ids (BaseModule.self p).
Proof.
  intros p.
  apply (sync_sends_one_message_per_edge example_packb example_unpackb p).
  - left. reflexivity.
  - split; apply (bool_decide_unpack _); vm_compute; exact I.
Defined.

(** Two rounds of the example table, in different orders. *)
Lemma broker_rounds_witness :
  Broker.run example_packb example_unpackb
    (wire example_packb <$> concat [example_round; example_round'])
    (Broker.Proc example_broker [])
  = (Ok tt, Broker.Proc example_broker
              (Broker.routed example_packb <$> concat [example_round; example_round'])).
Proof.
  apply (broker_rounds example_packb example_unpackb "b" 5000 5001 example_table
           example_broker [example_round; example_round']).
  - reflexivity.
  - repeat constructor; apply (bool_decide_unpack _); vm_compute; exact I.
  - repeat constructor.
Defined.

(** A round and then the message of m1 only. *)
Lemma broker_holds_incomplete_round_witness :
  ∃ p, Broker.run example_packb example_unpackb
         (wire example_packb <$> (concat [example_round] ++ [("m1", "m2", Some "x")]))
         (Broker.Proc example_broker []) = (Ok tt, p) ∧
       Broker.sock_sent p = Broker.routed example_packb <$> concat [example_round] ∧
       Broker.data_to_route (Broker.self p) = [("m1", "m2", Some "x")] ∧
       Broker.recv_coords_list (Broker.self p) ≡ₚ [("m2", "m1")].
Proof.
  apply (broker_holds_incomplete_round example_packb example_unpackb "b" 5000 5001
           example_table example_broker [example_round] [("m1", "m2", Some "x")]
           [("m2", "m1")]).
  - reflexivity.
  - repeat constructor; apply (bool_decide_unpack _); vm_compute; exact I.
  - reflexivity.
  - discriminate.
  - repeat constructor.
Defined.

(** The module m2 after a round of a table with the edge m1 to m2. *)
Lemma broker_round_feeds_sync_witness :
  let r := [("m1", "m2", Some "a")] in
  let p := BaseModule.Proc (example_module "m2" net_in [] ["m1"] [])
             [] (delivered "m2" (Broker.routed example_packb <$> r)) in
  ∃ p', BaseModule._sync example_packb example_unpackb p = (Ok tt, p') ∧
        BaseModule.sock_inbox p' = [] ∧
        BaseModule._in_data (BaseModule.self p') = filter non_none (inbound "m2" r).
Proof.
  intros r p.
  apply (broker_round_feeds_sync example_packb example_unpackb p [("m1", "m2")] r).
  - left. reflexivity.
  - apply (bool_decide_unpack _). vm_compute. exact I.
  - reflexivity.
  - intros s. change (BaseModule.in_ids (BaseModule.self p)) with ["m1"].
    change (BaseModule.id (BaseModule.self p)) with "m2".
    unfold RoutingTable.coords. set_solver.
  - repeat constructor.
  - reflexivity.
Defined.

(** Two unconnected modules and an object built by the constructor and one
    [set]. *)
Lemma connect_returns_witness :
  ∃ w', BaseManager.connect (ObjModule 1) (ObjModule 2)
          (ObjConn (sets [SetCall 1 2 0 "+" "conn" 1] example_fresh_conn)) "+"
          (example_world net_none net_none) = (Ok tt, w').
Proof.
  apply (connect_returns 1 2 "c" 2 3 1 example_fresh_conn [SetCall 1 2 0 "+" "conn" 1] "+"
           (example_world net_none net_none)).
  - apply (bool_decide_unpack _). vm_compute. exact I.
  - apply (bool_decide_unpack _). vm_compute. exact I.
  - reflexivity.
  - left. reflexivity.
Defined.

(** The direction ['both']. *)
Lemma connect_bad_direction_witness :
  let w := example_world net_none net_none in
  ∃ w', BaseManager.connect (ObjModule 1) (ObjModule 2) (ObjConn example_conn) "both" w
        = (Raise ValueError, w') ∧
        BaseManager.heap w' = BaseManager.heap w ∧
        BaseManager.routing_table (BaseManager.man w')
        = BaseManager.routing_table (BaseManager.man w) ∧
        is_Some (BaseManager.mod_dict (BaseManager.man w') !! "m1") ∧
        is_Some (BaseManager.mod_dict (BaseManager.man w') !! "m2") ∧
        is_Some (BaseManager.conn_dict (BaseManager.man w') !! "c").
Proof.
  intros w.
  apply (connect_bad_direction 1 2 example_conn "both" w
           (example_module "m1" net_none [] [] []) (example_module "m2" net_none [] [] [])).
  - reflexivity.
  - reflexivity.
  - discriminate.
  - discriminate.
  - discriminate.
Defined.

(** A call that returns, a call with a string for a module and a call
    with an unknown direction. *)
Lemma connects_keep_table_wired_witness :
  let cs := [BaseManager.Call (ObjModule 1) (ObjModule 2) (ObjConn example_conn) "=";
             BaseManager.Call (ObjModule 1) (ObjStr "m2") (ObjConn example_conn) "+";
             BaseManager.Call (ObjModule 2) (ObjModule 1) (ObjConn example_conn) "both"] in
  table_wired (BaseManager.connects cs (example_world net_none net_none)) ∧
  ids_distinct (BaseManager.connects cs (example_world net_none net_none)).
Proof.
  intros cs.
  apply (connects_keep_table_wired cs (example_world net_none net_none)).
  - repeat (apply Forall_cons; split;
      [intros c [= <-]; apply (bool_decide_unpack _); vm_compute; exact I|]).
    constructor.
  - intros a b ma mb. unfold example_world. cbn [BaseManager.heap].
    rewrite !lookup_insert_Some, !lookup_empty.
    intros [[<- <-]|[_ [[<- <-]|[_ ?]]]] [[<- <-]|[_ [[<- <-]|[_ ?]]]]; done.
  - split; [constructor|]. intros a m. unfold example_world. cbn [BaseManager.heap].
    rewrite !lookup_insert_Some, !lookup_empty.
    intros [[<- <-]|[_ [[<- <-]|[_ ?]]]]; try done.
    all: split; intros x; vm_compute; split; intros H; inversion H.
Defined.

(** The module m1 in net mode ['ctrl'], connected to m2. *)
Lemma ctrl_source_stays_silent_witness :
  let w := example_world net_ctrl net_none in
  let w' := (BaseManager.connect (ObjModule 1) (ObjModule 2)
               (ObjConn example_conn) "+" w).2 in
  ∃ ms', BaseManager.heap w' !! 1%positive = Some ms' ∧
         BaseModule.net ms' = net_ctrl ∧
         "m2" ∈ BaseModule.out_ids ms' ∧
         ("m1", "m2") ∈ RoutingTable.coords (BaseManager.routing_table (BaseManager.man w')) ∧
         ∀ sent inbox,
           BaseModule._sync example_packb example_unpackb (BaseModule.Proc ms' sent inbox)
           = (Ok tt, BaseModule.Proc ms' sent inbox).
Proof.
  intros w w'.
  apply (ctrl_source_stays_silent example_packb example_unpackb 1 2 example_conn w w'
           (example_module "m1" net_ctrl [] [] []) (example_module "m2" net_none [] [] [])).
  - reflexivity.
  - reflexivity.
  - reflexivity.
  - vm_compute. reflexivity.
Defined.

(** The module m1, unconnected, connected to itself. *)
Lemma connect_to_itself_witness :
  let w := example_world net_none net_none in
  let w' := (BaseManager.connect (ObjModule 1) (ObjModule 1)
               (ObjConn example_conn) "+" w).2 in
  ∃ m', BaseManager.heap w' !! 1%positive = Some m' ∧
        BaseModule.net m' = net_full ∧
        "m1" ∈ BaseModule.in_ids m' ∧
        "m1" ∈ BaseModule.out_ids m'.
Proof.
  intros w w'.
  apply (connect_to_itself 1 example_conn w w' (example_module "m1" net_none [] [] [])).
  - reflexivity.
  - discriminate.
  - vm_compute. reflexivity.
Defined.
